(** * File operations of the Home Assistant MCP server

    A shallow embedding of [src/ha_mcp/tools/tools_file_operations.py]:
    the three tools [read_file], [write_file] and [list_directory], the
    part of [pathlib] they call, and a POSIX file tree with symbolic links
    on which they run.

    Conventions of the model.
    - A Python [str] is the list of its Unicode code points.
    - A file holds bytes; [read_text]/[write_text] go through UTF-8 and the
      text layer of [open] (universal newlines on reading).
    - The interpreter is CPython 3.10-3.12 on Linux: [Path.resolve] is
      [os.path.realpath] followed by the symlink-loop check.
    - Permissions, quotas and concurrent processes are not part of the file
      tree; their effect (a call failing with some [OSError]) is supplied by
      a schedule of injected faults, empty in a quiet world. *)

From Stdlib Require Import String Ascii.
From stdpp Require Import base numbers list option gmap sorting pretty.

Local Open Scope N_scope.

(** ** Python strings *)

Module Str.

(** [str]: a sequence of code points. *)
Definition str := list N.

(** The code points of an ASCII literal. *)
Definition u (s : string) : str :=
  (fun a => N_of_ascii a) <$> list_ascii_of_string s.

Definition slash : N := 47.
Definition cr : N := 13.
Definition lf : N := 10.

(** [s.lstrip("/")] *)
Fixpoint lstrip_slash (s : str) : str :=
  match s with
  | c :: r => if decide (c = slash) then lstrip_slash r else s
  | [] => []
  end.

(** [s.startswith(p)] *)
Fixpoint startswith (s p : str) : bool :=
  match p, s with
  | [], _ => true
  | a :: p', b :: s' => bool_decide (a = b) && startswith s' p'
  | _ :: _, [] => false
  end.

(** [s.split("/")], never empty. *)
Fixpoint split_slash (s : str) : list str :=
  match s with
  | [] => [[]]
  | c :: r =>
      if decide (c = slash) then [] :: split_slash r
      else match split_slash r with
           | w :: ws => (c :: w) :: ws
           | [] => [[c]]
           end
  end.

(** ["/".join(l)] *)
Fixpoint join_slash (l : list str) : str :=
  match l with
  | [] => []
  | [w] => w
  | w :: ws => w ++ slash :: join_slash ws
  end.

(** [len(s)], of a [str] or of a list *)
Definition len {A} (s : list A) : N := N.of_nat (length s).

(** [a < b] on [str]: code point by code point. *)
Fixpoint ltb (a b : str) : bool :=
  match a, b with
  | _, [] => false
  | [], _ :: _ => true
  | x :: a', y :: b' => (x <? y) || (bool_decide (x = y) && ltb a' b')
  end.

End Str.
Export Str.

(** ** UTF-8 and the text layer *)

Module Codec.

Definition bytes := list N.

(** Encoding of one code point; [None] is [UnicodeEncodeError]
    (a surrogate), or a value that is not a code point at all. *)
Definition encode_cp (c : N) : option bytes :=
  if c <? 128 then Some [c]
  else if c <? 2048 then Some [192 + c / 64; 128 + c mod 64]
  else if c <? 65536 then
    if (55296 <=? c) && (c <? 57344) then None
    else Some [224 + c / 4096; 128 + (c / 64) mod 64; 128 + c mod 64]
  else if c <? 1114112 then
    Some [240 + c / 262144; 128 + (c / 4096) mod 64;
          128 + (c / 64) mod 64; 128 + c mod 64]
  else None.

(** [s.encode("utf-8")] *)
Fixpoint encode (s : str) : option bytes :=
  match s with
  | [] => Some []
  | c :: r =>
      match encode_cp c, encode r with
      | Some b, Some bs => Some (b ++ bs)
      | _, _ => None
      end
  end.

Definition is_cont (b : N) : bool := (128 <=? b) && (b <? 192).

(** [b.decode("utf-8")], strict: [None] is [UnicodeDecodeError]. Overlong
    forms, surrogates and values above U+10FFFF are rejected. *)
Fixpoint decode (b : bytes) : option str :=
  match b with
  | [] => Some []
  | b0 :: r =>
      if b0 <? 128 then cons b0 <$> decode r
      else if b0 <? 194 then None
      else if b0 <? 224 then
        match r with
        | b1 :: r1 =>
            if is_cont b1
            then cons ((b0 - 192) * 64 + (b1 - 128)) <$> decode r1
            else None
        | _ => None
        end
      else if b0 <? 240 then
        match r with
        | b1 :: b2 :: r2 =>
            let c := (b0 - 224) * 4096 + (b1 - 128) * 64 + (b2 - 128) in
            if is_cont b1 && is_cont b2 && (2048 <=? c)
               && negb ((55296 <=? c) && (c <? 57344))
            then cons c <$> decode r2
            else None
        | _ => None
        end
      else if b0 <? 245 then
        match r with
        | b1 :: b2 :: b3 :: r3 =>
            let c := (b0 - 240) * 262144 + (b1 - 128) * 4096
                     + (b2 - 128) * 64 + (b3 - 128) in
            if is_cont b1 && is_cont b2 && is_cont b3
               && (65536 <=? c) && (c <? 1114112)
            then cons c <$> decode r3
            else None
        | _ => None
        end
      else None
  end.

(** Reading in text mode with [newline=None]: ["\r\n"] and a lone ["\r"]
    become ["\n"]. Writing on Linux leaves the text as it is. *)
Fixpoint universal_newlines (s : str) : str :=
  match s with
  | [] => []
  | c :: r =>
      if decide (c = cr) then
        match r with
        | d :: r' => if decide (d = lf) then lf :: universal_newlines r'
                     else lf :: universal_newlines r
        | [] => [lf]
        end
      else c :: universal_newlines r
  end.

End Codec.
Export Codec.

(** ** The file tree and the kernel's path walk *)

Module Fs.

Inductive node :=
  | File (data : bytes)
  | Dir
  | Symlink (target : str)
  | Socket.

(** A location: the names from ["/"] down, none of them [""], ["."] or
    [".."]. The root [[]] is always a directory. *)
Definition loc := list str.

Abbreviation filesystem := (gmap (list (list N)) node).

Inductive errno :=
  | ENOENT | ENOTDIR | ELOOP | EEXIST | EISDIR | ENXIO
  | EACCES | ENOSPC | EIO.

Global Instance node_eq_dec : EqDecision node.
Proof. solve_decision. Defined.
Global Instance errno_eq_dec : EqDecision errno.
Proof. solve_decision. Defined.

Definition dot : str := u ".".
Definition dotdot : str := u "..".

Definition parent (l : loc) : loc := removelast l.

Definition isabs (s : str) : bool := startswith s [slash].

Definition no_more (rest : list str) : bool :=
  match rest with [] => true | _ => false end.

(** Where a walk ends: at an existing node, or at a free name inside an
    existing directory. *)
Inductive walked :=
  | At (l : loc) (n : node)
  | Absent (l : loc).

(** Path resolution as in path_resolution(7), from directory [cur] along
    [names]. [follow] says whether a symbolic link in the last position is
    followed; links in other positions always are. [fuel] is the number of
    links that may still be followed (Linux: 40 in all, then [ELOOP]). *)
Fixpoint walk (fuel : nat) (fs : filesystem) (follow : bool)
    : loc -> list str -> errno + walked :=
  fix go (cur : loc) (names : list str) {struct names} :=
    match names with
    | [] => inr (At cur Dir)
    | c :: rest =>
        if decide (c = [] \/ c = dot) then go cur rest
        else if decide (c = dotdot) then go (parent cur) rest
        else
          let l := cur ++ [c] in
          match fs !! l with
          | None => if no_more rest then inr (Absent l) else inl ENOENT
          | Some Dir => go l rest
          | Some (Symlink t) =>
              if negb follow && no_more rest then inr (At l (Symlink t))
              else
                match fuel with
                | O => inl ELOOP
                | S f =>
                    walk f fs follow (if isabs t then [] else cur)
                         (split_slash t ++ rest)
                end
          | Some n => if no_more rest then inr (At l n) else inl ENOTDIR
          end
    end.

Definition MAXSYMLINKS : nat := 40.

(** stat(2) and lstat(2) on an absolute path given by its names. *)
Definition k_stat (fs : filesystem) (names : list str) : errno + node :=
  match walk MAXSYMLINKS fs true [] names with
  | inr (At _ n) => inr n
  | inr (Absent _) => inl ENOENT
  | inl e => inl e
  end.

Definition k_lstat (fs : filesystem) (names : list str) : errno + node :=
  match walk MAXSYMLINKS fs false [] names with
  | inr (At _ n) => inr n
  | inr (Absent _) => inl ENOENT
  | inl e => inl e
  end.

(** mkdir(2): the last name must be free; a link there is not followed. *)
Definition k_mkdir (fs : filesystem) (names : list str)
    : errno + filesystem :=
  match walk MAXSYMLINKS fs false [] names with
  | inr (At _ _) => inl EEXIST
  | inr (Absent l) => inr (<[l := Dir]> fs)
  | inl e => inl e
  end.

(** open(2) for reading, then reading to the end. *)
Definition k_read (fs : filesystem) (names : list str) : errno + bytes :=
  match walk MAXSYMLINKS fs true [] names with
  | inr (At _ (File d)) => inr d
  | inr (At _ Dir) => inl EISDIR
  | inr (At _ _) => inl ENXIO
  | inr (Absent _) => inl ENOENT
  | inl e => inl e
  end.

(** open(2) with [O_WRONLY|O_CREAT|O_TRUNC]: the location of the file that
    is now empty, and the new tree. *)
Definition k_open_trunc (fs : filesystem) (names : list str)
    : errno + (loc * filesystem) :=
  match walk MAXSYMLINKS fs true [] names with
  | inr (At l (File _)) => inr (l, <[l := File []]> fs)
  | inr (At _ Dir) => inl EISDIR
  | inr (At _ _) => inl ENXIO
  | inr (Absent l) => inr (l, <[l := File []]> fs)
  | inl e => inl e
  end.

(** The name of [k] when [k] is an immediate child of [l]. *)
Definition child_of (l k : loc) : option str :=
  match last k with
  | Some c => if decide (k = l ++ [c]) then Some c else None
  | None => None
  end.

Definition children (fs : filesystem) (l : loc) : list str :=
  omap (fun kn => child_of l kn.1) (map_to_list fs).

(** getdents(2) to the end: the names in a directory, in the order the
    file system hands them out. *)
Definition k_listdir (fs : filesystem) (names : list str)
    : errno + list str :=
  match walk MAXSYMLINKS fs true [] names with
  | inr (At l Dir) => inr (children fs l)
  | inr (At _ _) => inl ENOTDIR
  | inr (Absent _) => inl ENOENT
  | inl e => inl e
  end.

(** [posixpath._joinrealpath], non-strict: [path] is the resolved part,
    [rest] the names still to go, [seen] the links being resolved. [None]
    is a symlink loop. The nesting of links being resolved is bounded by
    their number, which [fuel] stands for. *)
Fixpoint joinrealpath (fuel : nat) (fs : filesystem) (seen : list loc)
    : loc -> list str -> option loc :=
  fix go (path : loc) (rest : list str) {struct rest} :=
    match rest with
    | [] => Some path
    | name :: rest' =>
        if decide (name = [] \/ name = dot) then go path rest'
        else if decide (name = dotdot) then go (parent path) rest'
        else
          let newpath := path ++ [name] in
          match k_lstat fs newpath with
          | inr (Symlink t) =>
              if decide (newpath ∈ seen) then None
              else
                match fuel with
                | O => None
                | S f =>
                    match joinrealpath f fs (newpath :: seen)
                            (if isabs t then [] else path) (split_slash t)
                    with
                    | Some path' => go path' rest'
                    | None => None
                    end
                end
          | _ => go newpath rest'
          end
    end.

(** [os.path.realpath] of an absolute path. *)
Definition realpath (fs : filesystem) (names : list str) : option loc :=
  joinrealpath (S (size fs)) fs [] [] names.

End Fs.
Export Fs.

(** ** pathlib *)

Module Pathlib.

(** A [PosixPath]: whether it is anchored at ["/"], and its parts. *)
Record Path := { absolute : bool; parts : list str }.

Global Instance Path_eq_dec : EqDecision Path.
Proof. solve_decision. Defined.

Definition is_part (c : str) : bool :=
  negb (bool_decide (c = [])) && negb (bool_decide (c = dot)).

(** [Path(s)]: empty and ["."] segments are dropped, [".."] is kept. *)
Definition mkPath (s : str) : Path :=
  {| absolute := isabs s; parts := List.filter is_part (split_slash s) |}.

(** [str(p)] *)
Definition path_str (p : Path) : str :=
  if absolute p then slash :: join_slash (parts p)
  else match parts p with
       | [] => dot
       | _ => join_slash (parts p)
       end.

(** [a / b] *)
Definition joinpath (a b : Path) : Path :=
  if absolute b then b
  else {| absolute := absolute a; parts := parts a ++ parts b |}.

(** [p.parent] *)
Definition path_parent (p : Path) : Path :=
  {| absolute := absolute p; parts := removelast (parts p) |}.

(** [p.name] *)
Definition path_name (p : Path) : str := List.last (parts p) [].

(** The list that [<] on paths compares. *)
Definition cparts (p : Path) : list str :=
  (if absolute p then [[slash]] else []) ++ parts p.

Fixpoint parts_ltb (a b : list str) : bool :=
  match a, b with
  | _, [] => false
  | [], _ :: _ => true
  | x :: a', y :: b' =>
      Str.ltb x y || (bool_decide (x = y) && parts_ltb a' b')
  end.

(** [p < q] *)
Definition path_ltb (p q : Path) : bool := parts_ltb (cparts p) (cparts q).

(** [not (q < p)], the order [sorted] keeps. *)
Definition path_le (p q : Path) : Prop := path_ltb q p = false.

Global Instance path_le_dec p q : Decision (path_le p q).
Proof. unfold path_le. apply _. Defined.

(** [sorted(l)] *)
Definition sorted (l : list Path) : list Path := merge_sort path_le l.

(** *** Exceptions *)

Inductive exn_class :=
  | OSError (e : errno)
  | ValueError
  | RuntimeError
  | UnicodeDecodeError
  | UnicodeEncodeError
  | KeyboardInterrupt.

(** [isinstance(e, Exception)] *)
Definition is_Exception (c : exn_class) : bool :=
  match c with
  | KeyboardInterrupt => false
  | _ => true
  end.

(** An exception object: its class and [str(e)]. *)
Record exn := { cls : exn_class; message : str }.

Definition errno_number (e : errno) : N :=
  match e with
  | ENOENT => 2 | EIO => 5 | ENXIO => 6 | EACCES => 13 | EEXIST => 17
  | ENOTDIR => 20 | EISDIR => 21 | ENOSPC => 28 | ELOOP => 40
  end.

Definition strerror (e : errno) : str :=
  match e with
  | ENOENT => u "No such file or directory"
  | EIO => u "Input/output error"
  | ENXIO => u "No such device or address"
  | EACCES => u "Permission denied"
  | EEXIST => u "File exists"
  | ENOTDIR => u "Not a directory"
  | EISDIR => u "Is a directory"
  | ENOSPC => u "No space left on device"
  | ELOOP => u "Too many levels of symbolic links"
  end.

(** The [OSError] a failed system call on [p] raises. The file name is
    shown between quotes, as [repr] does for a name without quotes,
    backslashes or control characters. *)
Definition os_error (e : errno) (p : Path) : exn :=
  {| cls := OSError e;
     message := u "[Errno " ++ u (pretty (errno_number e)) ++ u "] "
                ++ strerror e ++ u ": '" ++ path_str p ++ u "'" |}.

(** [pathlib._ignore_error] *)
Definition ignore_error (e : errno) : bool :=
  match e with
  | ENOENT | ENOTDIR | ELOOP => true
  | _ => false
  end.

(** The system calls see an absolute path; the tools only build absolute
    ones. A relative path is taken from ["/"]. *)
Definition names (p : Path) : list str := parts p.

(** *** Methods of [Path], on a file tree

    Each returns its result or the exception it raises, and the tree it
    leaves. *)

Definition answer (A : Type) : Type := (exn + A) * filesystem.

(** [p.resolve()] *)
Definition resolve (p : Path) (fs : filesystem) : answer Path :=
  match realpath fs (names p) with
  | Some l => (inr {| absolute := true; parts := l |}, fs)
  | None =>
      (inl {| cls := RuntimeError;
              message := u "Symlink loop from '" ++ path_str p ++ u "'" |},
       fs)
  end.

Definition stat_test (test : node -> bool) (p : Path) (fs : filesystem)
    : answer bool :=
  match k_stat fs (names p) with
  | inr n => (inr (test n), fs)
  | inl e => if ignore_error e then (inr false, fs)
             else (inl (os_error e p), fs)
  end.

(** [p.exists()] *)
Definition exists_ : Path -> filesystem -> answer bool :=
  stat_test (fun _ => true).

(** [p.is_file()] *)
Definition is_file : Path -> filesystem -> answer bool :=
  stat_test (fun n => match n with File _ => true | _ => false end).

(** [p.is_dir()] *)
Definition is_dir : Path -> filesystem -> answer bool :=
  stat_test (fun n => match n with Dir => true | _ => false end).

(** [p.stat().st_size]. The tools ask for it on regular files only; the
    size of another kind of node depends on the file system and is left
    at 0. *)
Definition stat_size (p : Path) (fs : filesystem) : answer N :=
  match k_stat fs (names p) with
  | inr (File d) => (inr (N.of_nat (length d)), fs)
  | inr _ => (inr 0, fs)
  | inl e => (inl (os_error e p), fs)
  end.

(** [p.read_text(encoding="utf-8")]. The text of a codec error is cut
    after its first words; Python goes on with the position and the
    reason, which no property below looks at. *)
Definition read_text (p : Path) (fs : filesystem) : answer str :=
  match k_read fs (names p) with
  | inr d =>
      match decode d with
      | Some s => (inr (universal_newlines s), fs)
      | None =>
          (inl {| cls := UnicodeDecodeError;
                  message := u "'utf-8' codec can't decode bytes" |}, fs)
      end
  | inl e => (inl (os_error e p), fs)
  end.

(** [p.write_text(data, encoding="utf-8")]: the file is opened, and so
    emptied, before the text is encoded. *)
Definition write_text (p : Path) (data : str) (fs : filesystem)
    : answer N :=
  match k_open_trunc fs (names p) with
  | inr (l, fs1) =>
      match encode data with
      | Some b => (inr (len data), <[l := File b]> fs1)
      | None =>
          (inl {| cls := UnicodeEncodeError;
                  message := u "'utf-8' codec can't encode characters" |},
           fs1)
      end
  | inl e => (inl (os_error e p), fs)
  end.

(** One [os.mkdir(p)] with the [except OSError] clause of
    [Path.mkdir(exist_ok=True)]. *)
Definition mkdir_exist_ok (p : Path) (e : errno) (fs : filesystem)
    : answer unit :=
  match is_dir p fs with
  | (inr true, fs') => (inr (), fs')
  | (inr false, fs') => (inl (os_error e p), fs')
  | (inl x, fs') => (inl x, fs')
  end.

(** [p.mkdir(parents=True, exist_ok=True)], [p] given by its anchor and
    its parts in reverse, so that the parent is a sub-list. *)
Fixpoint mkdir_parents_rev (a : bool) (rparts : list str)
    (fs : filesystem) : answer unit :=
  let p := {| absolute := a; parts := rev rparts |} in
  match k_mkdir fs (names p) with
  | inr fs' => (inr (), fs')
  | inl ENOENT =>
      match rparts with
      | [] => (inl (os_error ENOENT p), fs)
      | _ :: rparent =>
          match mkdir_parents_rev a rparent fs with
          | (inr _, fs1) =>
              match k_mkdir fs1 (names p) with
              | inr fs2 => (inr (), fs2)
              | inl ENOENT => (inl (os_error ENOENT p), fs1)
              | inl e => mkdir_exist_ok p e fs1
              end
          | (inl x, fs1) => (inl x, fs1)
          end
      end
  | inl e => mkdir_exist_ok p e fs
  end.

Definition mkdir_parents (p : Path) : filesystem -> answer unit :=
  mkdir_parents_rev (absolute p) (rev (parts p)).

(** [list(p.iterdir())] *)
Definition iterdir (p : Path) (fs : filesystem) : answer (list Path) :=
  match k_listdir fs (names p) with
  | inr l =>
      (inr ((fun c => {| absolute := absolute p; parts := parts p ++ [c] |})
              <$> l), fs)
  | inl e => (inl (os_error e p), fs)
  end.

End Pathlib.
Export Pathlib.

(** ** The world the tools run in *)

Module World.

Inductive opname :=
  | OpResolve | OpExists | OpIsFile | OpIsDir | OpStat
  | OpReadText | OpMkdir | OpWriteText | OpIterdir.

Inductive level := INFO | ERROR.

(** What a call leaves in the journal: a file-system operation on a path,
    or a record handed to the logger. *)
Inductive event :=
  | Call (op : opname) (p : Path)
  | Logged (lv : level) (msg : str).

(** The file tree, the faults still to come (one entry per file-system
    operation, [Some e] making it fail with [e]), and the journal, newest
    event first. *)
Record world := {
  files : filesystem;
  faults : list (option errno);
  journal : list event
}.

(** A world in which nothing fails from outside. *)
Definition quiet (fs : filesystem) : world :=
  {| files := fs; faults := []; journal := [] |}.

(** A computation: a result or a raised exception, and the world after. *)
Definition M (A : Type) : Type := world -> (exn + A) * world.

Definition ret {A} (a : A) : M A := fun w => (inr a, w).

Definition bind {A B} (m : M A) (k : A -> M B) : M B :=
  fun w =>
    match m w with
    | (inr a, w') => k a w'
    | (inl e, w') => (inl e, w')
    end.

(** [try: body except Exception as e: handler(e)] *)
Definition try_except {A} (body : M A) (handler : exn -> M A) : M A :=
  fun w =>
    match body w with
    | (inl e, w') =>
        if is_Exception (cls e) then handler e w' else (inl e, w')
    | r => r
    end.

(** A method of [Path] run in the world: the next fault, if there is one,
    replaces it. *)
Definition prim {A} (op : opname) (p : Path)
    (f : filesystem -> answer A) : M A :=
  fun w =>
    let j := Call op p :: journal w in
    match faults w with
    | Some e :: fl =>
        (inl (os_error e p), {| files := files w; faults := fl; journal := j |})
    | fl =>
        let '(r, fs') := f (files w) in
        (r, {| files := fs'; faults := tail fl; journal := j |})
    end.

(** [_LOGGER.info(msg)], [_LOGGER.error(msg)] *)
Definition log (lv : level) (msg : str) : M unit :=
  fun w =>
    (inr (), {| files := files w; faults := faults w;
                journal := Logged lv msg :: journal w |}).

End World.
Export World.

Declare Scope tool_scope.
Notation "'let*' x ':=' m 'in' k" := (bind m (fun x => k))
  (at level 10, x name, m at level 100, k at level 200) : tool_scope.

(** ** The tools *)

Module Tools.

Local Open Scope tool_scope.

(** The values the tools put in their results. *)
#[warnings="-register-all"]
Inductive value :=
  | VBool (b : bool)
  | VStr (s : str)
  | VInt (n : N)
  | VList (l : list (list (str * value))).

(** A [dict] with [str] keys, in insertion order. *)
Definition dict := list (str * value).

(** [d[k]] when [k] is a key of [d]. *)
Fixpoint get (k : str) (d : dict) : option value :=
  match d with
  | [] => None
  | (k', v) :: r => if decide (k = k') then Some v else get k r
  end.

Definition CONFIG_BASE : Path := mkPath (u "/config").

Definition failure (msg : str) : dict :=
  [(u "success", VBool false); (u "error", VStr msg)].

Definition access_denied : str :=
  u "Access denied: Path outside /config directory".

Definition read_file (path : str) : M dict :=
  try_except
    (let clean_path := mkPath (lstrip_slash path) in
     let full_path := joinpath CONFIG_BASE clean_path in
     let* resolved := prim OpResolve full_path (resolve full_path) in
     let* base := prim OpResolve CONFIG_BASE (resolve CONFIG_BASE) in
     if negb (startswith (path_str resolved) (path_str base)) then
       ret (failure access_denied)
     else
     let* ex := prim OpExists full_path (exists_ full_path) in
     if negb ex then ret (failure (u "File not found: " ++ path)) else
     let* isf := prim OpIsFile full_path (is_file full_path) in
     if negb isf then ret (failure (u "Not a file: " ++ path)) else
     let* content := prim OpReadText full_path (read_text full_path) in
     let* _ := log INFO (u "Read file: " ++ path_str full_path) in
     ret [(u "success", VBool true);
          (u "content", VStr content);
          (u "path", VStr (path_str clean_path));
          (u "size", VInt (len content))])
    (fun e =>
       let* _ := log ERROR (u "Error reading file " ++ path ++ u ": "
                            ++ message e) in
       ret (failure (message e))).

Definition write_file (path content : str) : M dict :=
  try_except
    (let clean_path := mkPath (lstrip_slash path) in
     let full_path := joinpath CONFIG_BASE clean_path in
     let* resolved := prim OpResolve full_path (resolve full_path) in
     let* base := prim OpResolve CONFIG_BASE (resolve CONFIG_BASE) in
     if negb (startswith (path_str resolved) (path_str base)) then
       ret (failure access_denied)
     else
     let* _ := prim OpMkdir (path_parent full_path)
                 (mkdir_parents (path_parent full_path)) in
     let* _ := prim OpWriteText full_path (write_text full_path content) in
     let* _ := log INFO (u "Wrote file: " ++ path_str full_path) in
     ret [(u "success", VBool true);
          (u "path", VStr (path_str clean_path));
          (u "size", VInt (len content))])
    (fun e =>
       let* _ := log ERROR (u "Error writing file " ++ path ++ u ": "
                            ++ message e) in
       ret (failure (message e))).

(** The body of the [for item in sorted(...)] loop of [list_directory],
    run over [items] with the [entries] collected so far. *)
Fixpoint list_entries (items : list Path) (entries : list dict)
    : M (list dict) :=
  match items with
  | [] => ret entries
  | item :: rest =>
      let* isd := prim OpIsDir item (is_dir item) in
      let entry :=
        [(u "name", VStr (path_name item));
         (u "type", VStr (if isd then u "directory" else u "file"))] in
      let* isf := prim OpIsFile item (is_file item) in
      let* entry :=
        (if isf then
           let* sz := prim OpStat item (stat_size item) in
           ret (entry ++ [(u "size", VInt sz)])
         else ret entry) in
      list_entries rest (entries ++ [entry])
  end.

Definition list_directory (path : str) : M dict :=
  try_except
    (let clean_path :=
       match path with
       | [] => mkPath (u ".")
       | _ => mkPath (lstrip_slash path)
       end in
     let full_path := joinpath CONFIG_BASE clean_path in
     let* resolved := prim OpResolve full_path (resolve full_path) in
     let* base := prim OpResolve CONFIG_BASE (resolve CONFIG_BASE) in
     if negb (startswith (path_str resolved) (path_str base)) then
       ret (failure access_denied)
     else
     let* ex := prim OpExists full_path (exists_ full_path) in
     if negb ex then ret (failure (u "Directory not found: " ++ path)) else
     let* isd := prim OpIsDir full_path (is_dir full_path) in
     if negb isd then ret (failure (u "Not a directory: " ++ path)) else
     let* items := prim OpIterdir full_path (iterdir full_path) in
     let* entries := list_entries (sorted items) [] in
     let* _ := log INFO (u "Listed directory: " ++ path_str full_path
                         ++ u " (" ++ u (pretty (len entries))
                         ++ u " entries)") in
     ret [(u "success", VBool true);
          (u "path", VStr (if decide (path_str clean_path = dot) then []
                           else path_str clean_path));
          (u "entries", VList entries);
          (u "count", VInt (len entries))])
    (fun e =>
       let* _ := log ERROR (u "Error listing directory " ++ path ++ u ": "
                            ++ message e) in
       ret (failure (message e))).

End Tools.
Export Tools.

(** ** Vocabulary of the statements *)

Module Spec.

Definition config : str := u "config".

(** [clean_path] and [full_path] as the three tools compute them.
    [list_directory] takes [Path(".")] for an empty argument, which has
    the parts of [Path("")]. *)
Definition clean_path (path : str) : Path := mkPath (lstrip_slash path).
Definition full_path (path : str) : Path :=
  joinpath CONFIG_BASE (clean_path path).

(** The outcome of the security check on a tree: [None] when a
    [resolve()] raises. *)
Definition containment_check (fs : filesystem) (p : Path) : option bool :=
  match realpath fs (names p), realpath fs (names CONFIG_BASE) with
  | Some r, Some b =>
      Some (startswith (path_str {| absolute := true; parts := r |})
                       (path_str {| absolute := true; parts := b |}))
  | _, _ => None
  end.

(** A location is inside the root when the root's names lead to it. *)
Definition inside (root l : loc) : Prop := root `prefix_of` l.

Definition succeeded (d : dict) : Prop :=
  get (u "success") d = Some (VBool true).

(** The operations a run performed, oldest first. *)
Definition calls (w : world) : list (opname * Path) :=
  rev (omap (fun ev => match ev with
                       | Call op p => Some (op, p)
                       | Logged _ _ => None
                       end) (journal w)).

Definition touches_data (op : opname) : bool :=
  match op with
  | OpReadText | OpMkdir | OpWriteText | OpIterdir => true
  | _ => false
  end.

(** A name that can stand in a location. *)
Definition proper (c : str) : Prop := c <> [] /\ c <> dot /\ c <> dotdot.

Global Instance proper_dec (c : str) : Decision (proper c).
Proof. unfold proper. apply _. Defined.

(** A tree free of orphans: whatever exists lies in a directory. *)
Definition wf (fs : filesystem) : Prop :=
  forall (k : list str) (c : str) (n : node),
    fs !! (k ++ [c]) = Some n -> k = [] \/ fs !! k = Some Dir.

(** From [cur] down, the names [ds] are directories, one inside the
    other; the names [ms] are free, one below the other. *)
Fixpoint dirs_along (fs : filesystem) (cur : loc) (ds : list str) : Prop :=
  match ds with
  | [] => True
  | d :: ds' => fs !! (cur ++ [d]) = Some Dir /\ dirs_along fs (cur ++ [d]) ds'
  end.

Fixpoint free_along (fs : filesystem) (cur : loc) (ms : list str) : Prop :=
  match ms with
  | [] => True
  | m :: ms' => fs !! (cur ++ [m]) = None /\ free_along fs (cur ++ [m]) ms'
  end.

(** The tree with the directories [ms] made below [cur], one inside the
    other. *)
Fixpoint with_dirs (cur : loc) (ms : list str) (fs : filesystem)
    : filesystem :=
  match ms with
  | [] => fs
  | m :: ms' => with_dirs (cur ++ [m]) ms' (<[cur ++ [m] := Dir]> fs)
  end.

(** The answer of an [lstat] that did not find a symbolic link. *)
Definition not_link (r : errno + node) : Prop :=
  forall t, r <> inr (Symlink t).

(** Two trees with the same symbolic links. *)
Definition same_links (fs fs' : filesystem) : Prop :=
  forall (k : list str) (t : str),
    fs !! k = Some (Symlink t) <-> fs' !! k = Some (Symlink t).

(** A location none of whose prefixes is a symbolic link. *)
Definition canon (fs : filesystem) (path : list str) : Prop :=
  Forall proper path /\
  forall (i : nat) (t : str),
    (i < length path)%nat -> fs !! take (S i) path <> Some (Symlink t).

(** The target an [lstat] answer shows, and the one stored at a location. *)
Definition link_of (r : errno + node) : option str :=
  match r with
  | inr (Symlink t) => Some t
  | _ => None
  end.

Definition entry_link (fs : filesystem) (l : list str) : option str :=
  match fs !! l with
  | Some (Symlink t) => Some t
  | _ => None
  end.

(** [fs'] is a tree with the links of [fs] and at least its size. *)
Definition extends (fs fs' : filesystem) : Prop :=
  wf fs' /\ same_links fs fs' /\ (size fs <= size fs')%nat.

(** The root, or a directory of the tree. *)
Definition good_dir (fs : filesystem) (cur : list str) : Prop :=
  cur = [] \/ fs !! cur = Some Dir.

(** The success result of [write_file]. *)
Definition written (path content : str) : dict :=
  [(u "success", VBool true);
   (u "path", VStr (path_str (clean_path path)));
   (u "size", VInt (len content))].

(** [wf], as a test that computes. *)
Definition wfb (fs : filesystem) : bool :=
  forallb (fun kn => match removelast kn.1 with
                     | [] => true
                     | par => bool_decide (fs !! par = Some Dir)
                     end) (map_to_list fs).

(** [p / c] for a name [c]. *)
Definition child_path (p : Path) (c : str) : Path :=
  {| absolute := absolute p; parts := parts p ++ [c] |}.

(** The entry [list_directory] builds for [item], read off the tree. *)
Definition entry_of (fs : filesystem) (item : Path) : dict :=
  [(u "name", VStr (path_name item));
   (u "type", VStr (match k_stat fs (names item) with
                    | inr Dir => u "directory"
                    | _ => u "file"
                    end))]
  ++ match k_stat fs (names item) with
     | inr (File d) => [(u "size", VInt (len d))]
     | _ => []
     end.

(** The success result of [list_directory] for a request and its
    entries. *)
Definition listing (path : str) (entries : list dict) : dict :=
  [(u "success", VBool true);
   (u "path", VStr (if decide (path_str (clean_path path) = dot) then []
                    else path_str (clean_path path)));
   (u "entries", VList entries);
   (u "count", VInt (len entries))].

(** [a < b] and [a <= b] on [str], as propositions. *)
Definition str_lt (a b : str) : Prop := Str.ltb a b = true.
Definition str_le (a b : str) : Prop := Str.ltb b a = false.

(** What a run may end in: every raised exception satisfies [E], every
    returned value [P]. [sound] says the same of a [Path] method. *)
Definition safe {A : Type} (E : exn -> Prop) (P : A -> Prop) (m : M A)
    : Prop :=
  forall w, match (m w).1 with inl e => E e | inr a => P a end.

Definition sound {A : Type} (E : exn -> Prop) (P : A -> Prop)
    (f : filesystem -> answer A) : Prop :=
  forall fs, match (f fs).1 with inl e => E e | inr a => P a end.

Definition any {A : Type} (a : A) : Prop := True.

(** The exceptions [except Exception] catches. *)
Definition caught (e : exn) : Prop := is_Exception (cls e) = true.

(** A result other than the denial, and an exception whose text is not
    the denial either. *)
Definition not_denied (d : dict) : Prop := d <> failure access_denied.
Definition caught_other (e : exn) : Prop :=
  caught e /\ message e <> access_denied.

(** The two shapes of a result: a success, or a failure with its reason. *)
Definition result_shape (d : dict) : Prop :=
  succeeded d \/ exists msg, d = failure msg.

(** [d["path"] = v] on a result that has the field. *)
Definition set_path (v : str) (d : dict) : dict :=
  (fun kx => if decide (kx.1 = u "path") then (kx.1, VStr v) else kx) <$> d.

(** Two runs that agree but for the path they report: the same tree
    afterwards, and if either succeeded the result of the second is that
    of the first with its path field set to [v]. *)
Definition same_but_path (v : str) (rq rp : (exn + dict) * world) : Prop :=
  files rp.2 = files rq.2 /\
  exists dq dp,
    rq.1 = inr dq /\ rp.1 = inr dp /\
    (succeeded dq \/ succeeded dp -> dp = set_path v dq).

(** Two answers of the same kind: the same value, or an exception each. *)
Definition same_outcome {A : Type} (x y : exn + A) : Prop :=
  match x, y with
  | inr a, inr b => a = b
  | inl _, inl _ => True
  | _, _ => False
  end.

End Spec.
Export Spec.

(** ** Worked examples *)

Module Examples.

(** [/config] with a file, a directory holding a file, and a socket; next
    to it [/config2] with a file. *)
Definition fs0 : filesystem :=
  <[ [config] := Dir ]> (
  <[ [config; u "notes.txt"] := File (u "hello") ]> (
  <[ [config; u ".storage"] := Dir ]> (
  <[ [config; u ".storage"; u "core"] := File (u "{}") ]> (
  <[ [config; u "ctl.sock"] := Socket ]> (
  <[ [u "config2"] := Dir ]> (
  <[ [u "config2"; u "secret"] := File (u "s3cr3t") ]> ∅)))))).

(** What [list_directory("")] returns on [fs0]. *)
Definition sock_entry : dict :=
  [(u "name", VStr (u "ctl.sock")); (u "type", VStr (u "file"))].

Definition root_listing : dict :=
  [(u "success", VBool true);
   (u "path", VStr []);
   (u "entries",
    VList [[(u "name", VStr (u ".storage"));
            (u "type", VStr (u "directory"))];
           sock_entry;
           [(u "name", VStr (u "notes.txt")); (u "type", VStr (u "file"));
            (u "size", VInt 5)]]);
   (u "count", VInt 3)].

End Examples.
Import Examples.

(** ** Further vocabulary *)

Module Terms.

(** The location a walk ended at. *)
Definition walked_loc (r : walked) : loc :=
  match r with
  | At l _ => l
  | Absent l => l
  end.

(** A location a walk can stand at: proper names, each a directory in the
    one before. *)
Definition chain (fs : filesystem) (l : list str) : Prop :=
  Forall proper l /\ dirs_along fs [] l.

(** The links in [seen] are being resolved: none has a target that a walk
    following fewer than [F] links gets through. *)
Definition unresolved (fs : filesystem) (F : nat) (seen : list (list str))
    : Prop :=
  forall (L : list str) (t : str) (k : nat) (r : walked),
    L ∈ seen -> fs !! L = Some (Symlink t) -> (k < F)%nat ->
    walk k fs true (if isabs t then [] else parent L) (split_slash t)
    <> inr r.

(** [seen] holds links of the tree, each once, and [g] more fit in. *)
Definition room (fs : filesystem) (g : nat) (seen : list (list str))
    : Prop :=
  NoDup seen /\
  (forall L, L ∈ seen -> exists t, fs !! L = Some (Symlink t)) /\
  (size fs < g + length seen)%nat.

(** The success result of [read_file]. *)
Definition was_read (path content : str) : dict :=
  [(u "success", VBool true);
   (u "content", VStr content);
   (u "path", VStr (path_str (clean_path path)));
   (u "size", VInt (len content))].

(** The security check let [l] through: [l] is where the full path of the
    request resolves, and its string starts with that of the resolved
    root. *)
Definition passed (fs : filesystem) (path : str) (l : list str) : Prop :=
  realpath fs (names (full_path path)) = Some l /\
  exists b, realpath fs (names CONFIG_BASE) = Some b /\
    startswith (path_str {| absolute := true; parts := l |})
               (path_str {| absolute := true; parts := b |}) = true.

(** [fs'] is [fs] with directories added at free names. *)
Definition grown (fs fs' : filesystem) : Prop :=
  forall (k : list str),
    fs' !! k = fs !! k \/ fs !! k = None /\ fs' !! k = Some Dir.

(** What the security check comes to when [/config] is a directory: the
    first name of the resolved location starts with the letters of
    ["config"]. *)
Definition first_name_fits (l : list str) : bool :=
  match l with
  | c :: _ => startswith c config
  | [] => false
  end.

(** A relation between the world before and the world after that every
    run of [m] keeps. *)
Definition preserves {A : Type} (P : world -> world -> Prop) (m : M A)
    : Prop :=
  forall w, P w (m w).2.

(** A method of [Path] that only looks. *)
Definition looks {A : Type} (f : filesystem -> answer A) : Prop :=
  forall fs, (f fs).2 = fs.

(** The tree is as before. *)
Definition same_files (w w' : world) : Prop := files w' = files w.

(** No fault was pending, and none is. *)
Definition still_calm (w w' : world) : Prop :=
  faults w = [] -> faults w' = [].

(** The records handed to the logger, oldest first. *)
Definition logged (w : world) : list (level * str) :=
  rev (omap (fun ev => match ev with
                       | Logged lv msg => Some (lv, msg)
                       | Call _ _ => None
                       end) (journal w)).

(** Nothing was logged. *)
Definition silent (w w' : world) : Prop := logged w' = logged w.

(** Two worlds that differ in their journals at most. *)
Definition same_state (w1 w2 : world) : Prop :=
  files w1 = files w2 /\ faults w1 = faults w2.

(** A computation whose outcome does not depend on the journal. *)
Definition journal_blind {A : Type} (m : M A) : Prop :=
  forall w1 w2, same_state w1 w2 ->
    (m w1).1 = (m w2).1 /\ same_state (m w1).2 (m w2).2.

(** The entry of a regular file of [n] bytes in a listing. *)
Definition file_entry (name : str) (n : N) : dict :=
  [(u "name", VStr name); (u "type", VStr (u "file")); (u "size", VInt n)].

(** Every run of [m] adds records [new] to the log that stand in relation
    [R] to its outcome. *)
Definition logs {A : Type} (m : M A)
    (R : exn + A -> list (level * str) -> Prop) : Prop :=
  forall w, exists new,
    logged (m w).2 = logged w ++ new /\ R (m w).1 new.

(** What a tool logs, given the text [info d] for a success [d] and the
    [prefix] of its error records: one INFO record for a success, nothing
    or one ERROR record with the returned text for a failure. *)
Definition log_discipline (info : dict -> str) (prefix : str)
    (r : exn + dict) (new : list (level * str)) : Prop :=
  match r with
  | inr d =>
      succeeded d /\ new = [(INFO, info d)]
      \/ exists msg, d = failure msg /\
           (new = [] \/ new = [(ERROR, prefix ++ msg)])
  | inl _ => new = []
  end.

(** The text of the INFO record of a listing [d] of the directory [p]. *)
Definition listed_info (p : Path) (d : dict) : str :=
  match get (u "count") d with
  | Some (VInt n) =>
      u "Listed directory: " ++ path_str p
      ++ u " (" ++ u (pretty n) ++ u " entries)"
  | _ => []
  end.

(** [fs'] is [fs] but for the regular file at [l], put there at a free
    name or over a regular file. *)
Definition one_file_put (l : list str) (fs fs' : filesystem) : Prop :=
  (fs !! l = None \/ exists d0, fs !! l = Some (File d0)) /\
  exists b, fs' = <[l := File b]> fs.

(** What a [write_file] may do to a tree: add directories at free names,
    then put at most one regular file. *)
Definition write_effect (fs fs' : filesystem) : Prop :=
  exists fs1, grown fs fs1 /\ (fs' = fs1 \/ exists l, one_file_put l fs1 fs').

(** Every run of [m] performs operations [new] that stand in relation [R]
    to its outcome. *)
Definition performs {A : Type} (m : M A)
    (R : exn + A -> list (opname * Path) -> Prop) : Prop :=
  forall w, exists new,
    calls (m w).2 = calls w ++ new /\ R (m w).1 new.

(** The operations of a tool follow the plan [L]: a run performs a
    prefix of it, and all of it when it succeeds. *)
Definition follows_plan (L : list (opname * Path)) (r : exn + dict)
    (new : list (opname * Path)) : Prop :=
  new `prefix_of` L /\
  match r with
  | inr d => succeeded d -> new = L
  | inl _ => True
  end.

(** The same for a listing, which goes on with the children: after the
    plan [L] come only [is_dir], [is_file] and [stat]. *)
Definition follows_plan_then_looks (L : list (opname * Path))
    (r : exn + dict) (new : list (opname * Path)) : Prop :=
  new `prefix_of` L /\
  match r with
  | inr d => ~ succeeded d
  | inl _ => True
  end
  \/ exists more,
       new = L ++ more /\
       Forall (fun c => c.1 = OpIsDir \/ c.1 = OpIsFile \/ c.1 = OpStat) more.

(** What the body of a tool logs before its handler runs. *)
Definition body_logs (info : dict -> str) (r : exn + dict)
    (new : list (level * str)) : Prop :=
  match r with
  | inr d => succeeded d /\ new = [(INFO, info d)]
             \/ exists msg, d = failure msg /\ new = []
  | inl _ => new = []
  end.

End Terms.
Export Terms.

(** ** A tree with symbolic links *)

Module Links.

(** A tree with a symbolic link in the root that leads out of it, and one
    that stays inside. *)
Definition fs_links : filesystem :=
  <[ [config] := Dir ]> (
  <[ [config; u "notes.txt"] := File (u "hello") ]> (
  <[ [config; u "out"] := Symlink (u "/etc") ]> (
  <[ [config; u "in"] := Symlink (u "notes.txt") ]> (
  <[ [u "etc"] := Dir ]> (
  <[ [u "etc"; u "passwd"] := File (u "root") ]> ∅))))).

End Links.
Import Links.

(** * Properties *)

(** ** Running a tool in a quiet world *)

Section Running.

Lemma prim_quiet {A : Type} (op : opname) (p : Path)
    (f : filesystem -> answer A) (fs : filesystem) (j : list event) :
  prim op p f {| files := fs; faults := []; journal := j |} =
  ((f fs).1,
   {| files := (f fs).2; faults := []; journal := Call op p :: j |}).
Proof. unfold prim; simpl. by destruct (f fs). Qed.

Lemma bind_prim_quiet {A B : Type} (op : opname) (p : Path)
    (f : filesystem -> answer A) (k : A -> M B)
    (fs : filesystem) (j : list event) :
  bind (prim op p f) k {| files := fs; faults := []; journal := j |} =
  match (f fs).1 with
  | inr a =>
      k a {| files := (f fs).2; faults := []; journal := Call op p :: j |}
  | inl e =>
      (inl e,
       {| files := (f fs).2; faults := []; journal := Call op p :: j |})
  end.
Proof. unfold bind. rewrite prim_quiet. by destruct (f fs).1. Qed.

Lemma run_pair {A : Type} (r : (exn + A) * world) (a : A) :
  r.1 = inr a -> r = (inr a, r.2).
Proof. intros <-. apply surjective_pairing. Qed.

Lemma list_clean (path : str) :
  match path with
  | [] => mkPath (u ".")
  | _ => mkPath (lstrip_slash path)
  end = clean_path path.
Proof. by destruct path. Qed.

Lemma startswith_refl (s : str) : startswith s s = true.
Proof.
  induction s as [|c s IH]; simpl; [done|].
  by rewrite bool_decide_eq_true_2.
Qed.

Lemma resolve_some (fs : filesystem) (p : Path) (l : loc) :
  realpath fs (names p) = Some l ->
  resolve p fs = (inr {| absolute := true; parts := l |}, fs).
Proof. unfold resolve. by intros ->. Qed.

(** The walk fails only with the errors [exists()] and its kin swallow. *)
Lemma walk_errno (fuel : nat) (fs : filesystem) (b : bool) (cur : loc)
    (ns : list str) (e : errno) :
  walk fuel fs b cur ns = inl e -> ignore_error e = true.
Proof.
  revert cur ns. induction fuel as [|f IHf]; intros cur ns; revert cur;
    induction ns as [|c rest IH]; intros cur; simpl; try done.
  all: repeat case_decide; eauto.
  all: destruct (fs !! (cur ++ [c])) as [[]|]; eauto.
  all: repeat match goal with
         | |- context [if ?b then _ else _] => destruct b
         end; eauto; try done.
  all: intros [= <-]; done.
Qed.

Lemma stat_test_quiet (t : node -> bool) (p : Path) (fs : filesystem) :
  stat_test t p fs =
  (inr (match k_stat fs (names p) with inl _ => false | inr n => t n end),
   fs).
Proof.
  unfold stat_test. destruct (k_stat _ _) as [e|n] eqn:Hs; [|done].
  unfold k_stat in Hs.
  assert (ignore_error e = true) as ->; [|done].
  destruct (walk _ _ _ _ _) as [e'|[]] eqn:Hw; simplify_eq;
    eauto using walk_errno.
Qed.

End Running.

(** ** Exceptions stay inside the tools *)

Section Safe.

Context (E : exn -> Prop).

Lemma safe_ret {A : Type} (P : A -> Prop) (a : A) : P a -> safe E P (ret a).
Proof. by intros H w. Qed.

Lemma safe_bind {A B : Type} (Q : A -> Prop) (P : B -> Prop)
    (m : M A) (k : A -> M B) :
  safe E Q m -> (forall a, Q a -> safe E P (k a)) -> safe E P (bind m k).
Proof.
  intros Hm Hk w. unfold bind. specialize (Hm w).
  destruct (m w) as [[e|a] w']; simpl in *; [done|]. by apply Hk.
Qed.

Lemma safe_log {B : Type} (P : B -> Prop) lv msg (k : unit -> M B) :
  safe E P (k ()) -> safe E P (bind (log lv msg) k).
Proof. intros Hk w. unfold bind, log. apply Hk. Qed.

Lemma safe_prim {A : Type} (Q : A -> Prop) (op : opname) (p : Path)
    (f : filesystem -> answer A) :
  (forall e, E (os_error e p)) -> sound E Q f -> safe E Q (prim op p f).
Proof.
  intros He Hf w. unfold prim.
  destruct (faults w) as [|[e|] fl]; simpl; try apply He.
  all: specialize (Hf (files w)); by destruct (f (files w)).
Qed.

Context (HE_os : forall e p, E (os_error e p)).
Context (HE_loop : forall s,
  E {| cls := RuntimeError; message := u "Symlink loop from '" ++ s |}).
Context (HE_dec :
  E {| cls := UnicodeDecodeError;
       message := u "'utf-8' codec can't decode bytes" |}).
Context (HE_enc :
  E {| cls := UnicodeEncodeError;
       message := u "'utf-8' codec can't encode characters" |}).

Lemma sound_resolve p : sound E any (resolve p).
Proof using HE_loop.
  intros fs. unfold resolve. destruct (realpath _ _); simpl; [done|].
  apply HE_loop.
Qed.

Lemma sound_stat_test t p : sound E any (stat_test t p).
Proof using HE_os.
  intros fs. unfold stat_test. destruct (k_stat _ _); simpl; [|done].
  destruct (ignore_error _); simpl; [done|]. apply HE_os.
Qed.

Lemma sound_stat_size p : sound E any (stat_size p).
Proof using HE_os.
  intros fs. unfold stat_size.
  destruct (k_stat _ _) as [|[]]; simpl; try done.
Qed.

Lemma sound_read_text p : sound E any (read_text p).
Proof using HE_os HE_dec.
  intros fs. unfold read_text.
  destruct (k_read _ _); simpl; [apply HE_os|]. by destruct (decode _).
Qed.

Lemma sound_write_text p c : sound E any (write_text p c).
Proof using HE_os HE_enc.
  intros fs. unfold write_text.
  destruct (k_open_trunc _ _) as [|[]]; simpl; [apply HE_os|].
  by destruct (encode _).
Qed.

Lemma sound_mkdir_exist_ok p e : sound E any (mkdir_exist_ok p e).
Proof using HE_os.
  intros fs. unfold mkdir_exist_ok.
  pose proof (sound_stat_test
    (fun n => match n with Dir => true | _ => false end) p fs) as H.
  fold (is_dir p) in H.
  destruct (is_dir p fs) as [[x|[]] fs']; simpl in *; try done;
    try apply HE_os.
Qed.

Lemma sound_mkdir_parents_rev a rp : sound E any (mkdir_parents_rev a rp).
Proof using HE_os.
  induction rp as [|c rp IH]; intros fs; cbn [mkdir_parents_rev].
  - destruct (k_mkdir fs _) as [[]|]; simpl; try done;
      try apply sound_mkdir_exist_ok; try apply HE_os.
  - destruct (k_mkdir fs _) as [[]|]; simpl; try done;
      try apply sound_mkdir_exist_ok.
    specialize (IH fs).
    destruct (mkdir_parents_rev a rp fs) as [[x|[]] fs1]; simpl in *;
      [done|].
    destruct (k_mkdir fs1 _) as [[]|]; simpl; try done;
      try apply sound_mkdir_exist_ok; try apply HE_os.
Qed.

Lemma sound_iterdir p : sound E any (iterdir p).
Proof using HE_os.
  intros fs. unfold iterdir.
  destruct (k_listdir _ _); simpl; [apply HE_os|done].
Qed.

Lemma safe_list_entries items entries :
  safe E any (list_entries items entries).
Proof using HE_os.
  revert entries. induction items as [|item rest IH]; intros entries; simpl.
  { by apply safe_ret. }
  eapply safe_bind; [apply safe_prim; [auto|apply sound_stat_test]|].
  intros isd _.
  eapply safe_bind; [apply safe_prim; [auto|apply sound_stat_test]|].
  intros isf _.
  eapply safe_bind; [|intros; apply IH].
  instantiate (1 := any). destruct isf; [|by apply safe_ret].
  eapply safe_bind; [apply safe_prim; [auto|apply sound_stat_size]|].
  intros; by apply safe_ret.
Qed.

End Safe.

Lemma try_except_total {A : Type} (E : exn -> Prop) (P : A -> Prop)
    (body : M A) (handler : exn -> M A) :
  safe E P body ->
  (forall e, E e -> is_Exception (cls e) = true
                    /\ safe (fun _ => False) P (handler e)) ->
  forall w, exists d, (try_except body handler w).1 = inr d /\ P d.
Proof.
  intros Hb Hh w. unfold try_except. specialize (Hb w).
  destruct (body w) as [[e|d] w']; simpl in *; [|eauto].
  destruct (Hh e Hb) as [-> Hs]. specialize (Hs w').
  destruct (handler e w').1; [done|eauto].
Qed.

Ltac safe_step :=
  lazymatch goal with
  | |- safe _ _ (ret _) => apply safe_ret
  | |- safe _ _ (bind (log _ _) _) => apply safe_log
  | |- safe _ _ (bind (prim _ _ _) _) =>
      eapply safe_bind;
      [ apply safe_prim;
        [ intros; auto
        | first [ apply sound_resolve | apply sound_stat_test
                | apply sound_stat_size | apply sound_read_text
                | apply sound_write_text | apply sound_iterdir
                | apply sound_mkdir_parents_rev ]; intros; auto ]
      | intros ? _ ]
  | |- safe _ _ (bind (list_entries _ _) _) =>
      eapply safe_bind; [ apply safe_list_entries; intros; auto | intros ? _ ]
  | |- safe _ _ (if ?b then _ else _) => destruct b
  end.


(** ** Not found and wrong kind *)



(** ** The path a request stands for *)

Lemma names_config_base : names CONFIG_BASE = [config].
Proof. reflexivity. Qed.

Lemma full_path_empty : full_path [] = CONFIG_BASE.
Proof. reflexivity. Qed.

Lemma lstrip_not_abs (s : str) : isabs (lstrip_slash s) = false.
Proof.
  induction s as [|c s IH]; [done|]. simpl. case_decide; [done|].
  unfold isabs. simpl. rewrite bool_decide_eq_false_2; [done|congruence].
Qed.

Lemma lstrip_slashes (n : nat) (s : str) :
  lstrip_slash (replicate n slash ++ s) = lstrip_slash s.
Proof. induction n as [|n IH]; [done|]. by simpl. Qed.

Lemma full_path_parts (path : str) :
  full_path path =
  {| absolute := true; parts := config :: parts (clean_path path) |}.
Proof.
  unfold full_path, joinpath, clean_path, mkPath. cbn [absolute parts].
  by rewrite lstrip_not_abs.
Qed.

Lemma walk_root_dir (fuel : nat) (fs : filesystem) (b : bool) :
  fs !! [config] = Some Dir ->
  walk fuel fs b [] [config] = inr (At [config] Dir).
Proof. intros H. destruct fuel; simpl; by rewrite H. Qed.

Lemma realpath_root_dir (fs : filesystem) :
  fs !! [config] = Some Dir -> realpath fs [config] = Some [config].
Proof.
  intros H. unfold realpath. simpl. unfold k_lstat.
  change ([] ++ [config]) with [config]. by rewrite walk_root_dir.
Qed.

Lemma resolve_files (p : Path) (fs : filesystem) : (resolve p fs).2 = fs.
Proof. unfold resolve. by destruct (realpath _ _). Qed.

(** Two [resolve()] of one path in a row give one answer, faults or not. *)
Lemma safe_same_resolve {B : Type} (E : exn -> Prop) (P : B -> Prop)
    (p : Path) (k : Path -> Path -> M B) :
  (forall e, E (os_error e p)) ->
  sound E any (resolve p) ->
  (forall r, safe E P (k r r)) ->
  safe E P (bind (prim OpResolve p (resolve p))
              (fun r => bind (prim OpResolve p (resolve p))
                          (fun b => k r b))).
Proof.
  intros Hos Hs Hk w. unfold bind at 1. unfold prim at 1.
  specialize (Hs (files w)).
  destruct (faults w) as [|[e|] fl] eqn:Hf; cbn [fst snd]; try apply Hos.
  all: destruct (resolve p (files w)) as [[x|r] fs'] eqn:Hr;
    cbn [fst snd] in *; [done|].
  all: assert (fs' = files w) as ->
    by (by rewrite <- (resolve_files p (files w)), Hr).
  all: unfold bind, prim; cbn [faults files journal tail].
  - rewrite Hr. apply Hk.
  - destruct fl as [|[e|] fl]; cbn [fst snd tail]; try apply Hos;
      rewrite Hr; apply Hk.
Qed.


(** C10. With [/config] a directory, [read_file("")] resolves to the root,
    passes the security check and answers "Not a file: "; it leaves the
    tree as it was and performs two [resolve()], one [exists()] and one
    [is_file()], no read. *)
Theorem read_file_empty_path (fs : filesystem) :
  fs !! [config] = Some Dir ->
  realpath fs (names (full_path [])) = Some [config] /\
  containment_check fs (full_path []) = Some true /\
  (read_file [] (quiet fs)).1 = inr (failure (u "Not a file: ")) /\
  files (read_file [] (quiet fs)).2 = fs /\
  calls (read_file [] (quiet fs)).2 =
    [(OpResolve, CONFIG_BASE); (OpResolve, CONFIG_BASE);
     (OpExists, CONFIG_BASE); (OpIsFile, CONFIG_BASE)].
Proof.
  intros H. pose proof (realpath_root_dir fs H) as Hr.
  rewrite full_path_empty, names_config_base.
  split; [done|]. split.
  { unfold containment_check. rewrite names_config_base, Hr.
    by rewrite startswith_refl. }
  unfold read_file, try_except, quiet.
  change (joinpath CONFIG_BASE (mkPath (lstrip_slash []))) with CONFIG_BASE.
  rewrite !bind_prim_quiet, (resolve_some fs CONFIG_BASE _ Hr).
  cbn [fst snd].
  rewrite !bind_prim_quiet, (resolve_some fs CONFIG_BASE _ Hr).
  cbn [fst snd].
  rewrite startswith_refl. cbn [negb].
  rewrite !bind_prim_quiet. unfold exists_. rewrite stat_test_quiet.
  unfold k_stat. rewrite names_config_base, walk_root_dir by done.
  cbn [fst snd negb].
  rewrite !bind_prim_quiet. unfold is_file. rewrite stat_test_quiet.
  unfold k_stat. rewrite names_config_base, walk_root_dir by done.
  cbn [fst snd negb]. done.
Qed.

Lemma read_file_empty_path_witness :
  fs0 !! [config] = Some Dir /\
  (read_file [] (quiet fs0)).1 = inr (failure (u "Not a file: ")).
Proof.
  split; [by vm_compute|].
  apply (read_file_empty_path fs0). by vm_compute.
Defined.

(** ** The security check compares strings *)

(** When the check fails the tools stop there: the denial is returned, the
    tree is as before, and only the two [resolve()] were performed. *)
Lemma denied_stops_early (fs : filesystem) (path content : str) :
  containment_check fs (full_path path) = Some false ->
  let stopped (r : (exn + dict) * world) :=
    r.1 = inr (failure access_denied) /\ files r.2 = fs /\
    calls r.2 = [(OpResolve, full_path path); (OpResolve, CONFIG_BASE)] in
  stopped (read_file path (quiet fs)) /\
  stopped (write_file path content (quiet fs)) /\
  stopped (list_directory path (quiet fs)).
Proof.
  unfold containment_check.
  destruct (realpath fs (names (full_path path))) as [r|] eqn:Hr; [|done].
  destruct (realpath fs (names CONFIG_BASE)) as [b|] eqn:Hb; [|done].
  intros Hc. apply (inj Some) in Hc.
  apply resolve_some in Hr, Hb.
  unfold read_file, write_file, list_directory, try_except, quiet.
  rewrite list_clean. unfold full_path, clean_path in *.
  rewrite !bind_prim_quiet, Hr. cbn [fst snd].
  rewrite !bind_prim_quiet, Hb. cbn [fst snd]. rewrite Hc. done.
Qed.

(** C1, at the input where the code departs from it. [/config2/secret]
    is outside [/config], yet its name starts with the characters
    ["/config"], and the check is [str.startswith]: the request
    ["../config2/secret"] is served. [read_file] returns the file,
    [write_file] creates a file in [/config2], [list_directory] lists it. *)
Theorem sibling_directory_passes_check :
  realpath fs0 (names (full_path (u "../config2/secret")))
    = Some [u "config2"; u "secret"] /\
  ~ inside [config] [u "config2"; u "secret"] /\
  (read_file (u "../config2/secret") (quiet fs0)).1
    = inr [(u "success", VBool true); (u "content", VStr (u "s3cr3t"));
           (u "path", VStr (u "../config2/secret")); (u "size", VInt 6)] /\
  (write_file (u "../config2/new") (u "x") (quiet fs0)).1
    = inr [(u "success", VBool true);
           (u "path", VStr (u "../config2/new")); (u "size", VInt 1)] /\
  files (write_file (u "../config2/new") (u "x") (quiet fs0)).2
    !! [u "config2"; u "new"] = Some (File (u "x")) /\
  (list_directory (u "../config2") (quiet fs0)).1
    = inr [(u "success", VBool true); (u "path", VStr (u "../config2"));
           (u "entries",
            VList [[(u "name", VStr (u "secret"));
                    (u "type", VStr (u "file")); (u "size", VInt 6)]]);
           (u "count", VInt 1)].
Proof.
  split; [by vm_compute|]. split; [by intros [k [=]]|].
  repeat split; by vm_compute.
Qed.

(** ** Listing a directory *)

Lemma list_entries_quiet (fs : filesystem) (items : list Path) :
  forall (entries : list dict) (j : list event),
  exists j',
    list_entries items entries {| files := fs; faults := []; journal := j |}
    = (inr (entries ++ (entry_of fs <$> items)),
       {| files := fs; faults := []; journal := j' |}).
Proof.
  induction items as [|item rest IH]; intros entries j; simpl.
  { exists j. by rewrite app_nil_r. }
  rewrite bind_prim_quiet. unfold is_dir. rewrite !stat_test_quiet.
  cbn [fst snd].
  rewrite bind_prim_quiet. unfold is_file. rewrite !stat_test_quiet.
  cbn [fst snd]. unfold bind at 1. unfold entry_of.
  destruct (k_stat fs (names item)) as [e|n] eqn:Hs.
  - unfold ret at 1. edestruct IH as [j' ->]. exists j'.
    by rewrite <- app_assoc.
  - destruct n.
    + rewrite bind_prim_quiet. unfold stat_size. rewrite Hs. cbn [fst snd].
      unfold ret at 1. edestruct IH as [j' ->]. exists j'.
      by rewrite <- app_assoc.
    + unfold ret at 1. edestruct IH as [j' ->]. exists j'.
      by rewrite <- app_assoc.
    + unfold ret at 1. edestruct IH as [j' ->]. exists j'.
      by rewrite <- app_assoc.
    + unfold ret at 1. edestruct IH as [j' ->]. exists j'.
      by rewrite <- app_assoc.
Qed.

Lemma failure_not_succeeded (msg : str) : ~ succeeded (failure msg).
Proof. by intros [=]. Qed.

Lemma resolve_quiet (p : Path) (fs : filesystem) :
  resolve p fs =
  (match realpath fs (names p) with
   | Some l => inr {| absolute := true; parts := l |}
   | None => inl {| cls := RuntimeError;
                    message := u "Symlink loop from '" ++ path_str p ++ u "'" |}
   end, fs).
Proof. unfold resolve. by destruct (realpath _ _). Qed.

Ltac fail_branch :=
  cbn [is_Exception cls]; unfold bind, log, ret;
  let H := fresh in
  intros H; apply (f_equal fst) in H; cbn [fst] in H;
  apply (inj inr) in H; subst;
  intros []%failure_not_succeeded.

Lemma list_directory_success (fs : filesystem) (path : str) (d : dict)
    (w' : world) :
  list_directory path (quiet fs) = (inr d, w') -> succeeded d ->
  exists l,
    containment_check fs (full_path path) = Some true /\
    walk MAXSYMLINKS fs true [] (names (full_path path)) = inr (At l Dir) /\
    d = listing path
          (entry_of fs <$>
             sorted (child_path (full_path path) <$> children fs l)) /\
    files w' = fs.
Proof.
  unfold list_directory, try_except, quiet, containment_check.
  rewrite list_clean. fold (clean_path path) . fold (full_path path).
  rewrite bind_prim_quiet, !resolve_quiet. cbn [fst snd].
  destruct (realpath fs (names (full_path path))) as [r|] eqn:Hr;
    [|fail_branch].
  rewrite bind_prim_quiet, !resolve_quiet. cbn [fst snd].
  destruct (realpath fs (names CONFIG_BASE)) as [b|] eqn:Hb;
    [|fail_branch].
  destruct (startswith _ _) eqn:Hc; cbn [negb]; [|fail_branch].
  rewrite bind_prim_quiet. unfold exists_. rewrite !stat_test_quiet. cbn [fst snd].
  unfold k_stat.
  destruct (walk MAXSYMLINKS fs true [] (names (full_path path))) as [e|[l n|l]] eqn:Hw;
    cbn [negb]; try fail_branch.
  rewrite bind_prim_quiet. unfold is_dir. rewrite !stat_test_quiet. cbn [fst snd].
  unfold k_stat. rewrite Hw.
  destruct n; cbn [negb]; try fail_branch.
  rewrite bind_prim_quiet. unfold iterdir, k_listdir. rewrite Hw. cbn [fst snd].
  unfold bind at 1.
  edestruct (list_entries_quiet fs) as [j' ->].
  unfold bind, log, ret. intros [= <- <-] _. exists l. done.
Qed.

(** *** The order of the entries *)

Lemma ltb_cons (x y : N) (a b : str) :
  Str.ltb (x :: a) (y :: b) = (x <? y) || (bool_decide (x = y) && Str.ltb a b).
Proof. done. Qed.

Lemma ltb_irrefl (a : str) : Str.ltb a a = false.
Proof.
  induction a as [|x a IH]; [done|]. rewrite ltb_cons, IH.
  rewrite N.ltb_irrefl. by rewrite andb_false_r.
Qed.

Lemma ltb_asym (a b : str) : Str.ltb a b = true -> Str.ltb b a = false.
Proof.
  revert b. induction a as [|x a IH]; intros [|y b]; try done.
  rewrite !ltb_cons. intros H.
  destruct (N.ltb_spec x y), (N.ltb_spec y x); cbn [orb] in *; try lia;
    repeat case_bool_decide; try lia; cbn [andb] in *; try done; eauto.
Qed.

Lemma ltb_total (a b : str) :
  Str.ltb a b = false -> Str.ltb b a = false -> a = b.
Proof.
  revert b. induction a as [|x a IH]; intros [|y b]; try done.
  rewrite !ltb_cons. intros H1 H2.
  destruct (N.ltb_spec x y), (N.ltb_spec y x); cbn [orb] in *; try done.
  assert (x = y) as -> by lia.
  repeat case_bool_decide; try done. cbn [andb] in *. f_equal. by apply IH.
Qed.

Lemma ltb_trans (a b c : str) :
  Str.ltb a b = true -> Str.ltb b c = true -> Str.ltb a c = true.
Proof.
  revert b c. induction a as [|x a IH]; intros [|y b] [|z c]; try done.
  rewrite !ltb_cons. intros H1 H2.
  destruct (N.ltb_spec x y), (N.ltb_spec y z), (N.ltb_spec x z);
    cbn [orb] in *; try done; try lia;
    repeat case_bool_decide; try lia; cbn [andb] in *; try done; eauto.
Qed.

Global Instance str_le_trans : Transitive str_le.
Proof.
  intros a b c Hab Hbc. unfold str_le in *.
  destruct (Str.ltb c a) eqn:Hca; [|done].
  destruct (Str.ltb a b) eqn:H1.
  - by rewrite (ltb_trans c a b) in Hbc.
  - rewrite (ltb_total a b) in Hca by done. congruence.
Qed.

Lemma parts_ltb_app (pre : list str) (a b : list str) :
  parts_ltb (pre ++ a) (pre ++ b) = parts_ltb a b.
Proof.
  induction pre as [|x pre IH]; [done|]. cbn [app parts_ltb].
  rewrite ltb_irrefl, IH. by case_bool_decide.
Qed.

Lemma path_le_child (p : Path) (a b : str) :
  path_le (child_path p a) (child_path p b) <-> str_le a b.
Proof.
  unfold path_le, path_ltb, cparts, child_path, str_le. cbn [absolute parts].
  rewrite !app_assoc, parts_ltb_app. simpl.
  rewrite !andb_false_r, !orb_false_r. done.
Qed.

Lemma parts_ltb_asym (a b : list str) :
  parts_ltb a b = true -> parts_ltb b a = false.
Proof.
  revert b. induction a as [|x a IH]; intros [|y b]; try done. cbn [parts_ltb].
  intros H. destruct (Str.ltb x y) eqn:Hxy; cbn [orb andb] in *.
  - rewrite (ltb_asym x y) by done. cbn [orb].
    case_bool_decide; [|done]. subst. by rewrite ltb_irrefl in Hxy.
  - case_bool_decide; [|done]. subst. rewrite ltb_irrefl.
    case_bool_decide; [|done]. cbn [orb andb] in *. by apply IH.
Qed.

Global Instance path_le_total : Total path_le.
Proof.
  intros p q. unfold path_le, path_ltb.
  destruct (parts_ltb (cparts q) (cparts p)) eqn:H; [|by left].
  right. by apply parts_ltb_asym.
Qed.

Lemma sorted_children (p : Path) (cs : list str) :
  NoDup cs ->
  exists ns, sorted (child_path p <$> cs) = child_path p <$> ns /\
             ns ≡ₚ cs /\ StronglySorted str_lt ns.
Proof.
  intros Hnd.
  pose proof (merge_sort_Permutation path_le (child_path p <$> cs)) as Hp.
  pose proof (Sorted_merge_sort path_le (child_path p <$> cs)) as Hs.
  fold (sorted (child_path p <$> cs)) in Hp, Hs.
  apply (Permutation_map_inv (child_path p)) in Hp as (ns & Heq & Hperm).
  change (map (child_path p) ns) with (child_path p <$> ns) in Heq.
  exists ns. split; [done|]. split; [by symmetry|].
  rewrite Heq in Hs. clear Heq.
  assert (Hs' : Sorted str_le ns).
  { clear -Hs. induction ns as [|a ns IH]; [constructor|].
    apply Sorted_inv in Hs as [Hs Hhd]. constructor; [by apply IH|].
    destruct ns as [|b ns]; [constructor|].
    apply HdRel_inv in Hhd. constructor. by apply path_le_child in Hhd. }
  apply Sorted_StronglySorted in Hs'; [|apply _].
  assert (Hnd' : NoDup ns) by (by rewrite <- Hperm).
  clear -Hs' Hnd'. induction Hs' as [|a ns Hs IH Hall]; [constructor|].
  apply NoDup_cons in Hnd' as [Hnin Hnd]. constructor; [by apply IH|].
  rewrite Forall_forall in Hall |- *. intros b Hb. specialize (Hall b Hb).
  unfold str_lt, str_le in *.
  destruct (Str.ltb a b) eqn:Hab; [done|].
  rewrite (ltb_total a b) in Hnin by done. done.
Qed.

(** *** The names in a directory *)

Lemma child_of_Some (l k : loc) (c : str) :
  child_of l k = Some c <-> k = l ++ [c].
Proof.
  unfold child_of. split.
  - destruct (last k) as [c'|]; [|done]. case_decide; [|done]. congruence.
  - intros ->. rewrite last_snoc. by rewrite decide_True.
Qed.

Lemma elem_of_children (fs : filesystem) (l : loc) (c : str) :
  c ∈ children fs l <-> is_Some (fs !! (l ++ [c])).
Proof.
  unfold children. rewrite list_elem_of_omap. split.
  - intros ([k n] & Hin & Hc). apply elem_of_map_to_list in Hin.
    apply child_of_Some in Hc. simpl in *. subst. eauto.
  - intros [n Hn]. exists (l ++ [c], n). split.
    + by apply elem_of_map_to_list.
    + by apply child_of_Some.
Qed.

Lemma NoDup_children (fs : filesystem) (l : loc) : NoDup (children fs l).
Proof.
  unfold children. pose proof (NoDup_fst_map_to_list fs) as H.
  induction (map_to_list fs) as [|[k n] xs IH]; simpl in *; [constructor|].
  apply NoDup_cons in H as [Hk Hxs].
  destruct (child_of l k) as [c|] eqn:Hc; [|by apply IH].
  apply NoDup_cons. split; [|by apply IH].
  rewrite list_elem_of_omap. intros ([k' n'] & Hin & Hc').
  apply child_of_Some in Hc, Hc'. simpl in *. subst.
  apply Hk. apply list_elem_of_fmap. by exists (l ++ [c], n').
Qed.

(** *** What a listing holds *)

Lemma listing_characterised (fs : filesystem) (path : str) (d : dict)
    (w' : world) :
  list_directory path (quiet fs) = (inr d, w') -> succeeded d ->
  exists (l : loc) (ns : list str),
    walk MAXSYMLINKS fs true [] (names (full_path path)) = inr (At l Dir) /\
    (forall c, c ∈ ns <-> is_Some (fs !! (l ++ [c]))) /\
    StronglySorted str_lt ns /\
    d = listing path (entry_of fs <$> (child_path (full_path path) <$> ns)) /\
    files w' = fs.
Proof.
  intros Hrun Hok.
  destruct (list_directory_success fs path d w' Hrun Hok)
    as (l & _ & Hw & Hd & Hf).
  destruct (sorted_children (full_path path) (children fs l)
              (NoDup_children fs l)) as (ns & Hs & Hperm & Hsorted).
  exists l, ns. rewrite Hs in Hd. repeat split; try done.
  - intros Hc. apply elem_of_children. by rewrite <- Hperm.
  - intros Hc. rewrite Hperm. by apply elem_of_children.
Qed.

Lemma entry_name (fs : filesystem) (p : Path) (c : str) :
  get (u "name") (entry_of fs (child_path p c)) = Some (VStr c).
Proof.
  unfold entry_of, child_path, path_name. cbn [parts].
  rewrite last_last. reflexivity.
Qed.

Lemma entry_type (fs : filesystem) (item : Path) :
  get (u "type") (entry_of fs item) =
  Some (VStr (match k_stat fs (names item) with
              | inr Dir => u "directory"
              | _ => u "file"
              end)).
Proof. reflexivity. Qed.

Lemma entry_size (fs : filesystem) (item : Path) :
  get (u "size") (entry_of fs item) =
  match k_stat fs (names item) with
  | inr (File data) => Some (VInt (len data))
  | _ => None
  end.
Proof. unfold entry_of. by destruct (k_stat _ _) as [|[]]. Qed.

Lemma listing_count (path : str) (es : list dict) :
  get (u "count") (listing path es) = Some (VInt (len es)).
Proof. reflexivity. Qed.

Lemma listing_entries (path : str) (es : list dict) :
  get (u "entries") (listing path es) = Some (VList es).
Proof. reflexivity. Qed.

Lemma listing_path (path : str) (es : list dict) :
  get (u "path") (listing path es) =
  Some (VStr (if decide (path_str (clean_path path) = dot) then []
              else path_str (clean_path path))).
Proof. reflexivity. Qed.

(** C7, as the code has it. A successful [list_directory] returns the
    immediate children of the directory the request leads to, each once,
    in strictly increasing order of their names (so whatever order the
    file system lists them in); an entry has the child's base name, a
    type that is "directory" or "file", and a size exactly when the child
    is a regular file; [count] is the number of entries; the reported path
    is empty when the cleaned request is ["."]; the tree is unchanged. *)
Theorem listing_sorted_children (fs : filesystem) (path : str) (d : dict) (w' : world) :
  list_directory path (quiet fs) = (inr d, w') -> succeeded d ->
  exists (l : loc) (ns : list str),
    walk MAXSYMLINKS fs true [] (names (full_path path)) = inr (At l Dir) /\
    (forall c, c ∈ ns <-> is_Some (fs !! (l ++ [c]))) /\
    StronglySorted str_lt ns /\
    d = listing path (entry_of fs <$> (child_path (full_path path) <$> ns)) /\
    (forall c,
       let e := entry_of fs (child_path (full_path path) c) in
       get (u "name") e = Some (VStr c) /\
       (get (u "type") e = Some (VStr (u "directory"))
        \/ get (u "type") e = Some (VStr (u "file"))) /\
       (is_Some (get (u "size") e) <->
        exists data,
          k_stat fs (names (child_path (full_path path) c))
          = inr (File data))) /\
    get (u "count") d = Some (VInt (len ns)) /\
    (path_str (clean_path path) = dot -> get (u "path") d = Some (VStr [])) /\
    files w' = fs.
Proof.
  intros Hrun Hok.
  destruct (listing_characterised fs path d w' Hrun Hok)
    as (l & ns & Hw & Hns & Hsorted & -> & Hf).
  exists l, ns. split_and!; try done.
  - intros c e. subst e. split_and!.
    + apply entry_name.
    + rewrite entry_type. destruct (k_stat _ _) as [|[]]; eauto.
    + rewrite entry_size. split.
      * destruct (k_stat _ _) as [|[]]; intros [? ?]; eauto; done.
      * intros [data ->]. eauto.
  - rewrite listing_count. unfold len. by rewrite !length_fmap.
  - intros Hdot. rewrite listing_path. by rewrite decide_True.
Qed.

Lemma listing_sorted_children_witness :
  list_directory [] (quiet fs0)
    = (inr root_listing, (list_directory [] (quiet fs0)).2) /\
  succeeded root_listing /\
  exists (l : loc) (ns : list str),
    walk MAXSYMLINKS fs0 true [] (names (full_path [])) = inr (At l Dir) /\
    (forall c, c ∈ ns <-> is_Some (fs0 !! (l ++ [c]))) /\
    StronglySorted str_lt ns /\
    get (u "count") root_listing = Some (VInt (len ns)).
Proof.
  assert (Hrun : list_directory [] (quiet fs0)
                 = (inr root_listing, (list_directory [] (quiet fs0)).2)).
  { apply (run_pair (list_directory [] (quiet fs0)) root_listing).
    vm_compute. reflexivity. }
  split; [exact Hrun|]. split; [reflexivity|].
  pose proof (listing_sorted_children fs0 [] root_listing
                (list_directory [] (quiet fs0)).2 Hrun eq_refl) as H.
  destruct H as (l & ns & H1 & H2 & H3 & _ & _ & H4 & _).
  exists l, ns. exact (conj H1 (conj H2 (conj H3 H4))).
Defined.

(** C7 as stated fails: in the listing of [/config] the socket [ctl.sock]
    has type "file" and no size; and a request that leads to the root by
    way of [".."] is reported with its own path, not the empty string. *)
Lemma listing_size_not_tied_to_type :
  (list_directory [] (quiet fs0)).1 = inr root_listing /\
  get (u "entries") root_listing
    = Some (VList [[(u "name", VStr (u ".storage"));
                    (u "type", VStr (u "directory"))];
                   sock_entry;
                   [(u "name", VStr (u "notes.txt"));
                    (u "type", VStr (u "file")); (u "size", VInt 5)]]) /\
  get (u "type") sock_entry = Some (VStr (u "file")) /\
  get (u "size") sock_entry = None /\
  realpath fs0 (names (full_path (u ".storage/.."))) = Some [config] /\
  (exists d, (list_directory (u ".storage/..") (quiet fs0)).1 = inr d /\
             succeeded d /\
             get (u "path") d = Some (VStr (u ".storage/.."))).
Proof.
  split_and!; try (by vm_compute).
  eexists. split_and!; by vm_compute.
Qed.



(** ** Walking along directories *)

Lemma walk_nil (fuel : nat) (fs : filesystem) (b : bool) (cur : loc) :
  walk fuel fs b cur [] = inr (At cur Dir).
Proof. by destruct fuel. Qed.

Lemma walk_cons (fuel : nat) (fs : filesystem) (b : bool) (cur : loc)
    (c : str) (rest : list str) :
  walk fuel fs b cur (c :: rest) =
  if decide (c = [] \/ c = dot) then walk fuel fs b cur rest
  else if decide (c = dotdot) then walk fuel fs b (parent cur) rest
  else
    match fs !! (cur ++ [c]) with
    | None => if no_more rest then inr (Absent (cur ++ [c])) else inl ENOENT
    | Some Dir => walk fuel fs b (cur ++ [c]) rest
    | Some (Symlink t) =>
        if negb b && no_more rest then inr (At (cur ++ [c]) (Symlink t))
        else
          match fuel with
          | O => inl ELOOP
          | S f =>
              walk f fs b (if isabs t then [] else cur)
                   (split_slash t ++ rest)
          end
    | Some n => if no_more rest then inr (At (cur ++ [c]) n) else inl ENOTDIR
    end.
Proof. by destruct fuel. Qed.

Lemma walk_proper (fuel : nat) (fs : filesystem) (b : bool) (cur : loc)
    (c : str) (rest : list str) :
  proper c ->
  walk fuel fs b cur (c :: rest) =
    match fs !! (cur ++ [c]) with
    | None => if no_more rest then inr (Absent (cur ++ [c])) else inl ENOENT
    | Some Dir => walk fuel fs b (cur ++ [c]) rest
    | Some (Symlink t) =>
        if negb b && no_more rest then inr (At (cur ++ [c]) (Symlink t))
        else
          match fuel with
          | O => inl ELOOP
          | S f =>
              walk f fs b (if isabs t then [] else cur)
                   (split_slash t ++ rest)
          end
    | Some n => if no_more rest then inr (At (cur ++ [c]) n) else inl ENOTDIR
    end.
Proof.
  intros (H1 & H2 & H3). rewrite walk_cons.
  rewrite decide_False by (by intros [?|?]). by rewrite decide_False.
Qed.

Lemma walk_dotdot (fuel : nat) (fs : filesystem) (b : bool) (cur : loc)
    (rest : list str) :
  walk fuel fs b cur (dotdot :: rest) = walk fuel fs b (parent cur) rest.
Proof. rewrite walk_cons. done. Qed.

(** Names that are directories are walked through. *)
Lemma walk_dirs (fuel : nat) (fs : filesystem) (b : bool)
    (ds : list str) :
  forall (cur : loc) (rest : list str),
    Forall proper ds ->
    (forall i, (i < length ds)%nat ->
               fs !! (cur ++ take (S i) ds) = Some Dir) ->
    walk fuel fs b cur (ds ++ rest) = walk fuel fs b (cur ++ ds) rest.
Proof.
  induction ds as [|d ds IH]; intros cur rest Hp Hd.
  { by rewrite app_nil_r. }
  apply Forall_cons in Hp as [Hd0 Hp].
  cbn [app]. rewrite walk_proper by done.
  pose proof (Hd 0%nat ltac:(simpl; lia)) as H0.
  change (take 1 (d :: ds)) with [d] in H0. rewrite H0.
  rewrite IH; [by rewrite <- app_assoc|done|].
  intros i Hi. rewrite <- app_assoc. apply (Hd (S i)). simpl. lia.
Qed.

(** ** Chains of directories *)

Lemma walk_along (fuel : nat) (fs : filesystem) (b : bool) (ds : list str) :
  forall (cur : loc) (rest : list str),
    Forall proper ds -> dirs_along fs cur ds ->
    walk fuel fs b cur (ds ++ rest) = walk fuel fs b (cur ++ ds) rest.
Proof.
  induction ds as [|d ds IH]; intros cur rest Hp Hd.
  { by rewrite app_nil_r. }
  apply Forall_cons in Hp as [Hd0 Hp]. destruct Hd as [H0 Hd].
  cbn [app]. rewrite walk_proper, H0 by done.
  rewrite IH by done. by rewrite <- app_assoc.
Qed.

Lemma dirs_along_app (fs : filesystem) (ds es : list str) :
  forall cur, dirs_along fs cur (ds ++ es)
              <-> dirs_along fs cur ds /\ dirs_along fs (cur ++ ds) es.
Proof.
  induction ds as [|d ds IH]; intros cur; cbn [app dirs_along].
  { rewrite app_nil_r. tauto. }
  rewrite IH, <- app_assoc. cbn [app]. tauto.
Qed.

Lemma free_along_app (fs : filesystem) (ms ns : list str) :
  forall cur, free_along fs cur (ms ++ ns)
              <-> free_along fs cur ms /\ free_along fs (cur ++ ms) ns.
Proof.
  induction ms as [|m ms IH]; intros cur; cbn [app free_along].
  { rewrite app_nil_r. tauto. }
  rewrite IH, <- app_assoc. cbn [app]. tauto.
Qed.

Lemma with_dirs_app (ms ns : list str) :
  forall cur fs, with_dirs cur (ms ++ ns) fs
                 = with_dirs (cur ++ ms) ns (with_dirs cur ms fs).
Proof.
  induction ms as [|m ms IH]; intros cur fs; cbn [app with_dirs].
  { by rewrite app_nil_r. }
  rewrite IH, <- app_assoc. done.
Qed.

(** Keys that [with_dirs] does not touch. *)
Lemma with_dirs_other (ms : list str) :
  forall (cur : loc) (fs : filesystem) (k : loc),
    (forall i, (i < length ms)%nat -> k <> cur ++ take (S i) ms) ->
    with_dirs cur ms fs !! k = fs !! k.
Proof.
  induction ms as [|m ms IH]; intros cur fs k Hk; cbn [with_dirs]; [done|].
  rewrite IH.
  - apply lookup_insert_ne. intros <-. apply (Hk 0%nat); [simpl; lia|done].
  - intros i Hi. rewrite <- app_assoc. apply (Hk (S i)). simpl. lia.
Qed.

Lemma with_dirs_shorter (ms : list str) (cur : loc) (fs : filesystem)
    (k : loc) :
  (length k <= length cur)%nat -> with_dirs cur ms fs !! k = fs !! k.
Proof.
  intros Hl. apply with_dirs_other. intros i Hi ->.
  rewrite length_app, length_take in Hl. lia.
Qed.

Lemma with_dirs_dirs (ms : list str) :
  forall (cur : loc) (fs : filesystem),
    dirs_along (with_dirs cur ms fs) cur ms.
Proof.
  induction ms as [|m ms IH]; intros cur fs; cbn [with_dirs dirs_along];
    [done|].
  split; [|apply IH].
  rewrite with_dirs_shorter by (rewrite length_app; simpl; lia).
  apply lookup_insert_eq.
Qed.

Lemma dirs_along_with_dirs (ds ms : list str) (fs : filesystem) :
  forall cur cur',
    (length cur + length ds <= length cur')%nat ->
    dirs_along fs cur ds -> dirs_along (with_dirs cur' ms fs) cur ds.
Proof.
  induction ds as [|d ds IH]; intros cur cur' Hl; cbn [dirs_along]; [done|].
  intros [H0 Hd]. split.
  - rewrite with_dirs_shorter; [done|]. rewrite length_app; simpl in *; lia.
  - apply IH; [|done]. rewrite length_app; simpl in *; lia.
Qed.

Lemma mkdir_parents_rev_unfold (a : bool) (rp : list str) (fs : filesystem) :
  mkdir_parents_rev a rp fs =
  let p := {| absolute := a; parts := rev rp |} in
  match k_mkdir fs (names p) with
  | inr fs' => (inr (), fs')
  | inl ENOENT =>
      match rp with
      | [] => (inl (os_error ENOENT p), fs)
      | _ :: rparent =>
          match mkdir_parents_rev a rparent fs with
          | (inr _, fs1) =>
              match k_mkdir fs1 (names p) with
              | inr fs2 => (inr (), fs2)
              | inl ENOENT => (inl (os_error ENOENT p), fs1)
              | inl e => mkdir_exist_ok p e fs1
              end
          | (inl x, fs1) => (inl x, fs1)
          end
      end
  | inl e => mkdir_exist_ok p e fs
  end.
Proof. by destruct rp. Qed.

Lemma walk_to_dir (fuel : nat) (fs : filesystem) (b : bool) (ds : list str) :
  Forall proper ds -> dirs_along fs [] ds ->
  walk fuel fs b [] ds = inr (At ds Dir).
Proof.
  intros Hp Hd. rewrite <- (app_nil_r ds) at 1.
  rewrite walk_along by done. by rewrite walk_nil.
Qed.

Lemma walk_to_last (fuel : nat) (fs : filesystem) (b : bool)
    (ds : list str) (c : str) (rest : list str) :
  Forall proper ds -> proper c -> dirs_along fs [] ds ->
  walk fuel fs b [] (ds ++ c :: rest) = walk fuel fs b ds (c :: rest).
Proof. intros Hp Hc Hd. by rewrite walk_along. Qed.

Lemma k_mkdir_exists (fs : filesystem) (ds : list str) :
  Forall proper ds -> dirs_along fs [] ds -> k_mkdir fs ds = inl EEXIST.
Proof. intros Hp Hd. unfold k_mkdir. by rewrite walk_to_dir. Qed.

Lemma k_mkdir_new (fs : filesystem) (ds : list str) (m : str) :
  Forall proper ds -> proper m -> dirs_along fs [] ds ->
  fs !! (ds ++ [m]) = None ->
  k_mkdir fs (ds ++ [m]) = inr (<[ds ++ [m] := Dir]> fs).
Proof.
  intros Hp Hm Hd Hn. unfold k_mkdir.
  rewrite walk_to_last, walk_proper, Hn by done. done.
Qed.

Lemma k_mkdir_enoent (fs : filesystem) (ds : list str) (m c : str)
    (rest : list str) :
  Forall proper ds -> proper m -> dirs_along fs [] ds ->
  fs !! (ds ++ [m]) = None ->
  k_mkdir fs (ds ++ m :: c :: rest) = inl ENOENT.
Proof.
  intros Hp Hm Hd Hn. unfold k_mkdir.
  rewrite walk_to_last, walk_proper, Hn by done. done.
Qed.

Lemma is_dir_dirs (a : bool) (fs : filesystem) (ds : list str) :
  Forall proper ds -> dirs_along fs [] ds ->
  is_dir {| absolute := a; parts := ds |} fs = (inr true, fs).
Proof.
  intros Hp Hd. unfold is_dir. rewrite stat_test_quiet.
  unfold k_stat, names. cbn [parts]. by rewrite walk_to_dir.
Qed.

Lemma mkdir_parents_along (a : bool) (miss : list str) :
  forall (have : list str) (fs : filesystem),
    Forall proper (have ++ miss) ->
    dirs_along fs [] have -> free_along fs have miss ->
    mkdir_parents_rev a (rev (have ++ miss)) fs
    = (inr (), with_dirs have miss fs).
Proof.
  induction miss as [|m miss' IH] using rev_ind; intros have fs Hp Hd Hf.
  - rewrite app_nil_r in *. rewrite mkdir_parents_rev_unfold.
    cbn zeta. unfold names at 1. cbn [parts]. rewrite rev_involutive.
    rewrite k_mkdir_exists by done. unfold mkdir_exist_ok.
    by rewrite is_dir_dirs.
  - apply free_along_app in Hf as [Hf Hm]. cbn [free_along] in Hm.
    destruct Hm as [Hm _].
    assert (Hp' : Forall proper (have ++ miss') /\ proper m).
    { rewrite app_assoc in Hp. apply Forall_app in Hp as [? Hm'].
      split; [done|]. exact (Forall_inv Hm'). }
    destruct Hp' as [Hp' Hpm].
    rewrite with_dirs_app. cbn [with_dirs].
    rewrite mkdir_parents_rev_unfold.
    cbn zeta. unfold names. cbn [parts]. rewrite rev_involutive.
    rewrite app_assoc, rev_unit.
    destruct miss' as [|m1 ms].
    + rewrite app_nil_r in *. cbn [with_dirs].
      rewrite k_mkdir_new by done. done.
    + assert (Hfirst : fs !! (have ++ [m1]) = None) by (by destruct Hf).
      assert (Hen : k_mkdir fs ((have ++ m1 :: ms) ++ [m]) = inl ENOENT).
      { apply Forall_app in Hp' as [Hph Hpms].
        apply Forall_cons in Hpms as [Hpm1 Hpms].
        destruct (ms ++ [m]) as [|c rest] eqn:Hms.
        { by destruct ms. }
        rewrite <- app_assoc. cbn [app]. rewrite Hms.
        by apply k_mkdir_enoent. }
      rewrite Hen. rewrite IH by done.
      assert (Hd1 : dirs_along (with_dirs have (m1 :: ms) fs) []
                      (have ++ m1 :: ms)).
      { apply dirs_along_app. split.
        - apply dirs_along_with_dirs; [simpl; lia|done].
        - apply with_dirs_dirs. }
      rewrite k_mkdir_new; try done.
      rewrite with_dirs_other; [done|].
      intros i Hi Heq. apply (f_equal length) in Heq.
      rewrite !length_app, length_take in Heq. simpl in *. lia.
Qed.

Lemma joinrealpath_nil (f : nat) (fs : filesystem) (seen : list loc)
    (path : loc) :
  joinrealpath f fs seen path [] = Some path.
Proof. by destruct f. Qed.

Lemma joinrealpath_cons (f : nat) (fs : filesystem) (seen : list loc)
    (path : loc) (name : str) (rest : list str) :
  joinrealpath f fs seen path (name :: rest) =
  if decide (name = [] \/ name = dot) then joinrealpath f fs seen path rest
  else if decide (name = dotdot)
  then joinrealpath f fs seen (parent path) rest
  else
    match k_lstat fs (path ++ [name]) with
    | inr (Symlink t) =>
        if decide (path ++ [name] ∈ seen) then None
        else
          match f with
          | O => None
          | S f' =>
              match joinrealpath f' fs ((path ++ [name]) :: seen)
                      (if isabs t then [] else path) (split_slash t)
              with
              | Some path' => joinrealpath f fs seen path' rest
              | None => None
              end
          end
    | _ => joinrealpath f fs seen (path ++ [name]) rest
    end.
Proof. by destruct f. Qed.

Lemma joinrealpath_plain (f : nat) (fs : filesystem) (seen : list loc)
    (ns : list str) :
  forall (cur : loc),
    Forall proper ns ->
    (forall i, (i < length ns)%nat ->
               not_link (k_lstat fs (cur ++ take (S i) ns))) ->
    joinrealpath f fs seen cur ns = Some (cur ++ ns).
Proof.
  induction ns as [|c ns IH]; intros cur Hp Hn.
  { by rewrite joinrealpath_nil, app_nil_r. }
  apply Forall_cons in Hp as [(H1 & H2 & H3) Hp].
  rewrite joinrealpath_cons.
  rewrite decide_False by (by intros [?|?]). rewrite decide_False by done.
  pose proof (Hn 0%nat ltac:(simpl; lia)) as H0.
  change (take 1 (c :: ns)) with [c] in H0.
  assert (joinrealpath f fs seen (cur ++ [c]) ns = Some (cur ++ c :: ns))
    as Hgo.
  { rewrite IH; [by rewrite <- app_assoc|done|].
    intros i Hi. rewrite <- app_assoc. apply (Hn (S i)). simpl. lia. }
  destruct (k_lstat fs (cur ++ [c])) as [e|[]] eqn:Hl; try done.
  by destruct (H0 target).
Qed.

Lemma dirs_along_take (fs : filesystem) (ds : list str) (n : nat) :
  forall cur, dirs_along fs cur ds -> dirs_along fs cur (take n ds).
Proof.
  revert n. induction ds as [|d ds IH]; intros [|n] cur; try done.
  cbn [take dirs_along]. intros [? ?]. split; [done|]. by apply IH.
Qed.

(** On a chain of directories that ends at a free name, or at a regular
    file in last position, no prefix is a symbolic link. *)
Lemma lstat_chain (fs : filesystem) (have : list str) (x : str)
    (more : list str) (i : nat) :
  Forall proper (have ++ x :: more) ->
  dirs_along fs [] have ->
  (fs !! (have ++ [x]) = None
   \/ more = [] /\ exists d0, fs !! (have ++ [x]) = Some (File d0)) ->
  not_link (k_lstat fs (take (S i) (have ++ x :: more))).
Proof.
  intros Hp Hd Hx t. apply Forall_app in Hp as [Hph Hpx].
  apply Forall_cons in Hpx as [Hpx Hpm]. unfold k_lstat.
  destruct (decide (S i <= length have)%nat) as [Hi|Hi].
  - rewrite take_app_le by done.
    rewrite walk_to_dir; [done|by apply Forall_take|by apply dirs_along_take].
  - rewrite take_app_ge by lia.
    replace (S i - length have)%nat with (S (i - length have)) by lia.
    cbn [take]. rewrite walk_to_last, walk_proper by done.
    destruct Hx as [->|(-> & d0 & ->)].
    + by destruct (no_more _).
    + by rewrite take_nil.
Qed.

Lemma startswith_app (p s : str) : startswith (p ++ s) p = true.
Proof.
  induction p as [|c p IH]; [by destruct s|]. cbn [app startswith].
  rewrite IH. by case_bool_decide.
Qed.

Lemma startswith_config (rest : list str) :
  startswith (path_str {| absolute := true; parts := config :: rest |})
             (path_str {| absolute := true; parts := [config] |}) = true.
Proof.
  unfold path_str. cbn [absolute parts join_slash].
  destruct rest as [|r rest].
  - apply startswith_refl.
  - rewrite app_comm_cons. apply (startswith_app (slash :: config)).
Qed.

Lemma dirs_along_insert (fs : filesystem) (k : loc) (n : node)
    (ds : list str) :
  forall cur, (length cur + length ds < length k)%nat ->
              dirs_along fs cur ds -> dirs_along (<[k := n]> fs) cur ds.
Proof.
  induction ds as [|d ds IH]; intros cur Hl; cbn [dirs_along]; [done|].
  intros [H0 Hd]. split.
  - rewrite lookup_insert_ne; [done|]. intros ->.
    rewrite length_app in Hl. simpl in Hl. lia.
  - apply IH; [|done]. rewrite length_app. simpl in *. lia.
Qed.

(** ** Writing below directories that are not there yet *)




(** ** UTF-8 there and back *)

Ltac ltb_cases :=
  repeat match goal with
    | |- context [N.ltb ?a ?b] => destruct (N.ltb_spec a b); try lia
    | |- context [N.leb ?a ?b] => destruct (N.leb_spec a b); try lia
    end.

Lemma divmod_facts (c d : N) :
  d <> 0 -> exists q r, c / d = q /\ c mod d = r /\ c = d * q + r /\ r < d.
Proof.
  intros Hd. exists (c / d), (c mod d). split_and!; try done.
  - by apply N.div_mod.
  - by apply N.mod_upper_bound.
Qed.

Lemma decode_encode_cp (c : N) (bs rest : bytes) :
  encode_cp c = Some bs ->
  decode (bs ++ rest) = cons c <$> decode rest.
Proof.
  unfold encode_cp.
  destruct (N.ltb_spec c 128) as [H1|H1].
  { intros [= <-]. cbn [app decode]. ltb_cases. done. }
  destruct (N.ltb_spec c 2048) as [H2|H2].
  { intros [= <-]. cbn [app decode]. unfold is_cont.
    destruct (divmod_facts c 64) as (q & r & -> & -> & Hc & Hr); [done|].
    ltb_cases. cbn [andb]. do 2 f_equal. lia. }
  destruct (N.ltb_spec c 65536) as [H3|H3].
  { destruct (N.leb_spec 55296 c) as [H4|H4];
      destruct (N.ltb_spec c 57344) as [H5|H5]; cbn [andb]; try done.
    all: intros [= <-]; cbn [app decode]; unfold is_cont.
    all: destruct (divmod_facts c 4096) as (q1 & r1 & -> & _ & Hc1 & Hr1);
      [done|].
    all: destruct (divmod_facts c 64) as (q & r & -> & -> & Hc & Hr);
      [done|].
    all: destruct (divmod_facts q 64) as (q2 & r2 & _ & -> & Hc2 & Hr2);
      [done|].
    all: assert (q2 = q1) as -> by lia.
    all: assert ((224 + q1 - 224) * 4096 + (128 + r2 - 128) * 64
                 + (128 + r - 128) = c) as -> by lia.
    all: ltb_cases; cbn [andb negb]; done. }
  destruct (N.ltb_spec c 1114112) as [H4|H4]; [|done].
  intros [= <-]; cbn [app decode]; unfold is_cont.
  destruct (divmod_facts c 262144) as (q0 & r0 & -> & _ & Hc0 & Hr0);
    [done|].
  destruct (divmod_facts c 4096) as (q1 & r1 & -> & _ & Hc1 & Hr1);
    [done|].
  destruct (divmod_facts q1 64) as (q1' & r1' & _ & -> & Hc1' & Hr1');
    [done|].
  destruct (divmod_facts c 64) as (q & r & -> & -> & Hc & Hr); [done|].
  destruct (divmod_facts q 64) as (q2 & r2 & _ & -> & Hc2 & Hr2); [done|].
  assert ((240 + q0 - 240) * 262144 + (128 + r1' - 128) * 4096
          + (128 + r2 - 128) * 64 + (128 + r - 128) = c) as -> by lia.
  ltb_cases; cbn [andb negb]; done.
Qed.

Lemma decode_encode (s : str) (b : bytes) :
  encode s = Some b -> decode b = Some s.
Proof.
  revert b. induction s as [|c s IH]; intros b; cbn [encode].
  { by intros [= <-]. }
  destruct (encode_cp c) as [bc|] eqn:Hc; [|done].
  destruct (encode s) as [bs|] eqn:Hs; [|done].
  intros [= <-]. rewrite (decode_encode_cp c bc bs Hc).
  by rewrite (IH bs).
Qed.

Lemma universal_newlines_id (s : str) :
  cr ∉ s -> universal_newlines s = s.
Proof.
  induction s as [|c s IH]; [done|]. intros Hn.
  apply not_elem_of_cons in Hn as [Hc Hs]. cbn [universal_newlines].
  rewrite decide_False by done. by rewrite IH.
Qed.

(** ** Trees that grow by directories and files *)

Lemma good_dir_parent (fs : filesystem) (cur : list str) :
  wf fs -> good_dir fs cur -> good_dir fs (parent cur).
Proof.
  intros Hwf [->|Hc]; [by left|]. unfold parent.
  destruct cur as [|c cur _] using rev_ind; [by left|].
  rewrite removelast_last. by apply (Hwf cur c Dir).
Qed.

(** Where a walk ends without finding anything, a name is free in a
    directory that exists. *)
Lemma walk_absent (fs : filesystem) (b : bool) (l : list str) :
  wf fs ->
  forall (fuel : nat) (ns : list str) (cur : list str),
    good_dir fs cur ->
    walk fuel fs b cur ns = inr (Absent l) ->
    fs !! l = None /\ exists k c, l = k ++ [c] /\ good_dir fs k.
Proof.
  intros Hwf. induction fuel as [|fuel IHf];
    (induction ns as [|c rest IH]; intros cur Hcur;
     [by rewrite walk_nil|]).
  all: rewrite walk_cons; repeat case_decide;
    [by apply IH|by apply IH, good_dir_parent|].
  all: destruct (fs !! (cur ++ [c])) as [[d| |t|]|] eqn:Hl.
  all: try (destruct (no_more rest); done).
  all: try (apply IH; by right).
  all: try (destruct (negb b && no_more rest); [done|]).
  all: try done.
  all: try (apply IHf; destruct (isabs t); [by left|done]).
  all: destruct (no_more rest); [|done].
  all: intros [= <-]; split; [done|]; by exists cur, c.
Qed.

(** A walk that ends at something other than a directory found it in the
    tree. *)
Lemma walk_at (fs : filesystem) (b : bool) (l : list str) (n : node) :
  n <> Dir ->
  forall (fuel : nat) (ns : list str) (cur : list str),
    walk fuel fs b cur ns = inr (At l n) ->
    fs !! l = Some n /\ exists k c, l = k ++ [c].
Proof.
  intros Hn. induction fuel as [|fuel IHf];
    (induction ns as [|c rest IH]; intros cur;
     [rewrite walk_nil; by intros [= <- <-]|]).
  all: rewrite walk_cons; repeat case_decide; [by apply IH|by apply IH|].
  all: destruct (fs !! (cur ++ [c])) as [[d| |t|]|] eqn:Hl.
  all: try (apply IH).
  all: try (destruct (negb b && no_more rest);
            [intros [= <- <-]; split; [done|by exists cur, c]|]).
  all: try done.
  all: try (apply IHf).
  all: destruct (no_more rest); [|done].
  all: try done.
  all: intros [= <- <-]; split; [done|by exists cur, c].
Qed.

Lemma extends_refl (fs : filesystem) : wf fs -> extends fs fs.
Proof. intros H. split; [done|]. split; [done|lia]. Qed.

Lemma extends_trans (fs1 fs2 fs3 : filesystem) :
  extends fs1 fs2 -> extends fs2 fs3 -> extends fs1 fs3.
Proof.
  intros (_ & Hl1 & Hs1) (Hw & Hl2 & Hs2). split; [done|].
  split; [|lia]. intros k t. by rewrite (Hl1 k t).
Qed.

Lemma size_insert_le (fs : filesystem) (l : list str) (n : node) :
  (size fs <= size (<[l := n]> fs))%nat.
Proof.
  destruct (fs !! l) as [x|] eqn:Hl.
  - rewrite map_size_insert_Some by eauto. lia.
  - rewrite map_size_insert_None by done. lia.
Qed.

(** Putting a directory at a free name of an existing directory, or a
    regular file there or over a regular file, keeps the tree a tree and
    its symbolic links as they were. *)
Lemma extends_insert (fs : filesystem) (l : list str) (n : node) :
  wf fs ->
  (forall t, n <> Symlink t) ->
  (fs !! l = None /\ (exists k c, l = k ++ [c] /\ good_dir fs k)
   \/ exists d d', fs !! l = Some (File d) /\ n = File d') ->
  extends fs (<[l := n]> fs).
Proof.
  intros Hwf Hn Hl. split; [|split; [|apply size_insert_le]].
  - intros k c x Hx.
    assert (Hpar : k = [] \/ fs !! k = Some Dir).
    { destruct (decide (l = k ++ [c])) as [->|Hne].
      - destruct Hl as [(_ & k' & c' & Heq & Hg)|(d & d' & Hd & _)].
        + apply app_inj_tail in Heq as [-> _]. exact Hg.
        + by apply (Hwf k c (File d)).
      - rewrite lookup_insert_ne in Hx by done. by apply (Hwf k c x). }
    destruct Hpar as [->|Hk]; [by left|]. right.
    destruct (decide (l = k)) as [->|Hne].
    + rewrite lookup_insert_eq.
      destruct Hl as [(Hnone & _)|(d & d' & Hd & _)]; congruence.
    + by rewrite lookup_insert_ne.
  - intros k t. destruct (decide (l = k)) as [->|Hne].
    + rewrite lookup_insert_eq. split.
      * intros Hk. destruct Hl as [(Hnone & _)|(d & d' & Hd & _)];
          congruence.
      * intros [= ->]. by destruct (Hn t).
    + by rewrite lookup_insert_ne.
Qed.

Lemma k_mkdir_extends (fs fs' : filesystem) (ns : list str) :
  wf fs -> k_mkdir fs ns = inr fs' -> extends fs fs'.
Proof.
  intros Hwf. unfold k_mkdir.
  destruct (walk MAXSYMLINKS fs false [] ns) as [e|[l n|l]] eqn:Hw;
    try done.
  intros [= <-]. apply extends_insert; [done|done|]. left.
  eapply walk_absent; [done| |exact Hw]. by left.
Qed.

Lemma mkdir_exist_ok_files (p : Path) (e : errno) (fs : filesystem) :
  (mkdir_exist_ok p e fs).2 = fs.
Proof.
  unfold mkdir_exist_ok, is_dir. rewrite stat_test_quiet.
  by destruct (match k_stat fs (names p) with inl _ => _ | inr _ => _ end).
Qed.

Lemma mkdir_parents_rev_extends (a : bool) (rp : list str) :
  forall (fs : filesystem),
    wf fs -> extends fs (mkdir_parents_rev a rp fs).2.
Proof.
  induction rp as [|c rp IH]; intros fs Hwf;
    rewrite mkdir_parents_rev_unfold; cbn zeta.
  - destruct (k_mkdir fs _) as [[]|fs'] eqn:Hk; cbn [snd];
      rewrite ?mkdir_exist_ok_files; try (by apply extends_refl).
    by apply (k_mkdir_extends fs fs' _ Hwf Hk).
  - destruct (k_mkdir fs _) as [[]|fs'] eqn:Hk; cbn [snd];
      rewrite ?mkdir_exist_ok_files; try (by apply extends_refl);
      [|by apply (k_mkdir_extends fs fs' _ Hwf Hk)].
    specialize (IH fs Hwf).
    destruct (mkdir_parents_rev a rp fs) as [[x|[]] fs1]; cbn [snd] in *;
      [done|].
    pose proof IH as (Hwf1 & _).
    destruct (k_mkdir fs1 _) as [[]|fs2] eqn:Hk2; cbn [snd];
      rewrite ?mkdir_exist_ok_files; try done.
    eapply extends_trans; [exact IH|].
    by apply (k_mkdir_extends fs1 fs2 _ Hwf1 Hk2).
Qed.

(** A file written where the walk ended is found there by the same
    walk. *)
Lemma walk_after_write (fs : filesystem) (l : list str) (b : bytes) :
  (fs !! l = None \/ exists d, fs !! l = Some (File d)) ->
  forall (fuel : nat) (ns : list str) (cur : list str) (r : walked),
    walk fuel fs true cur ns = inr r ->
    (r = Absent l \/ exists d, r = At l (File d)) ->
    walk fuel (<[l := File b]> fs) true cur ns = inr (At l (File b)).
Proof.
  intros Hl. induction fuel as [|fuel IHf];
    (induction ns as [|c rest IH]; intros cur r;
     [rewrite walk_nil; intros [= <-] [?|[? ?]]; congruence|]).
  all: rewrite !walk_cons; repeat case_decide; [by apply IH|by apply IH|].
  all: destruct (decide (l = cur ++ [c])) as [->|Hne].
  all: try (rewrite lookup_insert_eq;
            destruct Hl as [->|[d ->]]; by destruct (no_more rest)).
  all: rewrite lookup_insert_ne by done.

  all: destruct (fs !! (cur ++ [c])) as [[d| |t|]|] eqn:Hc.
  all: try (by apply IH).
  all: cbn [negb andb]; try done.
  all: try (by apply IHf).
  all: destruct (no_more rest); try done.
  all: intros [= <-] [?|[? ?]]; congruence.
Qed.

(** More fuel does not change an answer of [joinrealpath]. *)
Lemma joinrealpath_more_fuel (fs : filesystem) (f : nat) :
  forall (f' : nat) (seen : list loc) (rest : list str) (path r : list str),
    (f <= f')%nat ->
    joinrealpath f fs seen path rest = Some r ->
    joinrealpath f' fs seen path rest = Some r.
Proof.
  induction f as [|f IHf]; intros f' seen rest;
    (induction rest as [|name rest IH]; intros path r Hle;
     [by rewrite !joinrealpath_nil|]).
  all: rewrite !joinrealpath_cons.
  all: destruct (decide (name = [] \/ name = dot)); [by apply IH|].
  all: destruct (decide (name = dotdot)); [by apply IH|].
  all: destruct (k_lstat fs (path ++ [name])) as [e|[d| |t|]];
    try (by apply IH).
  all: destruct (decide (path ++ [name] ∈ seen)); [done|].
  - done.
  - destruct f' as [|f']; [lia|].
    destruct (joinrealpath f fs _ _ _) as [p'|] eqn:Hin; [|done].
    rewrite (IHf f' _ _ _ p') by (done || lia). by apply IH.
Qed.

Lemma link_of_match {A : Type} (r : errno + node) (a : str -> A) (b : A) :
  match r with inr (Symlink t) => a t | _ => b end =
  match link_of r with Some t => a t | None => b end.
Proof. by destruct r as [|[]]. Qed.

Lemma wf_prefix (fs : filesystem) (k : list str) (ns : list str) (n : node) :
  wf fs -> k <> [] -> ns <> [] ->
  fs !! (k ++ ns) = Some n -> fs !! k = Some Dir.
Proof.
  intros Hwf Hk. revert n. induction ns as [|c ns IH] using rev_ind;
    intros n Hns Hl; [done|].
  rewrite app_assoc in Hl. apply Hwf in Hl as [Hl|Hl].
  { by destruct k, ns. }
  destruct ns as [|c' ns]; [by rewrite app_nil_r in Hl|].
  by apply (IH Dir).
Qed.

(** [lstat] of a location whose proper prefixes are not symbolic links
    sees a link exactly when the tree has one there. *)
Lemma lstat_canon (fs : filesystem) (fuel : nat) (ns : list str) :
  wf fs ->
  forall (cur : list str),
    Forall proper ns ->
    (forall i t, (S i < length ns)%nat ->
                 fs !! (cur ++ take (S i) ns) <> Some (Symlink t)) ->
    good_dir fs cur -> ns <> [] ->
    link_of (match walk fuel fs false cur ns with
             | inr (At _ n) => inr n
             | inr (Absent _) => inl ENOENT
             | inl e => inl e
             end) = entry_link fs (cur ++ ns).
Proof.
  intros Hwf. induction ns as [|c rest IH]; intros cur Hp Hnl Hcur Hne;
    [done|].
  apply Forall_cons in Hp as [Hc Hp]. rewrite walk_proper by done.
  destruct rest as [|c' rest].
  - unfold entry_link. destruct (fs !! (cur ++ [c])) as [[]|]; try done.
    all: by rewrite ?walk_nil.
  - assert (Hrest : entry_link fs (cur ++ c :: c' :: rest)
                    = entry_link fs ((cur ++ [c]) ++ c' :: rest)).
    { by rewrite <- app_assoc. }
    pose proof (Hnl 0%nat) as H0. change (take 1 (c :: c' :: rest)) with [c] in H0.
    destruct (fs !! (cur ++ [c])) as [[d| |t|]|] eqn:Hl.
    + cbn [no_more]. unfold entry_link.
      destruct (fs !! (cur ++ c :: c' :: rest)) as [[d'| |t'|]|] eqn:Hd;
        try done.
      rewrite (wf_prefix fs (cur ++ [c]) (c' :: rest) (Symlink t')) in Hl;
        try done; [by destruct cur|by rewrite <- app_assoc].
    + rewrite Hrest. apply IH; [done| |by right|done].
      intros i t Hi. rewrite <- app_assoc. apply (Hnl (S i)).
      simpl in *. lia.
    + destruct (H0 t); [simpl; lia|done].
    + cbn [no_more]. unfold entry_link.
      destruct (fs !! (cur ++ c :: c' :: rest)) as [[d'| |t'|]|] eqn:Hd;
        try done.
      rewrite (wf_prefix fs (cur ++ [c]) (c' :: rest) (Symlink t')) in Hl;
        try done; [by destruct cur|by rewrite <- app_assoc].
    + cbn [no_more]. unfold entry_link.
      destruct (fs !! (cur ++ c :: c' :: rest)) as [[d'| |t'|]|] eqn:Hd;
        try done.
      rewrite (wf_prefix fs (cur ++ [c]) (c' :: rest) (Symlink t')) in Hl;
        try done; [by destruct cur|by rewrite <- app_assoc].
Qed.

Lemma canon_nil (fs : filesystem) : canon fs [].
Proof. split; [constructor|]. intros i t Hi. simpl in Hi. lia. Qed.

Lemma canon_parent (fs : filesystem) (path : list str) :
  canon fs path -> canon fs (parent path).
Proof.
  unfold parent. destruct path as [|c path _] using rev_ind; [done|].
  rewrite removelast_last. intros [Hp Hl]. split.
  - by apply Forall_app in Hp as [? _].
  - intros i t Hi. specialize (Hl i t).
    rewrite take_app_le in Hl by lia. apply Hl. rewrite length_app. lia.
Qed.

Lemma canon_snoc (fs : filesystem) (path : list str) (name : str) :
  canon fs path -> proper name ->
  entry_link fs (path ++ [name]) = None ->
  canon fs (path ++ [name]).
Proof.
  intros [Hp Hl] Hn He. split.
  - apply Forall_app. split; [done|by constructor].
  - intros i t Hi. rewrite length_app in Hi. simpl in Hi.
    destruct (decide (i < length path)%nat) as [Hlt|Hge].
    + rewrite take_app_le by lia. by apply Hl.
    + rewrite take_ge by (rewrite length_app; simpl; lia).
      unfold entry_link in He. intros Heq. by rewrite Heq in He.
Qed.

Lemma canon_same_links (fs fs' : filesystem) (path : list str) :
  same_links fs fs' -> canon fs path -> canon fs' path.
Proof.
  intros Hs [Hp Hl]. split; [done|]. intros i t Hi Heq.
  apply (Hl i t Hi). by apply Hs.
Qed.

Lemma entry_link_same (fs fs' : filesystem) (l : list str) :
  same_links fs fs' -> entry_link fs' l = entry_link fs l.
Proof.
  intros Hs. unfold entry_link.
  destruct (fs !! l) as [[d| |t|]|] eqn:H1;
    destruct (fs' !! l) as [[d'| |t'|]|] eqn:H2; try done.
  all: try (apply Hs in H2; congruence).
  all: try (apply Hs in H1; congruence).
Qed.

Lemma lstat_link_canon (fs : filesystem) (path : list str) (name : str) :
  wf fs -> canon fs path -> proper name ->
  link_of (k_lstat fs (path ++ [name])) = entry_link fs (path ++ [name]).
Proof.
  intros Hwf [Hp Hl] Hn.
  apply (lstat_canon fs MAXSYMLINKS (path ++ [name]) Hwf []).
  - apply Forall_app. split; [done|by constructor].
  - intros i t Hi. rewrite length_app in Hi. simpl in Hi.
    rewrite app_nil_l, take_app_le by lia. apply Hl. lia.
  - by left.
  - by destruct path.
Qed.

(** [realpath] depends on the tree through its symbolic links only. *)
Lemma joinrealpath_same_links (fs fs' : filesystem) :
  wf fs -> wf fs' -> same_links fs fs' ->
  forall (f : nat) (seen : list loc) (rest : list str) (path : list str),
    canon fs path ->
    joinrealpath f fs' seen path rest = joinrealpath f fs seen path rest
    /\ forall r, joinrealpath f fs seen path rest = Some r -> canon fs r.
Proof.
  intros Hwf Hwf' Hs.
  induction f as [|f IHf]; intros seen rest;
    (induction rest as [|name rest IH]; intros path Hc;
     [rewrite !joinrealpath_nil; split; [done|by intros r [= <-]]|]).
  all: rewrite !joinrealpath_cons.
  all: destruct (decide (name = [] \/ name = dot)) as [|Hn1]; [by apply IH|].
  all: destruct (decide (name = dotdot)) as [|Hn2];
    [by apply IH, canon_parent|].
  all: assert (Hpn : proper name)
    by (split_and!; [by intros ->; apply Hn1; left
                    |by intros ->; apply Hn1; right|done]).
  all: rewrite !link_of_match.
  all: rewrite (lstat_link_canon fs' path name Hwf'
                  (canon_same_links fs fs' path Hs Hc) Hpn).
  all: rewrite (lstat_link_canon fs path name Hwf Hc Hpn).
  all: rewrite (entry_link_same fs fs' _ Hs).
  all: destruct (entry_link fs (path ++ [name])) as [t|] eqn:He;
    [|by apply IH, canon_snoc].
  all: destruct (decide (path ++ [name] ∈ seen)); [done|].
  - done.
  - assert (Hc0 : canon fs (if isabs t then [] else path))
      by (destruct (isabs t); [apply canon_nil|done]).
    match goal with
    | |- context [joinrealpath f fs' ?s ?p ?r] =>
        destruct (IHf s r p Hc0) as [-> Hcan]
    end.
    destruct (joinrealpath f fs _ _ _) as [p'|]; [|done].
    apply IH. by apply Hcan.
Qed.

Lemma realpath_extends (fs fs' : filesystem) (ns r : list str) :
  wf fs -> extends fs fs' ->
  realpath fs ns = Some r -> realpath fs' ns = Some r.
Proof.
  intros Hwf (Hwf' & Hs & Hsize) Hr. unfold realpath in *.
  destruct (joinrealpath_same_links fs fs' Hwf Hwf' Hs (S (size fs')) [] ns []
              (canon_nil fs)) as [-> _].
  apply (joinrealpath_more_fuel fs (S (size fs))); [lia|done].
Qed.

Lemma write_file_success (fs : filesystem) (path content : str) (d : dict)
    (w1 : world) :
  write_file path content (quiet fs) = (inr d, w1) -> succeeded d ->
  exists (l : list str) (b0 : bytes) (r : walked) (j : list event),
    let fs1 := (mkdir_parents (path_parent (full_path path)) fs).2 in
    containment_check fs (full_path path) = Some true /\
    encode content = Some b0 /\
    walk MAXSYMLINKS fs1 true [] (names (full_path path)) = inr r /\
    (r = Absent l \/ exists d0, r = At l (File d0)) /\
    w1 = {| files := <[l := File b0]> fs1; faults := []; journal := j |} /\
    d = written path content.
Proof.
  unfold write_file, try_except, quiet, containment_check.
  fold (clean_path path). fold (full_path path).
  rewrite bind_prim_quiet, !resolve_quiet. cbn [fst snd].
  destruct (realpath fs (names (full_path path))) as [r|] eqn:Hr;
    [|fail_branch].
  rewrite bind_prim_quiet, !resolve_quiet. cbn [fst snd].
  destruct (realpath fs (names CONFIG_BASE)) as [b|] eqn:Hb;
    [|fail_branch].
  destruct (startswith _ _) eqn:Hc; cbn [negb]; [|fail_branch].
  rewrite bind_prim_quiet.
  destruct (mkdir_parents (path_parent (full_path path)) fs)
    as [[e|[]] fs1] eqn:Hm; cbn [fst snd].
  { destruct (is_Exception (cls e)); [fail_branch|].
    intros H; apply (f_equal fst) in H; discriminate. }
  rewrite bind_prim_quiet. unfold write_text, k_open_trunc.
  destruct (walk MAXSYMLINKS fs1 true [] (names (full_path path)))
    as [e|[l [d0| | |]|l]] eqn:Hw; cbn [fst snd]; try fail_branch.
  - destruct (encode content) as [b0|] eqn:He; cbn [fst snd];
      [|fail_branch].
    unfold bind, log, ret. intros [= <- <-] _.
    exists l, b0, (At l (File d0)). eexists. cbn zeta.
    split_and!; try done; [by right; exists d0|].
    by rewrite insert_insert_eq.
  - destruct (encode content) as [b0|] eqn:He; cbn [fst snd];
      [|fail_branch].
    unfold bind, log, ret. intros [= <- <-] _.
    exists l, b0, (Absent l). eexists. cbn zeta.
    split_and!; try done; [by left|].
    by rewrite insert_insert_eq.
Qed.

(** ** Reading back what was written *)

(** C3, as the code has it. On a tree without orphans, after a successful
    [write_file(p, c)] with no carriage return in [c], [read_file(p)]
    succeeds with content exactly [c]; both report the same path and the
    same size, the number of characters of [c]. *)
Theorem write_then_read (fs : filesystem) (path content : str) (d : dict) (w1 : world) :
  wf fs -> cr ∉ content ->
  write_file path content (quiet fs) = (inr d, w1) -> succeeded d ->
  d = written path content /\
  (read_file path w1).1
  = inr [(u "success", VBool true);
         (u "content", VStr content);
         (u "path", VStr (path_str (clean_path path)));
         (u "size", VInt (len content))].
Proof.
  intros Hwf Hcr Hrun Hok.
  destruct (write_file_success fs path content d w1 Hrun Hok)
    as (l & b0 & r & j & Hchk & Henc & Hw & Hr & -> & ->).
  split; [done|].
  set (fs1 := (mkdir_parents (path_parent (full_path path)) fs).2) in *.
  assert (He1 : extends fs fs1) by (by apply mkdir_parents_rev_extends).
  pose proof He1 as (Hwf1 & _).
  assert (Hl : fs1 !! l = None /\ (exists k c, l = k ++ [c] /\ good_dir fs1 k)
               \/ exists d0 d', fs1 !! l = Some (File d0) /\ File b0 = File d').
  { destruct Hr as [->|[d0 ->]].
    - left. eapply walk_absent; [done| |exact Hw]. by left.
    - right. exists d0, b0. split; [|done].
      by eapply (walk_at fs1 true l (File d0)). }
  assert (He2 : extends fs1 (<[l := File b0]> fs1))
    by (by apply extends_insert).
  pose proof (extends_trans _ _ _ He1 He2) as He.
  set (fs2 := <[l := File b0]> fs1) in *.
  assert (Hw2 : walk MAXSYMLINKS fs2 true [] (names (full_path path))
                = inr (At l (File b0))).
  { apply (walk_after_write fs1 l b0) with (r := r); [|done|done].
    destruct Hl as [[? _]|(d0 & _ & ? & _)]; eauto. }
  unfold containment_check in Hchk.
  destruct (realpath fs (names (full_path path))) as [rp|] eqn:Hrp; [|done].
  destruct (realpath fs (names CONFIG_BASE)) as [rb|] eqn:Hrb; [|done].
  apply (inj Some) in Hchk.
  apply (realpath_extends fs fs2) in Hrp, Hrb; try done.
  unfold read_file, try_except.
  fold (clean_path path). fold (full_path path).
  rewrite bind_prim_quiet, !resolve_quiet, Hrp. cbn [fst snd].
  rewrite bind_prim_quiet, !resolve_quiet, Hrb. cbn [fst snd].
  rewrite Hchk. cbn [negb].
  rewrite bind_prim_quiet. unfold exists_. rewrite !stat_test_quiet.
  unfold k_stat. rewrite Hw2. cbn [fst snd negb].
  rewrite bind_prim_quiet. unfold is_file. rewrite !stat_test_quiet.
  unfold k_stat. rewrite Hw2. cbn [fst snd negb].
  rewrite bind_prim_quiet. unfold read_text, k_read. rewrite Hw2.
  rewrite (decode_encode content b0 Henc). cbn [fst snd].
  rewrite universal_newlines_id by done.
  unfold bind, log, ret. reflexivity.
Qed.

Lemma wfb_wf (fs : filesystem) : wfb fs = true -> wf fs.
Proof.
  unfold wfb. rewrite forallb_forall. intros H k c n Hl.
  specialize (H (k ++ [c], n)). cbn [fst] in H.
  rewrite removelast_last in H.
  destruct k as [|x k]; [by left|]. right.
  assert (Hin : In ((x :: k) ++ [c], n) (map_to_list fs)).
  { apply list_elem_of_In. by apply elem_of_map_to_list. }
  specialize (H Hin). cbv beta iota in H.
  by apply bool_decide_eq_true in H.
Qed.

Lemma write_then_read_witness :
  wf fs0 /\ (cr ∉ u "hi") /\
  (write_file (u "a.txt") (u "hi") (quiet fs0)).1
    = inr (written (u "a.txt") (u "hi")) /\
  (read_file (u "a.txt")
     (write_file (u "a.txt") (u "hi") (quiet fs0)).2).1
  = inr [(u "success", VBool true);
         (u "content", VStr (u "hi"));
         (u "path", VStr (path_str (clean_path (u "a.txt"))));
         (u "size", VInt (len (u "hi")))].
Proof.
  assert (Hwf : wf fs0) by (apply wfb_wf; vm_compute; reflexivity).
  assert (Hcr : cr ∉ (u "hi")).
  { intros H. apply list_elem_of_In in H. vm_compute in H.
    destruct H as [H|[H|[]]]; discriminate. }
  assert (Hrun : (write_file (u "a.txt") (u "hi") (quiet fs0)).1
                 = inr (written (u "a.txt") (u "hi")))
    by (vm_compute; reflexivity).
  split; [exact Hwf|]. split; [exact Hcr|]. split; [exact Hrun|].
  apply (write_then_read fs0 (u "a.txt") (u "hi")
           (written (u "a.txt") (u "hi"))
           (write_file (u "a.txt") (u "hi") (quiet fs0)).2 Hwf Hcr).
  - apply run_pair. exact Hrun.
  - reflexivity.
Defined.

(** C3 as stated fails for a content with a carriage return: the text
    layer turns ["\r\n"] into ["\n"] on reading, so ["a\r\nb"], written
    with size 4, is read back as ["a\nb"] with size 3. *)
Lemma carriage_return_not_preserved :
  (write_file (u "a.txt") [97; 13; 10; 98] (quiet fs0)).1
    = inr [(u "success", VBool true); (u "path", VStr (u "a.txt"));
           (u "size", VInt 4)] /\
  (read_file (u "a.txt")
     (write_file (u "a.txt") [97; 13; 10; 98] (quiet fs0)).2).1
    = inr [(u "success", VBool true); (u "content", VStr [97; 10; 98]);
           (u "path", VStr (u "a.txt")); (u "size", VInt 3)].
Proof. split; vm_compute; reflexivity. Qed.

(** ** Requests that go up again *)

Section Skip.

Context (fs : filesystem) (ds : list str) (a : str).
Context (Hp : Forall proper (ds ++ [a])).
Context (Hd : dirs_along fs [] (ds ++ [a])).

Lemma skip_proper_ds : Forall proper ds.
Proof using Hp. by apply Forall_app in Hp as [? _]. Qed.

Lemma skip_dirs_ds : dirs_along fs [] ds.
Proof using Hd. by apply dirs_along_app in Hd as [? _]. Qed.

(** Going into the directory [a] and back with [".."] is a detour the
    walk does not notice. *)
Lemma walk_skip (fuel : nat) (b : bool) (rest : list str) :
  walk fuel fs b [] (ds ++ a :: dotdot :: rest)
  = walk fuel fs b [] (ds ++ rest).
Proof using Hp Hd.
  replace (ds ++ a :: dotdot :: rest) with ((ds ++ [a]) ++ dotdot :: rest)
    by (by rewrite <- app_assoc).
  rewrite !walk_along; try done; [|apply skip_proper_ds|apply skip_dirs_ds].
  rewrite walk_dotdot, !app_nil_l. unfold parent.
  by rewrite removelast_last.
Qed.

Lemma lstat_dir (ns : list str) :
  Forall proper ns -> dirs_along fs [] ns -> ns <> [] ->
  k_lstat fs ns = inr Dir.
Proof. intros H1 H2 _. unfold k_lstat. by rewrite walk_to_dir. Qed.

Lemma joinrealpath_along (f : nat) (seen : list loc) (rest : list str)
    (es : list str) :
  forall (done : list str),
    Forall proper (done ++ es) -> dirs_along fs [] (done ++ es) ->
    joinrealpath f fs seen done (es ++ rest)
    = joinrealpath f fs seen (done ++ es) rest.
Proof.
  induction es as [|e es IH]; intros done H1 H2.
  { by rewrite app_nil_r. }
  assert (He : proper e).
  { apply Forall_app in H1 as [_ H1]. by apply Forall_cons in H1 as [? _]. }
  cbn [app]. rewrite joinrealpath_cons.
  destruct He as (E1 & E2 & E3).
  rewrite decide_False by (by intros [?|?]). rewrite decide_False by done.
  rewrite lstat_dir.
  - replace (done ++ e :: es) with ((done ++ [e]) ++ es)
      by (by rewrite <- app_assoc).
    apply IH; by rewrite <- app_assoc.
  - apply Forall_app. apply Forall_app in H1 as [? H1].
    apply Forall_cons in H1 as [? _]. split; [done|by constructor].
  - replace (done ++ e :: es) with ((done ++ [e]) ++ es) in H2
      by (by rewrite <- app_assoc).
    by apply dirs_along_app in H2 as [? _].
  - by destruct done.
Qed.

Lemma realpath_skip (rest : list str) :
  realpath fs (ds ++ a :: dotdot :: rest) = realpath fs (ds ++ rest).
Proof using Hp Hd.
  unfold realpath.
  replace (ds ++ a :: dotdot :: rest) with ((ds ++ [a]) ++ dotdot :: rest)
    by (by rewrite <- app_assoc).
  rewrite (joinrealpath_along _ _ _ (ds ++ [a]) []) by done.
  rewrite (joinrealpath_along _ _ _ ds []);
    [|apply skip_proper_ds|apply skip_dirs_ds].
  rewrite joinrealpath_cons. cbn [app].
  rewrite decide_False by (by intros [?|?]).
  rewrite decide_True by done. rewrite ?app_nil_l.
  unfold parent. by rewrite removelast_last.
Qed.

End Skip.

Lemma full_path_names (path : str) :
  full_path path = {| absolute := true; parts := names (full_path path) |}.
Proof. by rewrite full_path_parts. Qed.

Ltac both_fail :=
  cbn [is_Exception cls fst snd]; unfold bind, log, ret; cbn [fst snd files];
  split; [reflexivity|];
  eexists _, _; split; [reflexivity|]; split; [reflexivity|];
  let H := fresh in
  intros [H|H]; by apply failure_not_succeeded in H.

Section Traversal.

Context (fs : filesystem) (ds : list str) (a : str) (rest : list str).
Context (p q : str).
Context (Hp : Forall proper (ds ++ [a])).
Context (Hd : dirs_along fs [] (ds ++ [a])).
Context (Hnp : names (full_path p) = ds ++ a :: dotdot :: rest).
Context (Hnq : names (full_path q) = ds ++ rest).

Lemma read_file_traversal :
  same_but_path (path_str (clean_path p))
    (read_file q (quiet fs)) (read_file p (quiet fs)).
Proof using Hp Hd Hnp Hnq.
  unfold same_but_path, read_file, try_except, quiet.
  fold (clean_path p) (clean_path q). fold (full_path p) (full_path q).
  rewrite (full_path_names p), (full_path_names q), Hnp, Hnq.
  rewrite !bind_prim_quiet, !resolve_quiet. unfold names. cbn [parts].
  rewrite (realpath_skip fs ds a Hp Hd). cbn [fst snd].
  destruct (realpath fs (ds ++ rest)) as [r|]; [|both_fail].
  rewrite !bind_prim_quiet, !resolve_quiet. cbn [fst snd].
  destruct (realpath fs (names CONFIG_BASE)) as [b|]; [|both_fail].
  destruct (startswith _ _); cbn [negb]; [|both_fail].
  rewrite !bind_prim_quiet. unfold exists_. rewrite !stat_test_quiet.
  unfold k_stat, names. cbn [parts fst snd].
  rewrite (walk_skip fs ds a Hp Hd).
  destruct (walk MAXSYMLINKS fs true [] (ds ++ rest)) as [e|[l n|l]] eqn:Hw;
    cbn [negb]; try both_fail.
  rewrite !bind_prim_quiet. unfold is_file. rewrite !stat_test_quiet.
  unfold k_stat, names. cbn [parts fst snd].
  rewrite (walk_skip fs ds a Hp Hd), Hw.
  destruct n; cbn [negb]; try both_fail.
  rewrite !bind_prim_quiet. unfold read_text, k_read, names. cbn [parts].
  rewrite (walk_skip fs ds a Hp Hd), Hw.
  destruct (decode data) as [s|]; cbn [fst snd]; [|both_fail].
  unfold bind, log, ret. cbn [fst snd files].
  split; [reflexivity|]. eexists _, _. split; [reflexivity|].
  split; [reflexivity|]. intros _. reflexivity.
Qed.

Lemma entry_traversal (c : str) :
  entry_of fs (child_path {| absolute := true;
                             parts := ds ++ a :: dotdot :: rest |} c)
  = entry_of fs (child_path {| absolute := true; parts := ds ++ rest |} c).
Proof using Hp Hd.
  unfold entry_of, child_path, path_name, k_stat, names. cbn [parts].
  rewrite !last_last.
  replace ((ds ++ a :: dotdot :: rest) ++ [c])
    with (ds ++ a :: dotdot :: (rest ++ [c]))
    by (by rewrite <- !app_assoc).
  rewrite (walk_skip fs ds a Hp Hd). by rewrite <- !app_assoc.
Qed.

Lemma str_lt_unique (l1 l2 : list str) :
  StronglySorted str_lt l1 -> StronglySorted str_lt l2 -> l1 ≡ₚ l2 ->
  l1 = l2.
Proof.
  apply StronglySorted_unique_strong. intros x1 x2 _ _ H1 H2.
  unfold str_lt in *. by rewrite (ltb_asym x1 x2) in H2.
Qed.

Lemma entries_traversal (cs : list str) :
  NoDup cs ->
  entry_of fs <$> sorted (child_path {| absolute := true;
                            parts := ds ++ a :: dotdot :: rest |} <$> cs)
  = entry_of fs <$> sorted (child_path {| absolute := true;
                              parts := ds ++ rest |} <$> cs).
Proof using Hp Hd.
  intros Hnd.
  destruct (sorted_children {| absolute := true;
              parts := ds ++ a :: dotdot :: rest |} cs Hnd)
    as (n1 & -> & Hp1 & Hs1).
  destruct (sorted_children {| absolute := true; parts := ds ++ rest |}
              cs Hnd) as (n2 & -> & Hp2 & Hs2).
  assert (n1 = n2) as ->.
  { apply str_lt_unique; [done|done|]. by rewrite Hp1, Hp2. }
  rewrite <- !list_fmap_compose. apply list_fmap_ext.
  intros i c _. apply entry_traversal.
Qed.

Lemma is_part_proper_head (x : str) (l : list str) :
  is_part x = true -> join_slash (x :: l) <> dot.
Proof.
  unfold is_part. rewrite andb_true_iff, !negb_true_iff.
  intros [H1 H2]. apply bool_decide_eq_false in H1, H2.
  destruct l as [|y l]; [done|]. cbn [join_slash].
  destruct x as [|c [|c' x]]; done.
Qed.

Lemma clean_path_not_dot (path : str) :
  parts (clean_path path) <> [] -> path_str (clean_path path) <> dot.
Proof.
  unfold path_str, clean_path, mkPath. cbn [absolute parts].
  rewrite lstrip_not_abs.
  destruct (List.filter is_part (split_slash (lstrip_slash path)))
    as [|x l] eqn:Hf; [done|]. intros _.
  apply is_part_proper_head.
  assert (Hin : In x (List.filter is_part (split_slash (lstrip_slash path))))
    by (rewrite Hf; by left).
  by apply filter_In in Hin as [_ ?].
Qed.

End Traversal.

Lemma walk_absent_free (fs : filesystem) (b : bool) (l : list str) :
  forall (fuel : nat) (ns : list str) (cur : list str),
    walk fuel fs b cur ns = inr (Absent l) -> fs !! l = None.
Proof.
  induction fuel as [|fuel IHf];
    (induction ns as [|c rest IH]; intros cur; [by rewrite walk_nil|]).
  all: rewrite walk_cons.
  all: destruct (decide (c = [] \/ c = dot)); [by apply IH|].
  all: destruct (decide (c = dotdot)); [by apply IH|].
  all: destruct (fs !! (cur ++ [c])) as [[d| |t|]|] eqn:Hl.
  all: try (by apply IH).
  all: try (destruct (negb b && no_more rest); [done|]).
  all: try done.
  all: try (by apply IHf).
  all: destruct (no_more rest); [|done].
  all: try done.
  all: by intros [= <-].
Qed.

Lemma k_mkdir_keeps (fs fs' : filesystem) (ns : list str) :
  k_mkdir fs ns = inr fs' ->
  forall (k : list str) (n : node), fs !! k = Some n -> fs' !! k = Some n.
Proof.
  unfold k_mkdir.
  destruct (walk MAXSYMLINKS fs false [] ns) as [e|[l n|l]] eqn:Hw;
    try done.
  intros [= <-] k n Hk. apply walk_absent_free in Hw.
  rewrite lookup_insert_ne; [done|]. intros ->. congruence.
Qed.

Lemma dirs_along_keeps (fs fs' : filesystem) (ds : list str) :
  (forall (k : list str) (n : node),
     fs !! k = Some n -> fs' !! k = Some n) ->
  forall cur, dirs_along fs cur ds -> dirs_along fs' cur ds.
Proof.
  intros Hk. induction ds as [|d ds IH]; intros cur; cbn [dirs_along];
    [done|].
  intros [H0 H1]. split; [by apply Hk|by apply IH].
Qed.

Lemma mkdir_exist_ok_quiet (p : Path) (e : errno) (fs : filesystem) :
  mkdir_exist_ok p e fs =
  (match k_stat fs (names p) with
   | inr Dir => inr ()
   | _ => inl (os_error e p)
   end, fs).
Proof.
  unfold mkdir_exist_ok, is_dir. rewrite stat_test_quiet.
  by destruct (k_stat fs (names p)) as [|[]].
Qed.

Lemma mkdir_parents_skip (ds : list str) (a : str) (rest : list str) :
  Forall proper (ds ++ [a]) ->
  forall (fs : filesystem),
    dirs_along fs [] (ds ++ [a]) ->
    let r1 := mkdir_parents_rev true (rev (ds ++ a :: dotdot :: rest)) fs in
    let r2 := mkdir_parents_rev true (rev (ds ++ rest)) fs in
    r1.2 = r2.2 /\ same_outcome r2.1 r1.1 /\
    dirs_along r1.2 [] (ds ++ [a]).
Proof.
  intros Hp. induction rest as [|x rest IH] using rev_ind; intros fs Hd;
    cbn zeta.
  - rewrite !(mkdir_parents_rev_unfold true (rev _)). cbn zeta.
    unfold names. cbn [parts]. rewrite !rev_involutive.
    unfold k_mkdir. rewrite (walk_skip fs ds a Hp Hd).
    rewrite app_nil_r, walk_to_dir;
      [|by apply (skip_proper_ds ds a)|by apply (skip_dirs_ds fs ds a)].
    rewrite !mkdir_exist_ok_quiet. unfold k_stat, names. cbn [parts].
    rewrite (walk_skip fs ds a Hp Hd).
    rewrite app_nil_r, walk_to_dir;
      [|by apply (skip_proper_ds ds a)|by apply (skip_dirs_ds fs ds a)].
    done.
  - replace (ds ++ a :: dotdot :: rest ++ [x])
      with ((ds ++ a :: dotdot :: rest) ++ [x])
      by (by rewrite <- app_assoc).
    replace (ds ++ rest ++ [x]) with ((ds ++ rest) ++ [x])
      by (by rewrite <- app_assoc).
    rewrite !rev_unit.
    rewrite !(mkdir_parents_rev_unfold true (x :: _)). cbn zeta.
    unfold names. cbn [parts rev]. rewrite !rev_involutive.
    rewrite <- !app_assoc. cbn [app].
    assert (Hk : forall fs', dirs_along fs' [] (ds ++ [a]) ->
              k_mkdir fs' (ds ++ a :: dotdot :: rest ++ [x])
              = k_mkdir fs' (ds ++ rest ++ [x])).
    { intros fs' Hd'. unfold k_mkdir. by rewrite (walk_skip fs' ds a Hp Hd'). }
    assert (Hs : forall fs', dirs_along fs' [] (ds ++ [a]) ->
              k_stat fs' (ds ++ a :: dotdot :: rest ++ [x])
              = k_stat fs' (ds ++ rest ++ [x])).
    { intros fs' Hd'. unfold k_stat. by rewrite (walk_skip fs' ds a Hp Hd'). }
    rewrite (Hk fs Hd).
    destruct (k_mkdir fs (ds ++ rest ++ [x])) as [e|fs'] eqn:Hm.
    2:{ cbn [fst snd]. split_and!; try done.
        eapply dirs_along_keeps; [|exact Hd]. by eapply k_mkdir_keeps. }
    assert (Hother : forall e0 fs',
              dirs_along fs' [] (ds ++ [a]) ->
              let p1 := {| absolute := true;
                           parts := ds ++ a :: dotdot :: rest ++ [x] |} in
              let p2 := {| absolute := true; parts := ds ++ rest ++ [x] |} in
              (mkdir_exist_ok p1 e0 fs').2 = (mkdir_exist_ok p2 e0 fs').2 /\
              same_outcome (mkdir_exist_ok p2 e0 fs').1
                           (mkdir_exist_ok p1 e0 fs').1 /\
              dirs_along (mkdir_exist_ok p1 e0 fs').2 [] (ds ++ [a])).
    { intros e0 fs' Hd'. cbn zeta. rewrite !mkdir_exist_ok_quiet.
      unfold names. cbn [parts fst snd]. rewrite (Hs fs' Hd').
      split_and!; try done.
      by destruct (k_stat fs' (ds ++ rest ++ [x])) as [|[]]. }
    destruct e; try (by apply Hother).
    specialize (IH fs Hd). cbn zeta in IH. destruct IH as (IH1 & IH2 & IH3).
    destruct (mkdir_parents_rev true (rev (ds ++ a :: dotdot :: rest)) fs)
      as [[e1|[]] fs1];
      destruct (mkdir_parents_rev true (rev (ds ++ rest)) fs)
        as [[e2|[]] fs2]; cbn [fst snd] in *; try done.
    subst fs2. rewrite (Hk fs1 IH3).
    destruct (k_mkdir fs1 (ds ++ rest ++ [x])) as [e|fs'] eqn:Hm1.
    2:{ cbn [fst snd]. split_and!; try done.
        eapply dirs_along_keeps; [|exact IH3]. by eapply k_mkdir_keeps. }
    destruct e; try (by apply Hother). done.
Qed.

Lemma bind_list_entries_quiet {B : Type} (fs : filesystem)
    (items : list Path) (k : list dict -> M B) (j : list event) :
  exists j',
    bind (list_entries items []) k
      {| files := fs; faults := []; journal := j |}
    = k (entry_of fs <$> items)
        {| files := fs; faults := []; journal := j' |}.
Proof.
  destruct (list_entries_quiet fs items [] j) as [j' H].
  exists j'. unfold bind. by rewrite H.
Qed.

Section TraversalMkdir.

Context (fs : filesystem) (ds : list str) (a : str) (rest : list str).
Context (p q : str).
Context (Hp : Forall proper (ds ++ [a])).
Context (Hd : dirs_along fs [] (ds ++ [a])).
Context (Hnp : names (full_path p) = ds ++ a :: dotdot :: rest).
Context (Hnq : names (full_path q) = ds ++ rest).

Lemma traversal_parts_nonempty : parts (clean_path p) <> [].
Proof using Hnp.
  intros H. rewrite full_path_parts in Hnp. unfold names in Hnp.
  cbn [parts] in Hnp. rewrite H in Hnp.
  apply (f_equal length) in Hnp. rewrite length_app in Hnp.
  simpl in Hnp. lia.
Qed.

Lemma list_directory_traversal :
  same_but_path (path_str (clean_path p))
    (list_directory q (quiet fs)) (list_directory p (quiet fs)).
Proof using Hp Hd Hnp Hnq.
  unfold same_but_path, list_directory, try_except, quiet.
  rewrite !list_clean. fold (full_path p) (full_path q).
  rewrite (full_path_names p), (full_path_names q), Hnp, Hnq.
  rewrite !bind_prim_quiet, !resolve_quiet. unfold names. cbn [parts].
  rewrite (realpath_skip fs ds a Hp Hd). cbn [fst snd].
  destruct (realpath fs (ds ++ rest)) as [r|]; [|both_fail].
  rewrite !bind_prim_quiet, !resolve_quiet. cbn [fst snd].
  destruct (realpath fs (names CONFIG_BASE)) as [b|]; [|both_fail].
  destruct (startswith _ _); cbn [negb]; [|both_fail].
  rewrite !bind_prim_quiet. unfold exists_. rewrite !stat_test_quiet.
  unfold k_stat, names. cbn [parts fst snd].
  rewrite (walk_skip fs ds a Hp Hd).
  destruct (walk MAXSYMLINKS fs true [] (ds ++ rest)) as [e|[l n|l]] eqn:Hw;
    cbn [negb]; try both_fail.
  rewrite !bind_prim_quiet. unfold is_dir. rewrite !stat_test_quiet.
  unfold k_stat, names. cbn [parts fst snd].
  rewrite (walk_skip fs ds a Hp Hd), Hw.
  destruct n; cbn [negb]; try both_fail.
  rewrite !bind_prim_quiet. unfold iterdir, k_listdir, names. cbn [parts].
  rewrite (walk_skip fs ds a Hp Hd), Hw. cbn [fst snd absolute].
  match goal with
  | |- context [bind (list_entries ?items []) ?k
                  {| files := fs; faults := []; journal := ?j |}] =>
      destruct (bind_list_entries_quiet fs items k j) as [j1 ->]
  end.
  match goal with
  | |- context [bind (list_entries ?items []) ?k
                  {| files := fs; faults := []; journal := ?j |}] =>
      destruct (bind_list_entries_quiet fs items k j) as [j2 ->]
  end.
  unfold bind, log, ret. cbn [fst snd files app].
  fold (child_path {| absolute := true;
                      parts := ds ++ a :: dotdot :: rest |}).
  fold (child_path {| absolute := true; parts := ds ++ rest |}).
  rewrite (entries_traversal fs ds a rest Hp Hd) by apply NoDup_children.
  rewrite (decide_False (P := path_str (clean_path p) = dot))
    by (apply clean_path_not_dot, traversal_parts_nonempty).
  split; [reflexivity|]. eexists _, _. split; [reflexivity|].
  split; [reflexivity|]. intros _. reflexivity.
Qed.

Lemma write_file_traversal (content : str) :
  same_but_path (path_str (clean_path p))
    (write_file q content (quiet fs)) (write_file p content (quiet fs)).
Proof using Hp Hd Hnp Hnq.
  unfold same_but_path, write_file, try_except, quiet.
  fold (clean_path p) (clean_path q). fold (full_path p) (full_path q).
  rewrite (full_path_names p), (full_path_names q), Hnp, Hnq.
  rewrite !bind_prim_quiet, !resolve_quiet. unfold names. cbn [parts].
  rewrite (realpath_skip fs ds a Hp Hd). cbn [fst snd].
  destruct (realpath fs (ds ++ rest)) as [r|]; [|both_fail].
  rewrite !bind_prim_quiet, !resolve_quiet. cbn [fst snd].
  destruct (realpath fs (names CONFIG_BASE)) as [b|]; [|both_fail].
  destruct (startswith _ _); cbn [negb]; [|both_fail].
  rewrite !bind_prim_quiet. unfold mkdir_parents, path_parent.
  cbn [absolute parts].
  pose proof (skip_proper_ds ds a Hp) as Hpd.
  pose proof (skip_dirs_ds fs ds a Hd) as Hdd.
  destruct rest as [|f rest' _] using rev_ind.
  - (* the request is the directory itself *)
    rewrite app_nil_r.
    assert (removelast (ds ++ [a; dotdot]) = ds ++ [a]) as ->.
    { replace (ds ++ [a; dotdot]) with ((ds ++ [a]) ++ [dotdot])
        by (by rewrite <- app_assoc).
      by rewrite removelast_last. }
    assert (mkdir_parents_rev true (rev (ds ++ [a])) fs = (inr (), fs)) as ->.
    { pose proof (mkdir_parents_along true [] (ds ++ [a]) fs) as H.
      rewrite app_nil_r in H. by apply H. }
    assert (mkdir_parents_rev true (rev (removelast ds)) fs = (inr (), fs))
      as ->.
    { pose proof (mkdir_parents_along true [] (removelast ds) fs) as H.
      rewrite app_nil_r in H. apply H; [| |done].
      - rewrite removelast_firstn_len. by apply Forall_take.
      - rewrite removelast_firstn_len. by apply dirs_along_take. }
    cbn [fst snd].
    unfold write_text, k_open_trunc, names.
    cbn [parts].
    pose proof (walk_skip fs ds a Hp Hd MAXSYMLINKS true []) as Hw.
    rewrite app_nil_r in Hw. rewrite Hw, walk_to_dir by done.
    both_fail.
  - replace (ds ++ a :: dotdot :: rest' ++ [f])
      with ((ds ++ a :: dotdot :: rest') ++ [f])
      by (by rewrite <- app_assoc).
    replace (ds ++ rest' ++ [f]) with ((ds ++ rest') ++ [f])
      by (by rewrite <- app_assoc).
    rewrite !removelast_last.
    destruct (mkdir_parents_skip ds a rest' Hp fs Hd) as (H1 & H2 & H3).
    destruct (mkdir_parents_rev true (rev (ds ++ a :: dotdot :: rest')) fs)
      as [[e1|[]] fs1] eqn:Hm1;
      destruct (mkdir_parents_rev true (rev (ds ++ rest')) fs)
        as [[e2|[]] fs2] eqn:Hm2; cbn [fst snd] in *; try done; subst fs2.
    { assert (is_Exception (cls e1) = true) as ->.
      { pose proof (sound_mkdir_parents_rev caught (fun _ _ => eq_refl)
                      true (rev (ds ++ a :: dotdot :: rest')) fs) as H.
        by rewrite Hm1 in H. }
      assert (is_Exception (cls e2) = true) as ->.
      { pose proof (sound_mkdir_parents_rev caught (fun _ _ => eq_refl)
                      true (rev (ds ++ rest')) fs) as H.
        by rewrite Hm2 in H. }
      both_fail. }
    unfold write_text, k_open_trunc, names.
    cbn [parts]. rewrite <- !app_assoc. cbn [app].
    rewrite (walk_skip fs1 ds a Hp H3).
    destruct (walk MAXSYMLINKS fs1 true [] (ds ++ rest' ++ [f]))
      as [e|[l [d0| | |]|l]]; cbn [fst snd]; try both_fail.
    + destruct (encode content); cbn [fst snd]; [|both_fail].
      unfold bind, log, ret. cbn [fst snd files].
      split; [reflexivity|]. eexists _, _. split; [reflexivity|].
      split; [reflexivity|]. intros _. reflexivity.
    + destruct (encode content); cbn [fst snd]; [|both_fail].
      unfold bind, log, ret. cbn [fst snd files].
      split; [reflexivity|]. eexists _, _. split; [reflexivity|].
      split; [reflexivity|]. intros _. reflexivity.
Qed.

End TraversalMkdir.




(** * Further properties *)

(** ** The lookup and [resolve()] agree *)

Lemma walk_more_fuel (fs : filesystem) (b : bool) (f : nat) :
  forall (f' : nat) (ns : list str) (cur : list str) (r : walked),
    (f <= f')%nat ->
    walk f fs b cur ns = inr r -> walk f' fs b cur ns = inr r.
Proof.
  induction f as [|f IHf]; intros f' ns;
    (induction ns as [|c rest IH]; intros cur r Hle;
     [by rewrite !walk_nil|]).
  all: rewrite !walk_cons.
  all: repeat case_decide; [by apply IH|by apply IH|].
  all: destruct (fs !! (cur ++ [c])) as [[d| |t|]|]; try done;
    try (by apply IH).
  all: destruct (negb b && no_more rest); try done.
  destruct f'; [lia|]. apply IHf. lia.
Qed.

Lemma chain_nil (fs : filesystem) : chain fs [].
Proof. by split. Qed.

Lemma chain_snoc (fs : filesystem) (cur : list str) (c : str) :
  chain fs cur -> proper c -> fs !! (cur ++ [c]) = Some Dir ->
  chain fs (cur ++ [c]).
Proof.
  intros [Hp Hd] Hc Hl. split.
  - apply Forall_app. split; [done|by constructor].
  - apply dirs_along_app. split; [done|]. by split.
Qed.

Lemma chain_parent (fs : filesystem) (cur : list str) :
  chain fs cur -> chain fs (parent cur).
Proof.
  unfold parent. destruct cur as [|c cur _] using rev_ind; [done|].
  rewrite removelast_last. intros [Hp Hd]. split.
  - by apply Forall_app in Hp as [? _].
  - by apply dirs_along_app in Hd as [? _].
Qed.

Lemma proper_intro (c : str) :
  ~ (c = [] \/ c = dot) -> c <> dotdot -> proper c.
Proof. intros H1 H2. split_and!; [|  |done]; intros ->; apply H1; auto. Qed.

(** Where a walk that started on a chain of directories ends. *)
Lemma walk_ends (fs : filesystem) (b : bool) (fuel : nat) :
  forall (ns : list str) (cur : list str) (r : walked),
    chain fs cur -> walk fuel fs b cur ns = inr r ->
    match r with
    | At l Dir => chain fs l
    | At l n => exists k c, l = k ++ [c] /\ chain fs k /\ proper c
                            /\ fs !! l = Some n
    | Absent l => exists k c, l = k ++ [c] /\ chain fs k /\ proper c
                              /\ fs !! l = None
    end.
Proof.
  induction fuel as [|fuel IHf]; intros ns;
    (induction ns as [|c rest IH]; intros cur r Hc;
     [rewrite walk_nil; by intros [= <-]|]).
  all: rewrite walk_cons.
  all: destruct (decide (c = [] \/ c = dot)) as [|H1]; [by apply IH|].
  all: destruct (decide (c = dotdot)) as [|H2];
    [by apply IH, chain_parent|].
  all: pose proof (proper_intro c H1 H2) as Hpc.
  all: destruct (fs !! (cur ++ [c])) as [[d| |t|]|] eqn:Hl.
  all: try (apply IH; by apply chain_snoc).
  all: try (destruct (negb b && no_more rest);
            [intros [= <-]; by exists cur, c|]).
  all: try done.
  all: try (apply IHf; destruct (isabs t); [apply chain_nil|done]).
  all: destruct (no_more rest); [|done].
  all: intros [= <-]; by exists cur, c.
Qed.

(** A walk along [a ++ b] is a walk along [a], to a directory, and a walk
    along [b] from there. *)
Lemma walk_app_inv (fs : filesystem) (b : list str) (r : walked)
    (fuel : nat) :
  b <> [] ->
  forall (a : list str) (cur : list str),
    walk fuel fs true cur (a ++ b) = inr r ->
    exists l, walk fuel fs true cur a = inr (At l Dir)
              /\ walk fuel fs true l b = inr r.
Proof.
  intros Hb. induction fuel as [|fuel IHf]; intros a;
    (induction a as [|c rest IH]; intros cur;
     [rewrite walk_nil; intros Hw0; by exists cur|]).
  all: cbn [app]; rewrite !walk_cons.
  all: repeat case_decide; [by apply IH|by apply IH|].
  all: assert (Hnm : no_more (rest ++ b) = false)
    by (destruct rest, b; done).
  all: rewrite Hnm.
  all: destruct (fs !! (cur ++ [c])) as [[d| |t|]|]; try done.
  all: try (by apply IH).
  cbn [negb andb]. rewrite app_assoc. intros Hw0.
  apply IHf in Hw0 as (l & H1 & H2). exists l. split; [done|].
  apply (walk_more_fuel fs true fuel); [lia|done].
Qed.

(** The least number of links with which a walk gets through. *)
Lemma walk_min_fuel (fs : filesystem) (cur : list str) (ns : list str)
    (r : walked) (f : nat) :
  walk f fs true cur ns = inr r ->
  exists m, (m <= f)%nat /\ walk m fs true cur ns = inr r /\
            forall k r', (k < m)%nat -> walk k fs true cur ns <> inr r'.
Proof.
  induction f as [|f IH]; intros H.
  { exists 0%nat. split_and!; [done|done|]. intros; lia. }
  destruct (walk f fs true cur ns) as [e|r'] eqn:Hf.
  - exists (S f). split_and!; [done|done|].
    intros k r' Hk Hw.
    apply (walk_more_fuel fs true k f) in Hw; [|lia]. congruence.
  - pose proof (walk_more_fuel fs true f (S f) ns cur r' ltac:(lia) Hf).
    assert (r' = r) as -> by congruence.
    destruct (IH eq_refl) as (m & Hm & Hw & Hmin).
    exists m. split_and!; [lia|done|done].
Qed.

(** [lstat] of a name in a chain of directories is the entry itself. *)
Lemma lstat_in_chain (fs : filesystem) (cur : list str) (c : str) :
  chain fs cur -> proper c ->
  k_lstat fs (cur ++ [c]) =
  match fs !! (cur ++ [c]) with
  | Some n => inr n
  | None => inl ENOENT
  end.
Proof.
  intros [Hp Hd] Hc. unfold k_lstat.
  rewrite walk_to_last, walk_proper by done.
  destruct (fs !! (cur ++ [c])) as [[]|]; by rewrite ?walk_nil.
Qed.

(** Distinct entries of a tree are no more than its size. *)
Lemma entries_bounded (fs : filesystem) (seen : list (list str)) :
  NoDup seen -> (forall L, L ∈ seen -> is_Some (fs !! L)) ->
  (length seen <= size fs)%nat.
Proof.
  intros Hnd Hin. rewrite <- length_map_to_list.
  rewrite <- (length_fmap fst (map_to_list fs)).
  apply submseteq_length, NoDup_submseteq; [done|].
  intros L HL. destruct (Hin L HL) as [n Hn].
  apply list_elem_of_fmap. exists (L, n). split; [done|].
  by apply elem_of_map_to_list.
Qed.

(** Where the kernel's walk gets through, [posixpath._joinrealpath]
    arrives at the same location. *)
Lemma walk_joinrealpath (fs : filesystem) (F : nat) :
  forall (ns : list str) (cur : list str) (r : walked)
         (seen : list (list str)) (g : nat),
    chain fs cur -> walk F fs true cur ns = inr r ->
    unresolved fs F seen -> room fs g seen ->
    joinrealpath g fs seen cur ns = Some (walked_loc r).
Proof.
  induction F as [F IHF] using lt_wf_ind. intros ns.
  induction ns as [|name rest IH]; intros cur r seen g Hc Hw Hu Hroom.
  { rewrite walk_nil in Hw. injection Hw as <-.
    by rewrite joinrealpath_nil. }
  rewrite walk_cons in Hw. rewrite joinrealpath_cons.
  destruct (decide (name = [] \/ name = dot)) as [|H1]; [by apply IH|].
  destruct (decide (name = dotdot)) as [|H2];
    [by apply IH; [apply chain_parent|..]|].
  pose proof (proper_intro name H1 H2) as Hpn.
  rewrite (lstat_in_chain fs cur name Hc Hpn).
  destruct (fs !! (cur ++ [name])) as [[d| |t|]|] eqn:Hl.
  - destruct rest; [|done]. injection Hw as <-.
    by rewrite joinrealpath_nil.
  - apply IH; try done. by apply chain_snoc.
  - cbn [negb andb] in Hw. destruct F as [|f]; [done|].
    match type of Hw with
    | walk _ _ _ ?b _ = _ => set (base := b) in *
    end.
    assert (Hbase : chain fs base)
      by (subst base; destruct (isabs t); [apply chain_nil|done]).
    (* the target alone is walked through *)
    assert (Ht : exists r1,
               walk f fs true base (split_slash t) = inr r1 /\
               (rest = [] /\ r1 = r \/
                exists l, r1 = At l Dir /\ walk f fs true l rest = inr r)).
    { destruct rest as [|c rest'].
      - rewrite app_nil_r in Hw. exists r. split; [done|by left].
      - apply walk_app_inv in Hw as (l & Hw1 & Hw2); [|done].
        exists (At l Dir). split; [done|]. right. by exists l. }
    destruct Ht as (r1 & Hw1 & Hrest).
    assert (Hparent : parent (cur ++ [name]) = cur)
      by (unfold parent; by rewrite removelast_last).
    (* so the link is not one of those being resolved *)
    rewrite decide_False; last first.
    { intros Hin. apply (Hu (cur ++ [name]) t f r1 Hin Hl); [lia|].
      rewrite Hparent. exact Hw1. }
    assert (Hnd : NoDup ((cur ++ [name]) :: seen)).
    { destruct Hroom as (Hnd & _). constructor; [|done].
      intros Hin. apply (Hu (cur ++ [name]) t f r1 Hin Hl); [lia|].
      rewrite Hparent. exact Hw1. }
    assert (Hlinks : forall L, L ∈ (cur ++ [name]) :: seen ->
                               exists t', fs !! L = Some (Symlink t')).
    { intros L [->|HL]%elem_of_cons; [by exists t|].
      by apply Hroom. }
    assert (Hlen : (S (length seen) <= size fs)%nat).
    { apply (entries_bounded fs ((cur ++ [name]) :: seen) Hnd).
      intros L HL. destruct (Hlinks L HL) as [t' ->]. eauto. }
    destruct g as [|g'].
    { destruct Hroom as (_ & _ & Hs). lia. }
    assert (Hroom' : room fs g' ((cur ++ [name]) :: seen)).
    { split_and!; [done|done|]. destruct Hroom as (_ & _ & Hs).
      cbn [length]. lia. }
    destruct (walk_min_fuel fs base (split_slash t) r1 f Hw1)
      as (m & Hm & Hwm & Hmin).
    assert (Hu' : unresolved fs m ((cur ++ [name]) :: seen)).
    { intros L t' k r' [->|HL]%elem_of_cons HLt Hk.
      - assert (t' = t) as -> by congruence.
        rewrite Hparent. exact (Hmin k r' Hk).
      - apply (Hu L t' k r' HL HLt). lia. }
    rewrite (IHF m ltac:(lia) (split_slash t) base r1
               ((cur ++ [name]) :: seen) g' Hbase Hwm Hu' Hroom').
    destruct Hrest as [(-> & ->)|(l & -> & Hw2)].
    + by rewrite joinrealpath_nil.
    + cbn [walked_loc]. apply IH; try done.
      * exact (walk_ends fs true f (split_slash t) base (At l Dir)
                 Hbase Hw1).
      * apply (walk_more_fuel fs true f); [lia|done].
  - destruct rest; [|done]. injection Hw as <-.
    by rewrite joinrealpath_nil.
  - destruct rest; [|done]. injection Hw as <-.
    by rewrite joinrealpath_nil.
Qed.

Lemma walk_realpath (fs : filesystem) (ns : list str) (r : walked) :
  walk MAXSYMLINKS fs true [] ns = inr r ->
  realpath fs ns = Some (walked_loc r).
Proof.
  intros Hw. unfold realpath.
  apply (walk_joinrealpath fs MAXSYMLINKS ns [] r [] (S (size fs)));
    [apply chain_nil|done| |].
  - intros L t k r' HL. by apply elem_of_nil in HL.
  - split_and!; [constructor| |simpl; lia].
    intros L HL. by apply elem_of_nil in HL.
Qed.



(** ** What is served is what was checked *)

Lemma passed_check (fs : filesystem) (path : str) (l : list str) :
  passed fs path l -> containment_check fs (full_path path) = Some true.
Proof.
  intros (Hr & b & Hb & Hs). unfold containment_check.
  by rewrite Hr, Hb, Hs.
Qed.

Lemma read_file_checked (fs : filesystem) (path : str) :
  containment_check fs (full_path path) = Some true ->
  files (read_file path (quiet fs)).2 = fs /\
  (read_file path (quiet fs)).1 =
  inr (match k_stat fs (names (full_path path)) with
       | inr (File data) =>
           match decode data with
           | Some s => was_read path (universal_newlines s)
           | None => failure (u "'utf-8' codec can't decode bytes")
           end
       | inr _ => failure (u "Not a file: " ++ path)
       | inl _ => failure (u "File not found: " ++ path)
       end).
Proof.
  unfold containment_check.
  destruct (realpath fs (names (full_path path))) as [r|] eqn:Hr; [|done].
  destruct (realpath fs (names CONFIG_BASE)) as [b|] eqn:Hb; [|done].
  intros Hc. apply (inj Some) in Hc.
  apply resolve_some in Hr, Hb.
  unfold read_file, try_except, quiet.
  fold (clean_path path). fold (full_path path).
  rewrite !bind_prim_quiet, Hr. cbn [fst snd].
  rewrite !bind_prim_quiet, Hb. cbn [fst snd]. rewrite Hc. cbn [negb].
  rewrite !bind_prim_quiet. unfold exists_. rewrite stat_test_quiet.
  cbn [fst snd].
  destruct (k_stat fs _) as [e|n] eqn:Hs; [done|].
  cbn [negb]. rewrite !bind_prim_quiet.
  unfold is_file. rewrite !stat_test_quiet, Hs.
  destruct n; try done. cbn [fst snd negb].
  rewrite !bind_prim_quiet. unfold read_text, k_read.
  unfold k_stat in Hs.
  destruct (walk MAXSYMLINKS fs true [] (names (full_path path)))
    as [e|[l n|l]]; try done.
  injection Hs as ->. by destruct (decode data).
Qed.

(** The security check passed whenever a tool reports a success. *)
Lemma read_file_success_checked (fs : filesystem) (path : str) (d : dict) :
  (read_file path (quiet fs)).1 = inr d -> succeeded d ->
  containment_check fs (full_path path) = Some true.
Proof.
  unfold read_file, try_except, quiet, containment_check.
  fold (clean_path path). fold (full_path path).
  rewrite bind_prim_quiet, !resolve_quiet. cbn [fst snd].
  destruct (realpath fs (names (full_path path))) as [r|] eqn:Hr.
  2:{ cbn [is_Exception cls]. unfold bind, log, ret. cbn [fst].
      intros [= <-]. by intros []%failure_not_succeeded. }
  rewrite bind_prim_quiet, !resolve_quiet. cbn [fst snd].
  destruct (realpath fs (names CONFIG_BASE)) as [b|] eqn:Hb.
  2:{ cbn [is_Exception cls]. unfold bind, log, ret. cbn [fst].
      intros [= <-]. by intros []%failure_not_succeeded. }
  destruct (startswith _ _) eqn:Hc; cbn [negb]; [done|].
  unfold ret. cbn [fst]. intros [= <-]. by intros []%failure_not_succeeded.
Qed.

Lemma read_file_success_inv (fs : filesystem) (path : str) (d : dict) :
  (read_file path (quiet fs)).1 = inr d -> succeeded d ->
  containment_check fs (full_path path) = Some true /\
  exists data s,
    k_stat fs (names (full_path path)) = inr (File data) /\
    decode data = Some s /\
    d = was_read path (universal_newlines s).
Proof.
  intros Hrun Hok.
  pose proof (read_file_success_checked fs path d Hrun Hok) as Hc.
  split; [done|].
  destruct (read_file_checked fs path Hc) as [_ Hres].
  rewrite Hrun in Hres. injection Hres as ->.
  destruct (k_stat fs _) as [e|[data| | |]] eqn:Hs;
    try (by apply failure_not_succeeded in Hok).
  destruct (decode data) as [s|] eqn:Hd;
    [|by apply failure_not_succeeded in Hok].
  by exists data, s.
Qed.

(** X2. [read_file] succeeds exactly when the check passes and the full
    path leads to a regular file whose bytes are valid UTF-8; the result
    then holds the decoded text, its newlines translated, the cleaned path
    and the number of characters. *)
Theorem read_file_success_iff (fs : filesystem) (path : str) (d : dict) :
  (read_file path (quiet fs)).1 = inr d /\ succeeded d <->
  containment_check fs (full_path path) = Some true /\
  exists data s,
    k_stat fs (names (full_path path)) = inr (File data) /\
    decode data = Some s /\
    d = was_read path (universal_newlines s).
Proof.
  split.
  - intros [Hrun Hok]. by apply read_file_success_inv.
  - intros (Hc & data & s & Hs & Hd & ->).
    destruct (read_file_checked fs path Hc) as [_ Hres].
    by rewrite Hres, Hs, Hd.
Qed.

Lemma check_passed (fs : filesystem) (path : str) (l : list str) :
  containment_check fs (full_path path) = Some true ->
  realpath fs (names (full_path path)) = Some l ->
  passed fs path l.
Proof.
  unfold containment_check, passed. intros Hc Hr. rewrite Hr in Hc.
  split; [done|].
  destruct (realpath fs (names CONFIG_BASE)) as [b|]; [|done].
  exists b. split; [done|]. by injection Hc.
Qed.



(** ** Listing: when it succeeds *)

Lemma list_directory_checked (fs : filesystem) (path : str) :
  containment_check fs (full_path path) = Some true ->
  (list_directory path (quiet fs)).1 =
  inr (match walk MAXSYMLINKS fs true [] (names (full_path path)) with
       | inr (At l Dir) =>
           listing path
             (entry_of fs <$>
                sorted (child_path (full_path path) <$> children fs l))
       | inr (At _ _) => failure (u "Not a directory: " ++ path)
       | _ => failure (u "Directory not found: " ++ path)
       end).
Proof.
  unfold containment_check.
  destruct (realpath fs (names (full_path path))) as [r|] eqn:Hr; [|done].
  destruct (realpath fs (names CONFIG_BASE)) as [b|] eqn:Hb; [|done].
  intros Hc. apply (inj Some) in Hc.
  apply resolve_some in Hr, Hb.
  unfold list_directory, try_except, quiet.
  rewrite list_clean. fold (full_path path).
  rewrite !bind_prim_quiet, Hr. cbn [fst snd].
  rewrite !bind_prim_quiet, Hb. cbn [fst snd]. rewrite Hc. cbn [negb].
  rewrite !bind_prim_quiet. unfold exists_. rewrite stat_test_quiet.
  cbn [fst snd]. unfold k_stat.
  destruct (walk MAXSYMLINKS fs true [] (names (full_path path)))
    as [e|[l n|l]] eqn:Hw; cbn [negb]; try done.
  rewrite !bind_prim_quiet. unfold is_dir. rewrite !stat_test_quiet.
  cbn [fst snd]. unfold k_stat. rewrite Hw.
  destruct n; cbn [negb]; try done.
  rewrite bind_prim_quiet. unfold iterdir, k_listdir. rewrite Hw.
  cbn [fst snd].
  match goal with
  | |- context [bind (list_entries ?items []) ?k
                  {| files := fs; faults := []; journal := ?j |}] =>
      destruct (bind_list_entries_quiet fs items k j) as [j1 ->]
  end.
  reflexivity.
Qed.

Lemma list_directory_success_checked (fs : filesystem) (path : str)
    (d : dict) :
  (list_directory path (quiet fs)).1 = inr d -> succeeded d ->
  containment_check fs (full_path path) = Some true.
Proof.
  intros Hrun Hok.
  destruct (list_directory_success fs path d
              (list_directory path (quiet fs)).2) as (l & Hc & _);
    [by apply run_pair|done|done].
Qed.


(** ** What a write changes *)

Lemma grown_refl (fs : filesystem) : grown fs fs.
Proof. intros k. by left. Qed.

Lemma grown_trans (fs1 fs2 fs3 : filesystem) :
  grown fs1 fs2 -> grown fs2 fs3 -> grown fs1 fs3.
Proof.
  intros H12 H23 k.
  destruct (H12 k) as [E1|[N1 D1]], (H23 k) as [E2|[N2 D2]].
  - left. congruence.
  - right. split; congruence.
  - right. split; congruence.
  - congruence.
Qed.

Lemma k_mkdir_grown (fs fs' : filesystem) (ns : list str) :
  k_mkdir fs ns = inr fs' -> grown fs fs'.
Proof.
  unfold k_mkdir.
  destruct (walk MAXSYMLINKS fs false [] ns) as [e|[l n|l]] eqn:Hw;
    try done.
  intros [= <-] k. apply walk_absent_free in Hw.
  destruct (decide (l = k)) as [->|Hne].
  - right. by rewrite lookup_insert_eq.
  - left. by rewrite lookup_insert_ne.
Qed.

Lemma mkdir_parents_rev_grown (a : bool) (rp : list str) :
  forall (fs : filesystem), grown fs (mkdir_parents_rev a rp fs).2.
Proof.
  induction rp as [|c rp IH]; intros fs;
    rewrite mkdir_parents_rev_unfold; cbn zeta.
  - destruct (k_mkdir fs _) as [[]|fs'] eqn:Hk; cbn [snd];
      rewrite ?mkdir_exist_ok_files; try apply grown_refl.
    by apply (k_mkdir_grown fs fs' _ Hk).
  - destruct (k_mkdir fs _) as [[]|fs'] eqn:Hk; cbn [snd];
      rewrite ?mkdir_exist_ok_files; try apply grown_refl;
      [|by apply (k_mkdir_grown fs fs' _ Hk)].
    specialize (IH fs).
    destruct (mkdir_parents_rev a rp fs) as [[x|[]] fs1]; cbn [snd] in *;
      [done|].
    destruct (k_mkdir fs1 _) as [[]|fs2] eqn:Hk2; cbn [snd];
      rewrite ?mkdir_exist_ok_files; try done.
    eapply grown_trans; [exact IH|].
    by apply (k_mkdir_grown fs1 fs2 _ Hk2).
Qed.

(** X5. A successful [write_file] changes one entry of the tree, a regular
    file that was there or a free name, which now holds the UTF-8
    encoding of the content; besides, it only adds directories at free
    names. Nothing is removed and no other file is touched. *)
Theorem write_file_changes_one_file (fs : filesystem) (path content : str)
    (d : dict) (w1 : world) :
  write_file path content (quiet fs) = (inr d, w1) -> succeeded d ->
  exists (l : list str) (b : bytes),
    encode content = Some b /\
    (fs !! l = None \/ exists d0, fs !! l = Some (File d0)) /\
    files w1 !! l = Some (File b) /\
    forall k, k <> l ->
      files w1 !! k = fs !! k
      \/ fs !! k = None /\ files w1 !! k = Some Dir.
Proof.
  intros Hrun Hok.
  destruct (write_file_success fs path content d w1 Hrun Hok)
    as (l & b & r & j & _ & He & Hw & Hr & -> & _).
  pose proof (mkdir_parents_rev_grown
                (absolute (path_parent (full_path path)))
                (rev (parts (path_parent (full_path path)))) fs) as Hg.
  fold (mkdir_parents (path_parent (full_path path))) in Hg.
  set (fs1 := (mkdir_parents _ fs).2) in *.
  exists l, b. cbn [files]. split_and!; [done| | |].
  - destruct Hr as [->|[d0 ->]].
    + apply walk_absent_free in Hw.
      destruct (Hg l) as [<-|[? ?]]; [by left|congruence].
    + apply (walk_at fs1 true l (File d0)) in Hw as [Hl _]; [|done].
      destruct (Hg l) as [E|[? ?]]; [|congruence].
      right. exists d0. congruence.
  - apply lookup_insert_eq.
  - intros k Hk. rewrite lookup_insert_ne by done. apply Hg.
Qed.

Lemma write_file_changes_one_file_witness :
  exists (l : list str) (b : bytes),
    encode (u "x") = Some b /\
    (fs0 !! l = None \/ exists d0, fs0 !! l = Some (File d0)) /\
    files (write_file (u "a/b/c.txt") (u "x") (quiet fs0)).2 !! l
      = Some (File b) /\
    forall k, k <> l ->
      files (write_file (u "a/b/c.txt") (u "x") (quiet fs0)).2 !! k
        = fs0 !! k
      \/ fs0 !! k = None
         /\ files (write_file (u "a/b/c.txt") (u "x") (quiet fs0)).2 !! k
            = Some Dir.
Proof.
  apply (write_file_changes_one_file fs0 (u "a/b/c.txt") (u "x")
           (written (u "a/b/c.txt") (u "x"))).
  - apply run_pair. vm_compute. reflexivity.
  - reflexivity.
Defined.



(** ** What the security check accepts *)

Lemma startswith_upto_slash (p : str) :
  slash ∉ p ->
  forall (c x : str), startswith (c ++ slash :: x) p = startswith c p.
Proof.
  induction p as [|a p IH]; intros Hp c x; [by destruct c|].
  apply not_elem_of_cons in Hp as [Ha Hp].
  destruct c as [|b c]; cbn [app startswith].
  - by rewrite bool_decide_eq_false_2.
  - by rewrite IH.
Qed.

Lemma check_by_first_name (fs : filesystem) (path : str) (l : list str) :
  fs !! [config] = Some Dir ->
  realpath fs (names (full_path path)) = Some l ->
  containment_check fs (full_path path) = Some (first_name_fits l).
Proof.
  intros Hroot Hr. unfold containment_check.
  rewrite Hr, names_config_base, (realpath_root_dir fs Hroot).
  f_equal. unfold path_str. cbn [absolute parts join_slash startswith].
  rewrite bool_decide_eq_true_2 by done. cbn [andb].
  destruct l as [|c [|c' rest]]; [done|done|].
  cbn [first_name_fits]. apply startswith_upto_slash.
  intros H. apply list_elem_of_In in H. vm_compute in H.
  repeat (destruct H as [H|H]; [discriminate|]). done.
Qed.

Lemma read_file_not_denied (fs : filesystem) (path : str) :
  containment_check fs (full_path path) = Some true ->
  (read_file path (quiet fs)).1 <> inr (failure access_denied).
Proof.
  intros Hc. destruct (read_file_checked fs path Hc) as [_ ->].
  destruct (k_stat fs _) as [e|[data| | |]]; try discriminate.
  destruct (decode data); discriminate.
Qed.

Lemma list_directory_not_denied (fs : filesystem) (path : str) :
  containment_check fs (full_path path) = Some true ->
  (list_directory path (quiet fs)).1 <> inr (failure access_denied).
Proof.
  intros Hc. rewrite (list_directory_checked fs path Hc).
  destruct (walk _ _ _ _ _) as [e|[l [data| |t|]|l]]; discriminate.
Qed.

Lemma write_file_not_denied (fs : filesystem) (path content : str) :
  containment_check fs (full_path path) = Some true ->
  (write_file path content (quiet fs)).1 <> inr (failure access_denied).
Proof.
  unfold containment_check.
  destruct (realpath fs (names (full_path path))) as [r|] eqn:Hr; [|done].
  destruct (realpath fs (names CONFIG_BASE)) as [b|] eqn:Hb; [|done].
  intros Hc. apply (inj Some) in Hc.
  apply resolve_some in Hr, Hb.
  unfold write_file, try_except, quiet.
  fold (clean_path path). fold (full_path path).
  rewrite !bind_prim_quiet, Hr. cbn [fst snd].
  rewrite !bind_prim_quiet, Hb. cbn [fst snd]. rewrite Hc. cbn [negb].
  rewrite !bind_prim_quiet.
  assert (Hos : forall e p, caught_other (os_error e p)).
  { intros e p. split; [done|]. discriminate. }
  pose proof (sound_mkdir_parents_rev caught_other Hos
                (absolute (path_parent (full_path path)))
                (rev (parts (path_parent (full_path path)))) fs) as Hm.
  fold (mkdir_parents (path_parent (full_path path))) in Hm.
  destruct (mkdir_parents (path_parent (full_path path)) fs)
    as [[e|[]] fs1]; cbn [fst snd] in *.
  { destruct Hm as [-> Hm]. unfold bind, log, ret. cbn [fst].
    intros [= H]. done. }
  unfold write_text.
  destruct (k_open_trunc fs1 _) as [e|[l fs2]]; cbn [fst snd].
  { cbn [is_Exception cls]. unfold bind, log, ret. cbn [fst]. discriminate. }
  destruct (encode content); cbn [fst snd]; unfold bind, log, ret;
    cbn [fst is_Exception cls]; discriminate.
Qed.

(** X7. With [/config] a directory and a request that resolves to [l], a
    tool answers "Access denied" exactly when the first name of [l] does
    not start with the letters of ["config"] (or [l] is the root of the
    file system); the tree is then left as it was. *)
Theorem denied_iff_first_name_differs (fs : filesystem)
    (path content : str) (l : list str) :
  fs !! [config] = Some Dir ->
  realpath fs (names (full_path path)) = Some l ->
  ((read_file path (quiet fs)).1 = inr (failure access_denied)
     <-> first_name_fits l = false) /\
  ((write_file path content (quiet fs)).1 = inr (failure access_denied)
     <-> first_name_fits l = false) /\
  ((list_directory path (quiet fs)).1 = inr (failure access_denied)
     <-> first_name_fits l = false) /\
  (first_name_fits l = false ->
   files (read_file path (quiet fs)).2 = fs /\
   files (write_file path content (quiet fs)).2 = fs /\
   files (list_directory path (quiet fs)).2 = fs).
Proof.
  intros Hroot Hr.
  pose proof (check_by_first_name fs path l Hroot Hr) as Hc.
  destruct (first_name_fits l).
  - split_and!; try (split; [|done]); try done.
    + intros H. by apply read_file_not_denied in H.
    + intros H. by apply write_file_not_denied in H.
    + intros H. by apply list_directory_not_denied in H.
  - destruct (denied_stops_early fs path content Hc)
      as ((R1 & R2 & _) & (W1 & W2 & _) & (L1 & L2 & _)).
    split_and!; done.
Qed.

Lemma denied_iff_first_name_differs_witness :
  fs_links !! [config] = Some Dir /\
  realpath fs_links (names (full_path (u "out/passwd")))
    = Some [u "etc"; u "passwd"] /\
  ((read_file (u "out/passwd") (quiet fs_links)).1
     = inr (failure access_denied)
     <-> first_name_fits [u "etc"; u "passwd"] = false) /\
  ((write_file (u "out/passwd") (u "x") (quiet fs_links)).1
     = inr (failure access_denied)
     <-> first_name_fits [u "etc"; u "passwd"] = false) /\
  ((list_directory (u "out/passwd") (quiet fs_links)).1
     = inr (failure access_denied)
     <-> first_name_fits [u "etc"; u "passwd"] = false) /\
  (first_name_fits [u "etc"; u "passwd"] = false ->
   files (read_file (u "out/passwd") (quiet fs_links)).2 = fs_links /\
   files (write_file (u "out/passwd") (u "x") (quiet fs_links)).2
     = fs_links /\
   files (list_directory (u "out/passwd") (quiet fs_links)).2 = fs_links).
Proof.
  assert (H1 : fs_links !! [config] = Some Dir)
    by (vm_compute; reflexivity).
  assert (H2 : realpath fs_links (names (full_path (u "out/passwd")))
               = Some [u "etc"; u "passwd"]) by (vm_compute; reflexivity).
  split; [exact H1|]. split; [exact H2|].
  exact (denied_iff_first_name_differs fs_links (u "out/passwd") (u "x")
           [u "etc"; u "passwd"] H1 H2).
Defined.

(** ** What a run keeps *)

Section Preserved.

Context (P : world -> world -> Prop).
Context (good : forall A : Type, (filesystem -> answer A) -> Prop).
Context (P_refl : forall w, P w w).
Context (P_trans : forall w1 w2 w3, P w1 w2 -> P w2 w3 -> P w1 w3).
Context (P_prim : forall (A : Type) (op : opname) (p : Path)
                         (f : filesystem -> answer A),
            good A f -> preserves P (prim op p f)).
Context (good_stat_test : forall t p, good bool (stat_test t p)).
Context (good_stat_size : forall p, good N (stat_size p)).

Lemma preserves_ret {A : Type} (a : A) : preserves P (ret a).
Proof using P_refl. intros w. apply P_refl. Qed.

Lemma preserves_bind {A B : Type} (m : M A) (k : A -> M B) :
  preserves P m -> (forall a, preserves P (k a)) -> preserves P (bind m k).
Proof using P_trans.
  intros Hm Hk w. unfold bind. specialize (Hm w).
  destruct (m w) as [[e|a] w1]; cbn [snd] in *; [done|].
  eapply P_trans; [exact Hm|apply Hk].
Qed.

Lemma preserves_try_except {A : Type} (body : M A) (handler : exn -> M A) :
  preserves P body -> (forall e, preserves P (handler e)) ->
  preserves P (try_except body handler).
Proof using P_trans.
  intros Hb Hh w. unfold try_except. specialize (Hb w).
  destruct (body w) as [[e|a] w1]; cbn [snd] in *; [|done].
  destruct (is_Exception (cls e)); [|done].
  eapply P_trans; [exact Hb|apply Hh].
Qed.

Lemma preserves_list_entries (items : list Path) :
  forall (entries : list dict), preserves P (list_entries items entries).
Proof using P_refl P_trans P_prim good_stat_test good_stat_size.
  induction items as [|item rest IH]; intros entries; cbn [list_entries].
  { apply preserves_ret. }
  apply preserves_bind; [apply P_prim, good_stat_test|]. intros isd.
  apply preserves_bind; [apply P_prim, good_stat_test|]. intros isf.
  apply preserves_bind; [|intros; apply IH].
  destruct isf; [|apply preserves_ret].
  apply preserves_bind; [apply P_prim, good_stat_size|].
  intros; apply preserves_ret.
Qed.

End Preserved.

Lemma looks_resolve (p : Path) : looks (resolve p).
Proof. intros fs. apply resolve_files. Qed.

Lemma looks_stat_test (t : node -> bool) (p : Path) : looks (stat_test t p).
Proof. intros fs. by rewrite stat_test_quiet. Qed.

Lemma looks_stat_size (p : Path) : looks (stat_size p).
Proof. intros fs. unfold stat_size. by destruct (k_stat _ _) as [|[]]. Qed.

Lemma looks_read_text (p : Path) : looks (read_text p).
Proof.
  intros fs. unfold read_text. destruct (k_read _ _); [done|].
  by destruct (decode _).
Qed.

Lemma looks_iterdir (p : Path) : looks (iterdir p).
Proof. intros fs. unfold iterdir. by destruct (k_listdir _ _). Qed.

Lemma same_files_prim {A : Type} (op : opname) (p : Path)
    (f : filesystem -> answer A) :
  looks f -> preserves same_files (prim op p f).
Proof.
  intros Hf w. unfold prim, same_files. specialize (Hf (files w)).
  destruct (faults w) as [|[e|] fl]; cbn [snd files]; try done.
  all: by destruct (f (files w)).
Qed.

Lemma same_files_log (lv : level) (msg : str) :
  preserves same_files (log lv msg).
Proof. by intros w. Qed.

Lemma still_calm_prim {A : Type} (op : opname) (p : Path)
    (f : filesystem -> answer A) :
  preserves still_calm (prim op p f).
Proof.
  intros w Hw. unfold prim. rewrite Hw. by destruct (f (files w)).
Qed.

Lemma still_calm_log (lv : level) (msg : str) :
  preserves still_calm (log lv msg).
Proof. intros w Hw. exact Hw. Qed.

Lemma silent_prim {A : Type} (op : opname) (p : Path)
    (f : filesystem -> answer A) :
  preserves silent (prim op p f).
Proof.
  intros w. unfold prim, silent, logged.
  destruct (faults w) as [|[e|] fl]; cbn [snd journal]; try done.
  all: by destruct (f (files w)).
Qed.

Ltac preserves_step lem :=
  lazymatch goal with
  | |- preserves _ (ret _) => apply preserves_ret; try done
  | |- preserves _ (bind (log _ _) _) =>
      apply preserves_bind; [congruence|lem|intros ?]
  | |- preserves _ (bind (prim _ _ _) _) =>
      apply preserves_bind; [congruence|lem|intros ?]
  | |- preserves _ (bind (list_entries _ _) _) =>
      apply preserves_bind; [congruence|lem|intros ?]
  | |- preserves _ (if ?b then _ else _) => destruct b
  end.

Ltac same_files_lem :=
  first [ apply same_files_log
        | apply same_files_prim;
          first [ apply looks_resolve | apply looks_stat_test
                | apply looks_stat_size | apply looks_read_text
                | apply looks_iterdir ]
        | apply (preserves_list_entries same_files (@looks));
          [ done | congruence | apply @same_files_prim
          | apply looks_stat_test | apply looks_stat_size ] ].

Lemma reading_tools_preserve (path : str) :
  preserves same_files (read_file path) /\
  preserves same_files (list_directory path).
Proof.
  assert (Ht : forall w1 w2 w3,
             same_files w1 w2 -> same_files w2 w3 -> same_files w1 w3)
    by (unfold same_files; congruence).
  split.
  - apply (preserves_try_except same_files Ht).
    + cbv zeta. repeat preserves_step same_files_lem.
    + intros e. repeat preserves_step same_files_lem.
  - apply (preserves_try_except same_files Ht).
    + cbv zeta. repeat preserves_step same_files_lem.
    + intros e. repeat preserves_step same_files_lem.
Qed.

(** X8. [read_file] and [list_directory] never change the tree: whatever
    the world, whatever fails on the way, the tree after the call is the
    tree before it. *)
Theorem reading_tools_keep_tree (w : world) (path : str) :
  files (read_file path w).2 = files w /\
  files (list_directory path w).2 = files w.
Proof.
  destruct (reading_tools_preserve path) as [Hr Hl].
  split; [apply Hr|apply Hl].
Qed.

(** *** A quiet world stays quiet *)

Ltac still_calm_lem :=
  first [ apply still_calm_log
        | apply still_calm_prim
        | apply (preserves_list_entries still_calm (fun _ _ => True));
          [ unfold still_calm; auto | unfold still_calm; auto
          | intros; apply still_calm_prim | done | done ] ].

Lemma tools_stay_calm (path content : str) :
  preserves still_calm (read_file path) /\
  preserves still_calm (write_file path content) /\
  preserves still_calm (list_directory path).
Proof.
  assert (Ht : forall w1 w2 w3,
             still_calm w1 w2 -> still_calm w2 w3 -> still_calm w1 w3)
    by (unfold still_calm; auto).
  assert (Hr : forall w, still_calm w w) by (unfold still_calm; auto).
  split_and!.
  all: apply (preserves_try_except still_calm Ht);
    [cbv zeta|intros e].
  all: repeat (lazymatch goal with
    | |- preserves _ (ret _) => apply preserves_ret; exact Hr
    | |- preserves _ (bind (log _ _) _) =>
        apply preserves_bind; [exact Ht|still_calm_lem|intros ?]
    | |- preserves _ (bind (prim _ _ _) _) =>
        apply preserves_bind; [exact Ht|still_calm_lem|intros ?]
    | |- preserves _ (bind (list_entries _ _) _) =>
        apply preserves_bind; [exact Ht|still_calm_lem|intros ?]
    | |- preserves _ (if ?b then _ else _) => destruct b
    end).
Qed.

(** ** The journal is written, never read *)

Lemma blind_ret {A : Type} (a : A) : journal_blind (ret a).
Proof. by intros w1 w2 H. Qed.

Lemma blind_bind {A B : Type} (m : M A) (k : A -> M B) :
  journal_blind m -> (forall a, journal_blind (k a)) ->
  journal_blind (bind m k).
Proof.
  intros Hm Hk w1 w2 Hs. unfold bind. destruct (Hm w1 w2 Hs) as [H1 H2].
  destruct (m w1) as [[e1|a1] w1'], (m w2) as [[e2|a2] w2'];
    cbn [fst snd] in *; try done.
  - by injection H1 as ->.
  - injection H1 as ->. by apply Hk.
Qed.

Lemma blind_log (lv : level) (msg : str) : journal_blind (log lv msg).
Proof. by intros w1 w2 [H1 H2]. Qed.

Lemma blind_prim {A : Type} (op : opname) (p : Path)
    (f : filesystem -> answer A) :
  journal_blind (prim op p f).
Proof.
  intros w1 w2 [H1 H2]. unfold prim. rewrite H1, H2.
  destruct (faults w2) as [|[e|] fl]; cbn [fst snd]; try done.
  all: by destruct (f (files w2)).
Qed.

Lemma blind_try_except {A : Type} (body : M A) (handler : exn -> M A) :
  journal_blind body -> (forall e, journal_blind (handler e)) ->
  journal_blind (try_except body handler).
Proof.
  intros Hb Hh w1 w2 Hs. unfold try_except.
  destruct (Hb w1 w2 Hs) as [H1 H2].
  destruct (body w1) as [[e1|a1] w1'], (body w2) as [[e2|a2] w2'];
    cbn [fst snd] in *; try done.
  injection H1 as ->. destruct (is_Exception (cls e2)); [|done].
  by apply Hh.
Qed.

Lemma blind_list_entries (items : list Path) :
  forall (entries : list dict), journal_blind (list_entries items entries).
Proof.
  induction items as [|item rest IH]; intros entries; cbn [list_entries].
  { apply blind_ret. }
  apply blind_bind; [apply blind_prim|]. intros isd.
  apply blind_bind; [apply blind_prim|]. intros isf.
  apply blind_bind; [|intros; apply IH].
  destruct isf; [|apply blind_ret].
  apply blind_bind; [apply blind_prim|]. intros; apply blind_ret.
Qed.

Ltac blind_step :=
  lazymatch goal with
  | |- journal_blind (ret _) => apply blind_ret
  | |- journal_blind (bind (log _ _) _) =>
      apply blind_bind; [apply blind_log|intros ?]
  | |- journal_blind (bind (prim _ _ _) _) =>
      apply blind_bind; [apply blind_prim|intros ?]
  | |- journal_blind (bind (list_entries _ _) _) =>
      apply blind_bind; [apply blind_list_entries|intros ?]
  | |- journal_blind (if ?b then _ else _) => destruct b
  end.

Lemma blind_read_file (path : str) : journal_blind (read_file path).
Proof.
  apply blind_try_except; [|intros e; repeat blind_step].
  cbv zeta. repeat blind_step.
Qed.

Lemma blind_write_file (path content : str) :
  journal_blind (write_file path content).
Proof.
  apply blind_try_except; [|intros e; repeat blind_step].
  cbv zeta. repeat blind_step.
Qed.

Lemma blind_list_directory (path : str) : journal_blind (list_directory path).
Proof.
  apply blind_try_except; [|intros e; repeat blind_step].
  cbv zeta. repeat blind_step.
Qed.

(** A run in a world without pending faults goes like the run in the
    quiet world of the same tree. *)
Lemma run_as_quiet {A : Type} (m : M A) (w : world) :
  journal_blind m -> faults w = [] ->
  (m w).1 = (m (quiet (files w))).1 /\
  files (m w).2 = files (m (quiet (files w))).2.
Proof.
  intros Hm Hw. destruct (Hm w (quiet (files w))) as [H1 [H2 _]]; [|done].
  by split.
Qed.

Lemma write_file_calm (fs : filesystem) (path content : str) :
  faults (write_file path content (quiet fs)).2 = [].
Proof.
  destruct (tools_stay_calm path content) as (_ & H & _). by apply H.
Qed.

(** ** Writing along a chain of directories *)

Lemma along_proper (have miss : list str) (f : str)
    (Hp : Forall proper (have ++ miss ++ [f])) : Forall proper (have ++ miss) /\ proper f.
Proof.
  rewrite app_assoc in Hp. apply Forall_app in Hp as [? Hpf].
  split; [done|]. exact (Forall_inv Hpf).
Qed.

Lemma along_dirs (fs : filesystem) (have miss : list str)
    (Hd : dirs_along fs [] have) :
  dirs_along (with_dirs have miss fs) [] (have ++ miss).
Proof.
  apply dirs_along_app. split.
  - apply dirs_along_with_dirs; [simpl; lia|done].
  - apply with_dirs_dirs.
Qed.

Lemma along_target (fs : filesystem) (have miss : list str) (f : str) :
  with_dirs have miss fs !! (have ++ miss ++ [f])
  = fs !! (have ++ miss ++ [f]).
Proof.
  apply with_dirs_other. intros i Hi Heq. apply (f_equal length) in Heq.
  rewrite !length_app, length_take in Heq. cbn [length] in Heq. lia.
Qed.

Section Along.

Context (fs : filesystem) (path : str).
Context (have miss : list str) (f : str).
Context (Hns : names (full_path path) = have ++ miss ++ [f]).
Context (Hp : Forall proper (have ++ miss ++ [f])).
Context (Hd : dirs_along fs [] have).
Context (Hf : free_along fs have miss).
Context (Ht : fs !! (have ++ miss ++ [f]) = None
              \/ miss = [] /\ exists d0, fs !! (have ++ [f]) = Some (File d0)).

Lemma along_full_path :
  full_path path = {| absolute := true; parts := have ++ miss ++ [f] |}.
Proof using All.
  pose proof (full_path_parts path) as Hfull.
  rewrite Hfull. f_equal. rewrite Hfull in Hns. exact Hns.
Qed.

Lemma along_config : exists rest, have ++ miss ++ [f] = config :: rest.
Proof using All. rewrite <- Hns, full_path_parts. cbn. eauto. Qed.

Lemma along_not_link (i : nat) :
  not_link (k_lstat fs (take (S i) (have ++ miss ++ [f]))).
Proof using All.
  assert (Hchain : exists x more,
            have ++ miss ++ [f] = have ++ x :: more /\
            (fs !! (have ++ [x]) = None
             \/ more = [] /\ exists d0, fs !! (have ++ [x]) = Some (File d0))).
  { destruct miss as [|m ms].
    - exists f, []. split; [done|]. cbn [app] in Ht.
      destruct Ht as [Ht'|[_ Ht']]; [by left|by right].
    - exists m, (ms ++ [f]). split; [done|]. left. by destruct Hf. }
  destruct Hchain as (x & more & Hsplit & Hx).
  rewrite Hsplit. apply lstat_chain; [by rewrite <- Hsplit|done..].
Qed.

Lemma along_realpath :
  realpath fs (have ++ miss ++ [f]) = Some (have ++ miss ++ [f]).
Proof using All.
  unfold realpath. rewrite joinrealpath_plain; [done|done|].
  intros i _. apply along_not_link.
Qed.

Lemma along_realpath_root : realpath fs [config] = Some [config].
Proof using All.
  destruct along_config as [rest Hrest].
  unfold realpath. rewrite joinrealpath_plain; [done| |].
  - repeat constructor; done.
  - intros i Hi. simpl in Hi. assert (i = 0%nat) as -> by lia.
    pose proof (along_not_link 0%nat) as Hnl. rewrite Hrest in Hnl.
    exact Hnl.
Qed.

Lemma along_open :
  k_open_trunc (with_dirs have miss fs) (have ++ miss ++ [f])
  = inr (have ++ miss ++ [f],
         <[have ++ miss ++ [f] := File []]> (with_dirs have miss fs)).
Proof using All.
  destruct (along_proper have miss f Hp) as [Hp' Hpf].
  unfold k_open_trunc. rewrite app_assoc.
  rewrite walk_to_last, walk_proper by (done || by apply along_dirs).
  rewrite <- app_assoc, along_target.
  destruct Ht as [->|(-> & d0 & Hd0)]; [done|].
  rewrite app_nil_r in *. cbn [app]. by rewrite Hd0.
Qed.

(** The run of [write_file] along the chain, whether the content can be
    encoded or not. *)
Lemma write_file_along_run (content : str) :
  exists j,
    write_file path content (quiet fs)
    = (inr (match encode content with
            | Some _ => written path content
            | None => failure (u "'utf-8' codec can't encode characters")
            end),
       {| files := <[have ++ miss ++ [f]
                     := File (match encode content with
                           | Some b => b
                           | None => []
                           end)]>
                     (with_dirs have miss fs);
          faults := []; journal := j |}).
Proof using All.
  destruct along_config as [rest Hrest].
  destruct (along_proper have miss f Hp) as [Hp' Hpf].
  unfold write_file, try_except, quiet.
  fold (clean_path path). fold (full_path path). rewrite along_full_path.
  rewrite bind_prim_quiet, resolve_quiet. unfold names at 1. cbn [parts].
  rewrite along_realpath. cbn [fst snd].
  rewrite bind_prim_quiet, resolve_quiet, names_config_base,
    along_realpath_root.
  cbn [fst snd]. rewrite Hrest, startswith_config. cbn [negb].
  rewrite <- Hrest.
  rewrite bind_prim_quiet. unfold mkdir_parents, path_parent.
  cbn [absolute parts]. rewrite app_assoc, removelast_last.
  rewrite mkdir_parents_along by done. cbn [fst snd].
  rewrite bind_prim_quiet. unfold write_text, names. cbn [parts].
  rewrite <- app_assoc, along_open.
  destruct (encode content) as [b|]; cbn [fst snd].
  - unfold bind, log, ret. cbn [fst snd files].
    rewrite insert_insert_eq. eexists. reflexivity.
  - cbn [is_Exception cls]. unfold bind, log, ret. cbn [files faults].
    eexists. reflexivity.
Qed.

(** The run of [write_file] along the chain, whether the content can be
    encoded or not. *)
Lemma write_file_along (content : str) :
  (write_file path content (quiet fs)).1
  = inr (match encode content with
         | Some _ => written path content
         | None => failure (u "'utf-8' codec can't encode characters")
         end) /\
  files (write_file path content (quiet fs)).2
  = <[have ++ miss ++ [f] := File (match encode content with
                           | Some b => b
                           | None => []
                           end)]>
      (with_dirs have miss fs).
Proof using All.
  destruct (write_file_along_run content) as [j ->]. done.
Qed.

End Along.





(** ** Requests that name a directory *)

Lemma lstat_dir_chain (fs : filesystem) (ds : list str) (i : nat) :
  Forall proper ds -> dirs_along fs [] ds ->
  not_link (k_lstat fs (take (S i) ds)).
Proof.
  intros Hp Hd t. unfold k_lstat.
  rewrite walk_to_dir; [done|by apply Forall_take|by apply dirs_along_take].
Qed.

Lemma realpath_chain (fs : filesystem) (ds : list str) :
  Forall proper ds -> dirs_along fs [] ds -> realpath fs ds = Some ds.
Proof.
  intros Hp Hd. unfold realpath. rewrite joinrealpath_plain; [done|done|].
  intros i _. by apply lstat_dir_chain.
Qed.

Lemma check_chain (fs : filesystem) (path : str) (ds : list str) :
  names (full_path path) = ds ->
  Forall proper ds -> dirs_along fs [] ds ->
  containment_check fs (full_path path) = Some true.
Proof.
  intros Hns Hp Hd. unfold containment_check.
  rewrite Hns, (realpath_chain fs ds Hp Hd), names_config_base.
  assert (Hrest : exists rest, ds = config :: rest).
  { rewrite <- Hns, full_path_parts. cbn. eauto. }
  destruct Hrest as [rest ->].
  rewrite realpath_root_dir by (by destruct Hd).
  by rewrite startswith_config.
Qed.



(** ** A written file in the listing of its directory *)



(** ** Sizes: characters and bytes *)

Lemma universal_newlines_length (n : nat) :
  forall (s : str),
    (length s <= n)%nat ->
    (length (universal_newlines s) <= length s)%nat.
Proof.
  induction n as [|n IH]; intros [|c s] Hl; cbn [length] in *;
    try done; try lia.
  cbn [universal_newlines]. case_decide.
  - destruct s as [|d s']; [cbn [length]; lia|]. case_decide.
    + cbn [length] in *. specialize (IH s'). lia.
    + cbn [length] in *. specialize (IH (d :: s')). cbn [length] in IH.
      lia.
  - cbn [length]. specialize (IH s). lia.
Qed.

Lemma fmap_cons_length (c : N) (o : option str) (s : str) :
  cons c <$> o = Some s ->
  exists s', o = Some s' /\ length s = S (length s').
Proof. destruct o as [s'|]; [|done]. intros [= <-]. by exists s'. Qed.

Lemma decode_length (n : nat) :
  forall (b : bytes) (s : str),
    (length b <= n)%nat -> decode b = Some s ->
    (length s <= length b)%nat.
Proof.
  induction n as [|n IH]; intros [|b0 r] s Hl; cbn [length] in *;
    try lia; try (by intros [= <-]).
  cbn [decode].
  destruct (b0 <? 128).
  { intros (s' & Hs & ->)%fmap_cons_length.
    apply IH in Hs; lia. }
  destruct (b0 <? 194); [done|].
  destruct (b0 <? 224).
  { destruct r as [|b1 r1]; [done|]. destruct (is_cont b1); [|done].
    intros (s' & Hs & ->)%fmap_cons_length. cbn [length] in *.
    apply IH in Hs; lia. }
  destruct (b0 <? 240).
  { destruct r as [|b1 [|b2 r2]]; try done.
    destruct (_ && _); [|done].
    intros (s' & Hs & ->)%fmap_cons_length. cbn [length] in *.
    apply IH in Hs; lia. }
  destruct (b0 <? 245); [|done].
  destruct r as [|b1 [|b2 [|b3 r3]]]; try done.
  destruct (_ && _); [|done].
  intros (s' & Hs & ->)%fmap_cons_length. cbn [length] in *.
  apply IH in Hs; lia.
Qed.

Lemma encode_cp_length (c : N) (bs : bytes) :
  encode_cp c = Some bs ->
  (1 <= length bs <= 4)%nat /\ (length bs = 1%nat <-> c < 128).
Proof.
  unfold encode_cp.
  destruct (N.ltb_spec c 128); [intros [= <-]; cbn; split; [lia|done]|].
  destruct (N.ltb_spec c 2048); [intros [= <-]; cbn; split; lia|].
  destruct (N.ltb_spec c 65536).
  { destruct (_ && _); [done|]. intros [= <-]; cbn; split; lia. }
  destruct (N.ltb_spec c 1114112); [|done].
  intros [= <-]; cbn; split; lia.
Qed.

Lemma encode_length (s : str) :
  forall (b : bytes),
    encode s = Some b ->
    (length s <= length b <= 4 * length s)%nat /\
    (length b = length s <-> Forall (fun c => c < 128) s).
Proof.
  induction s as [|c s IH]; intros b; cbn [encode].
  { intros [= <-]. cbn. split; [lia|]. split; [constructor|done]. }
  destruct (encode_cp c) as [bc|] eqn:Hc; [|done].
  destruct (encode s) as [bs|] eqn:Hs; [|done].
  intros [= <-]. destruct (encode_cp_length c bc Hc) as [Hl1 Hi1].
  destruct (IH bs eq_refl) as [Hl2 Hi2].
  rewrite length_app. cbn [length]. split; [lia|].
  rewrite Forall_cons. split.
  - intros Heq. split; [apply Hi1|apply Hi2]; lia.
  - intros [H1 H2]. apply Hi1 in H1. apply Hi2 in H2. lia.
Qed.

(** X13. The size [read_file] reports counts the characters of the text it
    returns; it never exceeds the size in bytes of the file read, which is
    what [stat] (and so [list_directory]) reports for it. *)
Theorem read_size_at_most_bytes (fs : filesystem) (path : str) (d : dict) :
  (read_file path (quiet fs)).1 = inr d -> succeeded d ->
  exists (data : bytes) (content : str),
    k_stat fs (names (full_path path)) = inr (File data) /\
    get (u "content") d = Some (VStr content) /\
    get (u "size") d = Some (VInt (len content)) /\
    len content <= len data /\
    (stat_size (full_path path) fs).1 = inr (len data).
Proof.
  intros Hrun Hok.
  destruct (read_file_success_inv fs path d Hrun Hok)
    as (_ & data & s & Hs & Hd & ->).
  exists data, (universal_newlines s). split_and!; try done.
  - pose proof (universal_newlines_length (length s) s ltac:(lia)).
    pose proof (decode_length (length data) data s ltac:(lia) Hd).
    unfold len. lia.
  - unfold stat_size. by rewrite Hs.
Qed.

Lemma read_size_at_most_bytes_witness :
  exists (data : bytes) (content : str),
    k_stat fs0 (names (full_path (u "notes.txt"))) = inr (File data) /\
    get (u "content") (was_read (u "notes.txt") (u "hello"))
      = Some (VStr content) /\
    get (u "size") (was_read (u "notes.txt") (u "hello"))
      = Some (VInt (len content)) /\
    len content <= len data /\
    (stat_size (full_path (u "notes.txt")) fs0).1 = inr (len data).
Proof.
  apply (read_size_at_most_bytes fs0 (u "notes.txt")
           (was_read (u "notes.txt") (u "hello"))).
  - vm_compute. reflexivity.
  - reflexivity.
Defined.

(** X14. The size [write_file] reports counts the characters of the
    content. The file it leaves holds the UTF-8 encoding, which has at
    least as many bytes and at most four times as many, and exactly as
    many when and only when every character is below 128. *)
Theorem write_size_counts_characters (fs : filesystem)
    (path content : str) (d : dict) (w1 : world) :
  write_file path content (quiet fs) = (inr d, w1) -> succeeded d ->
  exists (b : bytes),
    encode content = Some b /\
    k_stat (files w1) (names (full_path path)) = inr (File b) /\
    get (u "size") d = Some (VInt (len content)) /\
    len content <= len b <= 4 * len content /\
    (len b = len content <-> Forall (fun c => c < 128) content).
Proof.
  intros Hrun Hok.
  destruct (write_file_success fs path content d w1 Hrun Hok)
    as (l & b & r & j & _ & He & Hw & Hr & -> & ->).
  set (fs1 := (mkdir_parents (path_parent (full_path path)) fs).2) in *.
  exists b. cbn [files].
  destruct (encode_length content b He) as [Hl Hi].
  split_and!; try done.
  - unfold k_stat.
    rewrite (walk_after_write fs1 l b) with (r := r); [done| |done|done].
    destruct Hr as [->|[d0 ->]].
    + left. by apply walk_absent_free in Hw.
    + right. exists d0.
      by apply (walk_at fs1 true l (File d0)) in Hw as [? _].
  - unfold len. lia.
  - unfold len. lia.
  - unfold len. rewrite <- Hi. split; [intros H|intros ->; done].
    by apply (inj N.of_nat) in H.
Qed.

Lemma write_size_counts_characters_witness :
  exists (b : bytes),
    encode [233; 33] = Some b /\
    k_stat (files (write_file (u "e.txt") [233; 33] (quiet fs0)).2)
           (names (full_path (u "e.txt"))) = inr (File b) /\
    get (u "size") (written (u "e.txt") [233; 33])
      = Some (VInt (len [233; 33])) /\
    len [233; 33] <= len b <= 4 * len [233; 33] /\
    (len b = len [233; 33] <-> Forall (fun c => c < 128) [233; 33]).
Proof.
  apply (write_size_counts_characters fs0 (u "e.txt") [233; 33]
           (written (u "e.txt") [233; 33])).
  - apply run_pair. vm_compute. reflexivity.
  - reflexivity.
Defined.

(** ** What is logged *)

Lemma logged_log (lv : level) (msg : str) (w : world) :
  logged (log lv msg w).2 = logged w ++ [(lv, msg)].
Proof. reflexivity. Qed.

Lemma logs_ret {A : Type} (R : exn + A -> list (level * str) -> Prop)
    (a : A) :
  R (inr a) [] -> logs (ret a) R.
Proof. intros H w. exists []. by rewrite app_nil_r. Qed.

Lemma logs_bind_silent {A B : Type}
    (R : exn + B -> list (level * str) -> Prop) (m : M A) (k : A -> M B) :
  preserves silent m -> (forall e, R (inl e) []) ->
  (forall a, logs (k a) R) -> logs (bind m k) R.
Proof.
  intros Hm He Hk w. unfold bind. specialize (Hm w). unfold silent in Hm.
  destruct (m w) as [[e|a] w1]; cbn [fst snd] in *.
  - exists []. by rewrite app_nil_r.
  - destruct (Hk a w1) as (new & H1 & H2). exists new. by rewrite <- Hm.
Qed.

Lemma logs_bind_log {B : Type}
    (R : exn + B -> list (level * str) -> Prop) (lv : level) (msg : str)
    (k : unit -> M B) :
  logs (k ()) (fun r new => R r ((lv, msg) :: new)) ->
  logs (bind (log lv msg) k) R.
Proof.
  intros Hk w. unfold bind.
  pose proof (logged_log lv msg w) as Hl.
  destruct (log lv msg w) as [[e|[]] w1] eqn:Hlog; [done|].
  cbn [snd] in Hl.
  destruct (Hk w1) as (new & H1 & H2). exists ((lv, msg) :: new).
  split; [|done]. rewrite H1, Hl, <- app_assoc. done.
Qed.

Lemma logs_try_except {A : Type}
    (R Q : exn + A -> list (level * str) -> Prop)
    (body : M A) (handler : exn -> M A) :
  logs body R ->
  (forall a new, R (inr a) new -> Q (inr a) new) ->
  (forall e new, R (inl e) new -> is_Exception (cls e) = false ->
                 Q (inl e) new) ->
  (forall e new, R (inl e) new -> is_Exception (cls e) = true ->
                 logs (handler e) (fun r new' => Q r (new ++ new'))) ->
  logs (try_except body handler) Q.
Proof.
  intros Hb Hok Hpass Hh w. unfold try_except.
  destruct (Hb w) as (new & H1 & H2).
  destruct (body w) as [[e|a] w1]; cbn [fst snd] in *.
  - destruct (is_Exception (cls e)) eqn:He.
    + destruct (Hh e new H2 He w1) as (new' & H3 & H4).
      exists (new ++ new'). split; [|done].
      by rewrite H3, H1, <- app_assoc.
    + exists new. split; [done|]. by apply Hpass.
  - exists new. split; [done|]. by apply Hok.
Qed.

Lemma silent_list_entries (items : list Path) (entries : list dict) :
  preserves silent (list_entries items entries).
Proof.
  apply (preserves_list_entries silent (fun _ _ => True)); try done.
  - unfold silent. congruence.
  - intros. apply silent_prim.
Qed.

Ltac logs_step :=
  lazymatch goal with
  | |- logs (ret _) _ => apply logs_ret
  | |- logs (bind (log _ _) _) _ => apply logs_bind_log
  | |- logs (bind (prim _ _ _) _) _ =>
      apply logs_bind_silent; [apply silent_prim|done|intros ?]
  | |- logs (bind (list_entries _ _) _) _ =>
      apply logs_bind_silent; [apply silent_list_entries|done|intros ?]
  | |- logs (if ?b then _ else _) _ => destruct b
  end.

Lemma logs_tool (info : dict -> str) (pre : str) (err : exn -> str)
    (body : M dict) :
  (forall e, err e = pre ++ message e) ->
  logs body (body_logs info) ->
  logs (try_except body
          (fun e => bind (log ERROR (err e))
                      (fun _ => ret (failure (message e)))))
       (log_discipline info pre).
Proof.
  intros Herr Hb. apply (logs_try_except (body_logs info)); [done| | |].
  - intros d new [H|(msg & -> & ->)]; [by left|].
    right. exists msg. split; [done|by left].
  - by intros e new -> _.
  - intros e new -> _. apply logs_bind_log, logs_ret.
    right. exists (message e). split; [done|]. right. by rewrite Herr.
Qed.


(** ** What a write can do to the tree *)

Lemma preserves_seq {A B : Type} (P1 P2 P3 : world -> world -> Prop)
    (m : M A) (k : A -> M B) :
  preserves P1 m -> (forall a, preserves P2 (k a)) ->
  (forall w1 w2, P1 w1 w2 -> P3 w1 w2) ->
  (forall w1 w2 w3, P1 w1 w2 -> P2 w2 w3 -> P3 w1 w3) ->
  preserves P3 (bind m k).
Proof.
  intros Hm Hk H1 H12 w. unfold bind. specialize (Hm w).
  destruct (m w) as [[e|a] w1]; cbn [snd] in *; [by apply H1|].
  eapply H12; [exact Hm|apply Hk].
Qed.

Lemma preserves_try_seq {A : Type} (P1 P2 P3 : world -> world -> Prop)
    (body : M A) (handler : exn -> M A) :
  preserves P1 body -> (forall e, preserves P2 (handler e)) ->
  (forall w1 w2, P1 w1 w2 -> P3 w1 w2) ->
  (forall w1 w2 w3, P1 w1 w2 -> P2 w2 w3 -> P3 w1 w3) ->
  preserves P3 (try_except body handler).
Proof.
  intros Hb Hh H1 H12 w. unfold try_except. specialize (Hb w).
  destruct (body w) as [[e|a] w1]; cbn [snd] in *; [|by apply H1].
  destruct (is_Exception (cls e)); [|by apply H1].
  eapply H12; [exact Hb|apply Hh].
Qed.

Lemma write_text_effect (p : Path) (data : str) (fs : filesystem) :
  (write_text p data fs).2 = fs
  \/ exists l, one_file_put l fs (write_text p data fs).2.
Proof.
  unfold write_text, k_open_trunc.
  destruct (walk MAXSYMLINKS fs true [] (names p))
    as [e|[l [d0| |t|]|l]] eqn:Hw; cbn [snd]; try (by left).
  - right. exists l. split.
    + right. exists d0.
      by apply (walk_at fs true l (File d0)) in Hw as [? _].
    + destruct (encode data) as [b|]; cbn [snd].
      * exists b. by rewrite insert_insert_eq.
      * by exists [].
  - right. exists l. split.
    + left. by apply walk_absent_free in Hw.
    + destruct (encode data) as [b|]; cbn [snd].
      * exists b. by rewrite insert_insert_eq.
      * by exists [].
Qed.

Lemma write_effect_refl (fs : filesystem) : write_effect fs fs.
Proof. exists fs. split; [apply grown_refl|by left]. Qed.

(** X16. Whatever the world and whatever its outcome, [write_file] removes
    nothing: it adds directories at free names and puts at most one
    regular file, at a free name or over a regular file. Directories,
    symbolic links and sockets stay as they are, and so does every other
    regular file. *)
Theorem write_file_never_deletes (w : world) (path content : str) :
  write_effect (files w) (files (write_file path content w).2) /\
  forall (k : list str) (n : node),
    files w !! k = Some n ->
    files (write_file path content w).2 !! k = Some n
    \/ exists d0 b,
         n = File d0 /\
         files (write_file path content w).2 !! k = Some (File b).
Proof.
  assert (He : write_effect (files w) (files (write_file path content w).2)).
  { revert w.
    pose (W := fun w1 w2 : world => write_effect (files w1) (files w2)).
    pose (G := fun w1 w2 : world => grown (files w1) (files w2)).
    pose (O := fun w1 w2 : world =>
                 files w2 = files w1
                 \/ exists l, one_file_put l (files w1) (files w2)).
    assert (Hsame : forall w1 w2, same_files w1 w2 -> W w1 w2).
    { intros w1 w2 Hs. unfold W. rewrite Hs. apply write_effect_refl. }
    assert (HsW : forall w1 w2 w3, same_files w1 w2 -> W w2 w3 -> W w1 w3).
    { intros w1 w2 w3 Hs. unfold W. by rewrite Hs. }
    assert (HWs : forall w1 w2 w3, W w1 w2 -> same_files w2 w3 -> W w1 w3).
    { intros w1 w2 w3 HW Hs. unfold W. by rewrite Hs. }
    assert (HOs : forall w1 w2 w3, O w1 w2 -> same_files w2 w3 -> O w1 w3).
    { intros w1 w2 w3 HO Hs. unfold O. by rewrite Hs. }
    assert (Hret : forall d : dict, preserves same_files (ret d)) by done.
    change (preserves W (write_file path content)).
    unfold write_file.
    (* the handler only logs *)
    assert (Hh : forall e, preserves same_files
              (bind (log ERROR (u "Error writing file " ++ path ++ u ": "
                                ++ message e))
                    (fun _ => ret (failure (message e))))) by done.
    apply (preserves_try_seq W same_files W); [|exact Hh|done|exact HWs].
    cbv zeta.
    eapply (preserves_seq same_files W W);
      [apply same_files_prim, looks_resolve| |exact Hsame|exact HsW].
    intros resolved.
    eapply (preserves_seq same_files W W);
      [apply same_files_prim, looks_resolve| |exact Hsame|exact HsW].
    intros base. destruct (negb _); [intros w1; by apply Hsame|].
    eapply (preserves_seq G O W).
    - intros w1. unfold G, prim.
      destruct (faults w1) as [|[e|] fl]; cbn [snd files];
        try apply grown_refl.
      all: pose proof (mkdir_parents_rev_grown
             (absolute (path_parent
                (joinpath CONFIG_BASE (mkPath (lstrip_slash path)))))
             (rev (parts (path_parent
                (joinpath CONFIG_BASE (mkPath (lstrip_slash path))))))
             (files w1)) as Hg.
      all: unfold mkdir_parents.
      all: by destruct (mkdir_parents_rev _ _ (files w1)).
    - intros _.
      eapply (preserves_seq O same_files O); [|intros; done|done|exact HOs].
      intros w1. unfold O, prim.
      destruct (faults w1) as [|[e|] fl]; cbn [snd files]; try (by left).
      all: pose proof (write_text_effect
             (joinpath CONFIG_BASE (mkPath (lstrip_slash path)))
             content (files w1)) as Ho.
      all: by destruct (write_text _ _ (files w1)).
    - intros w1 w2 HG. exists (files w2). split; [done|by left].
    - intros w1 w2 w3 HG HO. exists (files w2). split; [done|].
      destruct HO as [->|HO]; [by left|by right]. }
  split; [done|]. intros k n Hk.
  destruct He as (fs1 & Hg & Hput).
  assert (H1 : fs1 !! k = Some n).
  { destruct (Hg k) as [->|[? ?]]; [done|congruence]. }
  destruct Hput as [->|(l & Hl & b & ->)]; [by left|].
  destruct (decide (l = k)) as [->|Hne].
  - right. destruct Hl as [Hl|[d0 Hl]]; [congruence|].
    exists d0, b. split; [congruence|apply lookup_insert_eq].
  - left. by rewrite lookup_insert_ne.
Qed.

(** ** Writing below a regular file *)

Lemma lstat_below_file (fs : filesystem) (have : list str) (x : str)
    (more : list str) (d0 : bytes) (i : nat) :
  Forall proper (have ++ x :: more) ->
  dirs_along fs [] have ->
  fs !! (have ++ [x]) = Some (File d0) ->
  not_link (k_lstat fs (take (S i) (have ++ x :: more))).
Proof.
  intros Hp Hd Hx t. apply Forall_app in Hp as [Hph Hpx].
  apply Forall_cons in Hpx as [Hpx Hpm]. unfold k_lstat.
  destruct (decide (S i <= length have)%nat) as [Hi|Hi].
  - rewrite take_app_le by done.
    rewrite walk_to_dir; [done|by apply Forall_take|by apply dirs_along_take].
  - rewrite take_app_ge by lia.
    replace (S i - length have)%nat with (S (i - length have)) by lia.
    cbn [take]. rewrite walk_to_last, walk_proper, Hx by done.
    by destruct (no_more _).
Qed.



(** ** The reported path, used as a request *)

Lemma split_slash_nonempty (s : str) : split_slash s <> [].
Proof.
  induction s as [|c s IH]; [done|]. cbn [split_slash].
  case_decide; [done|]. by destruct (split_slash s).
Qed.

Lemma split_slash_no_slash (s : str) :
  Forall (fun w => slash ∉ w) (split_slash s).
Proof.
  induction s as [|c s IH]; cbn [split_slash].
  { constructor; [|constructor]. apply not_elem_of_nil. }
  case_decide.
  - constructor; [apply not_elem_of_nil|done].
  - destruct (split_slash s) as [|w ws].
    + constructor; [|constructor].
      apply not_elem_of_cons. split; [done|apply not_elem_of_nil].
    + apply Forall_cons in IH as [Hw Hws]. constructor; [|done].
      apply not_elem_of_cons. by split.
Qed.

Lemma split_slash_app (w r : str) :
  slash ∉ w -> split_slash (w ++ slash :: r) = w :: split_slash r.
Proof.
  induction w as [|c w IH]; intros Hw; cbn [app split_slash].
  { by rewrite decide_True. }
  apply not_elem_of_cons in Hw as [Hc Hw].
  rewrite decide_False by done. by rewrite IH.
Qed.

Lemma split_slash_plain (w : str) : slash ∉ w -> split_slash w = [w].
Proof.
  induction w as [|c w IH]; intros Hw; cbn [split_slash]; [done|].
  apply not_elem_of_cons in Hw as [Hc Hw].
  rewrite decide_False by done. by rewrite IH.
Qed.

Lemma split_join_slash (l : list str) :
  l <> [] -> Forall (fun w => slash ∉ w) l ->
  split_slash (join_slash l) = l.
Proof.
  induction l as [|w l IH]; [done|]. intros _ Hl.
  apply Forall_cons in Hl as [Hw Hl]. cbn [join_slash].
  destruct l as [|w' l']; [by apply split_slash_plain|].
  rewrite split_slash_app by done. by rewrite IH.
Qed.

Lemma lstrip_slash_plain (s : str) :
  (forall r, s <> slash :: r) -> lstrip_slash s = s.
Proof.
  destruct s as [|c s]; [done|]. intros H. cbn [lstrip_slash].
  rewrite decide_False; [done|]. intros ->. by apply (H s).
Qed.

(** [Path(str(Path(s))) == Path(s)] for the cleaned path of a request. *)
Lemma clean_path_reported (path : str) :
  clean_path (path_str (clean_path path)) = clean_path path.
Proof.
  unfold clean_path at 2 3. unfold mkPath, path_str. cbn [absolute parts].
  rewrite lstrip_not_abs.
  set (ps := List.filter is_part (split_slash (lstrip_slash path))).
  assert (Hps : Forall (fun w => is_part w = true /\ slash ∉ w) ps).
  { subst ps. apply Forall_forall. intros w Hw.
    apply list_elem_of_In, filter_In in Hw as [Hin Hpart]. split; [done|].
    pose proof (split_slash_no_slash (lstrip_slash path)) as Hns.
    rewrite Forall_forall in Hns. by apply Hns, list_elem_of_In. }
  destruct ps as [|w ws] eqn:Hpseq; [reflexivity|].
  assert (Hfirst : forall r, join_slash (w :: ws) <> slash :: r).
  { apply Forall_cons in Hps as [[Hw1 Hw2] _]. intros r.
    destruct w as [|c w'].
    - by vm_compute in Hw1.
    - apply not_elem_of_cons in Hw2 as [Hc _]. cbn [join_slash].
      destruct ws; cbn [app]; congruence. }
  unfold clean_path, mkPath.
  rewrite (lstrip_slash_plain _ Hfirst).
  assert (isabs (join_slash (w :: ws)) = false) as ->.
  { unfold isabs. destruct (join_slash (w :: ws)) as [|c r] eqn:Hj;
      [done|]. cbn [startswith].
    rewrite bool_decide_eq_false_2; [done|]. intros <-.
    by apply (Hfirst r). }
  f_equal. rewrite split_join_slash; [|done|].
  - apply forallb_filter_id. apply forallb_forall.
    intros c Hc. rewrite Forall_forall in Hps.
    by apply Hps, list_elem_of_In.
  - eapply Forall_impl; [exact Hps|]. by intros c [_ ?].
Qed.

Lemma try_except_returns {A : Type} (body : M A) (h1 h2 : exn -> M A)
    (w : world) (a : A) :
  body w = (inr a, (try_except body h1 w).2) ->
  try_except body h2 w = (inr a, (try_except body h1 w).2).
Proof. unfold try_except. by intros ->. Qed.

Lemma same_clean_read (fs : filesystem) (p q : str) (d : dict) :
  clean_path p = clean_path q ->
  (read_file p (quiet fs)).1 = inr d -> succeeded d ->
  (read_file q (quiet fs)).1 = inr d.
Proof.
  intros Heq Hrun Hok.
  assert (Hfull : full_path q = full_path p)
    by (unfold full_path; by rewrite Heq).
  destruct (read_file_success_inv fs p d Hrun Hok)
    as (Hc & data & s & Hs & Hd & ->).
  rewrite <- Hfull in Hc.
  destruct (read_file_checked fs q Hc) as [_ ->].
  rewrite Hfull, Hs, Hd. unfold was_read. by rewrite Heq.
Qed.

Lemma same_clean_list (fs : filesystem) (p q : str) (d : dict) :
  clean_path p = clean_path q ->
  (list_directory p (quiet fs)).1 = inr d -> succeeded d ->
  (list_directory q (quiet fs)).1 = inr d.
Proof.
  intros Heq Hrun Hok.
  assert (Hfull : full_path q = full_path p)
    by (unfold full_path; by rewrite Heq).
  pose proof (list_directory_success_checked fs p d Hrun Hok) as Hc.
  pose proof (list_directory_checked fs p Hc) as Hp.
  rewrite <- Hfull in Hc.
  rewrite (list_directory_checked fs q Hc), Hfull.
  rewrite Hrun in Hp. apply (inj inr) in Hp. subst d.
  destruct (walk MAXSYMLINKS fs true [] (names (full_path p)))
    as [e|[l [data| |t|]|l]];
    try (by apply failure_not_succeeded in Hok).
  unfold listing. by rewrite Heq.
Qed.

Lemma same_clean_write (fs : filesystem) (p q content : str) (d : dict) :
  clean_path p = clean_path q ->
  (write_file p content (quiet fs)).1 = inr d -> succeeded d ->
  (write_file q content (quiet fs)).1 = inr d /\
  files (write_file q content (quiet fs)).2
  = files (write_file p content (quiet fs)).2.
Proof.
  intros Heq Hrun Hok.
  unfold write_file in *. fold (clean_path p) in *. fold (clean_path q).
  rewrite <- Heq.
  match goal with
  | |- context [try_except ?b ?h (quiet fs)] => set (body := b) in *; set (h2 := h)
  end.
  match type of Hrun with
  | context [try_except _ ?h (quiet fs)] => set (h1 := h) in *
  end.
  assert (Hbody : body (quiet fs)
                  = (inr d, (try_except body h1 (quiet fs)).2)).
  { unfold try_except in *.
    destruct (body (quiet fs)) as [[e|d'] w1]; cbn [fst snd] in *.
    - destruct (is_Exception (cls e)); [|by cbn [fst] in Hrun].
      subst h1. unfold bind, log, ret in Hrun. cbn [fst] in Hrun.
      apply (inj inr) in Hrun. subst d.
      by apply failure_not_succeeded in Hok.
    - by apply (inj inr) in Hrun as ->. }
  by rewrite (try_except_returns body h1 h2 _ d Hbody).
Qed.

(** X18. The path a success reports can be used as the request: the same
    tool called with it returns the same result (and [write_file] leaves
    the same tree). So a listing's path, or the path of a file read, is a
    name under which the tools find the thing again. *)
Theorem reported_path_round_trip (fs : filesystem) (path content : str)
    (d : dict) (v : str) :
  succeeded d -> get (u "path") d = Some (VStr v) ->
  ((read_file path (quiet fs)).1 = inr d ->
   (read_file v (quiet fs)).1 = inr d) /\
  ((write_file path content (quiet fs)).1 = inr d ->
   (write_file v content (quiet fs)).1 = inr d /\
   files (write_file v content (quiet fs)).2
   = files (write_file path content (quiet fs)).2) /\
  ((list_directory path (quiet fs)).1 = inr d ->
   (list_directory v (quiet fs)).1 = inr d).
Proof.
  intros Hok Hv. split_and!.
  - intros Hrun. apply (same_clean_read fs path v d); [|done|done].
    destruct (read_file_success_inv fs path d Hrun Hok)
      as (_ & data & s & _ & _ & ->).
    injection Hv as <-. by rewrite clean_path_reported.
  - intros Hrun. apply (same_clean_write fs path v content d); [|done|done].
    destruct (write_file_success fs path content d
                (write_file path content (quiet fs)).2)
      as (l & b & r & j & _ & _ & _ & _ & _ & ->);
      [by apply run_pair|done|].
    injection Hv as <-. by rewrite clean_path_reported.
  - intros Hrun. apply (same_clean_list fs path v d); [|done|done].
    destruct (list_directory_success fs path d
                (list_directory path (quiet fs)).2)
      as (l & _ & _ & -> & _); [by apply run_pair|done|].
    unfold listing in Hv. injection Hv as <-.
    case_decide as Hdot.
    + pose proof (clean_path_reported path) as Hcp.
      rewrite Hdot in Hcp. rewrite <- Hcp. reflexivity.
    + by rewrite clean_path_reported.
Qed.

Lemma reported_path_round_trip_witness :
  succeeded (was_read (u "//.storage/./core") (u "{}")) /\
  get (u "path") (was_read (u "//.storage/./core") (u "{}"))
    = Some (VStr (u ".storage/core")) /\
  ((read_file (u "//.storage/./core") (quiet fs0)).1
     = inr (was_read (u "//.storage/./core") (u "{}")) ->
   (read_file (u ".storage/core") (quiet fs0)).1
     = inr (was_read (u "//.storage/./core") (u "{}"))).
Proof.
  split; [reflexivity|]. split; [reflexivity|].
  exact (proj1 (reported_path_round_trip fs0 (u "//.storage/./core") []
                  (was_read (u "//.storage/./core") (u "{}"))
                  (u ".storage/core") eq_refl eq_refl)).
Defined.

(** ** [resolve()] returns a canonical path *)

Lemma canon_take (fs : filesystem) (r : list str) (i : nat) :
  canon fs r -> canon fs (take i r).
Proof.
  intros [Hp Hl]. split; [by apply Forall_take|].
  intros j t Hj. rewrite length_take in Hj.
  rewrite take_take. replace (S j `min` i)%nat with (S j) by lia.
  apply Hl. lia.
Qed.

Lemma realpath_canon (fs : filesystem) (ns r : list str) :
  wf fs -> realpath fs ns = Some r -> canon fs r.
Proof.
  intros Hwf Hr.
  destruct (joinrealpath_same_links fs fs Hwf Hwf) with
    (f := S (size fs)) (seen := @nil loc) (rest := ns) (path := @nil str)
    as [_ Hc]; [done|apply canon_nil|].
  by apply Hc.
Qed.

Lemma realpath_of_canon (fs : filesystem) (r : list str) :
  wf fs -> canon fs r -> realpath fs r = Some r.
Proof.
  intros Hwf Hc. unfold realpath.
  rewrite joinrealpath_plain; [done|by destruct Hc|].
  intros i Hi t Hl. cbn [app] in Hl.
  destruct (lookup_lt_is_Some_2 r i Hi) as [c Hci].
  pose proof (take_S_r r i c Hci) as Htake.
  assert (Hpc : proper c).
  { destruct Hc as [Hp _]. rewrite Forall_forall in Hp.
    apply Hp. by apply list_elem_of_lookup_2 in Hci. }
  pose proof (lstat_link_canon fs (take i r) c Hwf
                (canon_take fs r i Hc) Hpc) as Hlink.
  rewrite <- Htake, Hl in Hlink. cbn [link_of] in Hlink.
  destruct Hc as [_ Hno]. specialize (Hno i t Hi).
  unfold entry_link in Hlink.
  destruct (fs !! take (S i) r) as [[d| |t'|]|]; try done.
  injection Hlink as ->. done.
Qed.



(** ** The order of the operations *)

Lemma calls_prim {A : Type} (op : opname) (p : Path)
    (f : filesystem -> answer A) (w : world) :
  calls (prim op p f w).2 = calls w ++ [(op, p)].
Proof.
  unfold prim, calls.
  destruct (faults w) as [|[e|] fl]; cbn [snd journal]; try done.
  all: by destruct (f (files w)).
Qed.

Lemma performs_ret {A : Type}
    (R : exn + A -> list (opname * Path) -> Prop) (a : A) :
  R (inr a) [] -> performs (ret a) R.
Proof. intros H w. exists []. by rewrite app_nil_r. Qed.

Lemma performs_bind {A B : Type}
    (R1 : exn + A -> list (opname * Path) -> Prop)
    (R : exn + B -> list (opname * Path) -> Prop)
    (m : M A) (k : A -> M B) :
  performs m R1 ->
  (forall e new, R1 (inl e) new -> R (inl e) new) ->
  (forall a new1, R1 (inr a) new1 ->
                  performs (k a) (fun r new => R r (new1 ++ new))) ->
  performs (bind m k) R.
Proof.
  intros Hm He Hk w. unfold bind. destruct (Hm w) as (new1 & H1 & H2).
  destruct (m w) as [[e|a] w1]; cbn [fst snd] in *.
  - exists new1. split; [done|by apply He].
  - destruct (Hk a new1 H2 w1) as (new & H3 & H4).
    exists (new1 ++ new). split; [|done]. by rewrite H3, H1, <- app_assoc.
Qed.

Lemma performs_prim {A : Type} (op : opname) (p : Path)
    (f : filesystem -> answer A) :
  performs (prim op p f) (fun _ new => new = [(op, p)]).
Proof. intros w. exists [(op, p)]. split; [apply calls_prim|done]. Qed.

Lemma performs_bind_prim {A B : Type}
    (R : exn + B -> list (opname * Path) -> Prop)
    (op : opname) (p : Path) (f : filesystem -> answer A) (k : A -> M B) :
  (forall e, R (inl e) [(op, p)]) ->
  (forall a, performs (k a) (fun r new => R r ((op, p) :: new))) ->
  performs (bind (prim op p f) k) R.
Proof.
  intros He Hk. eapply performs_bind; [apply performs_prim| |].
  - by intros e new ->.
  - intros a new ->. apply Hk.
Qed.

Lemma performs_bind_log {B : Type}
    (R : exn + B -> list (opname * Path) -> Prop)
    (lv : level) (msg : str) (k : unit -> M B) :
  performs (k ()) R -> performs (bind (log lv msg) k) R.
Proof.
  intros Hk w. unfold bind, log.
  destruct (Hk {| files := files w; faults := faults w;
                  journal := Logged lv msg :: journal w |})
    as (new & H1 & H2).
  exists new. split; [|done]. rewrite H1. reflexivity.
Qed.

Lemma performs_try_except
    (R : exn + dict -> list (opname * Path) -> Prop)
    (body : M dict) (err : exn -> str) :
  performs body R ->
  (forall e new msg, R (inl e) new -> R (inr (failure msg)) new) ->
  performs (try_except body
              (fun e => bind (log ERROR (err e))
                          (fun _ => ret (failure (message e))))) R.
Proof.
  intros Hb Hf w. unfold try_except. destruct (Hb w) as (new & H1 & H2).
  destruct (body w) as [[e|d] w1]; cbn [fst snd] in *; [|by exists new].
  destruct (is_Exception (cls e)); [|by exists new].
  exists new. split; [exact H1|]. by apply (Hf e).
Qed.

Ltac ops_look :=
  intros; repeat (constructor; [cbn [fst]; auto|]); try constructor.

Lemma performs_weaken {A : Type}
    (R1 R : exn + A -> list (opname * Path) -> Prop) (m : M A) :
  performs m R1 -> (forall r new, R1 r new -> R r new) -> performs m R.
Proof.
  intros Hm HR w. destruct (Hm w) as (new & H1 & H2).
  exists new. split; [done|by apply HR].
Qed.

Lemma performs_list_entries (items : list Path) :
  forall (entries : list dict),
    performs (list_entries items entries)
      (fun _ new =>
         Forall (fun c => c.1 = OpIsDir \/ c.1 = OpIsFile \/ c.1 = OpStat)
                new).
Proof.
  induction items as [|item rest IH]; intros entries; cbn [list_entries].
  { by apply performs_ret. }
  apply performs_bind_prim; [ops_look|]. intros isd.
  apply performs_bind_prim; [ops_look|]. intros isf.
  eapply (performs_bind
            (fun _ new =>
               Forall (fun c => c.1 = OpIsDir \/ c.1 = OpIsFile
                                \/ c.1 = OpStat) new)).
  - destruct isf; [|apply performs_ret; ops_look].
    apply performs_bind_prim; [ops_look|].
    intros sz. apply performs_ret. ops_look.
  - intros e new H. constructor; [cbn; auto|]. constructor; [cbn; auto|].
    done.
  - intros a new1 H1. eapply performs_weaken; [apply IH|].
    intros r new H. constructor; [cbn; auto|]. constructor; [cbn; auto|].
    apply Forall_app. by split.
Qed.

Ltac plan_step :=
  lazymatch goal with
  | |- performs (ret _) _ => apply performs_ret
  | |- performs (bind (log _ _) _) _ => apply performs_bind_log
  | |- performs (bind (prim _ _ _) _) _ =>
      apply performs_bind_prim; [intros ?|intros ?]
  | |- performs (if ?b then _ else _) _ => destruct b
  end.

Ltac plan_done :=
  lazymatch goal with
  | |- follows_plan _ (inl _) _ => split; [eexists; reflexivity|exact I]
  | |- follows_plan _ (inr (failure _)) _ =>
      split; [eexists; reflexivity
             |let H := fresh in
              intros H; by apply failure_not_succeeded in H]
  | |- follows_plan _ (inr _) _ =>
      split; [eexists; reflexivity|intros _; reflexivity]
  end.

(** X20. In every world the tools go about their work in a fixed order:
    the two [resolve()] of the security check come first, and a run is a
    prefix of the plan below, all of it when it succeeds. So nothing is
    looked up, read, made or written before the check, [read_file] reads
    only after [exists()] and [is_file()], and a listing goes on with
    [is_dir()], [is_file()] and [stat()] only. *)
Theorem operations_follow_plan (path content : str) :
  performs (read_file path)
    (follows_plan
       [(OpResolve, full_path path); (OpResolve, CONFIG_BASE);
        (OpExists, full_path path); (OpIsFile, full_path path);
        (OpReadText, full_path path)]) /\
  performs (write_file path content)
    (follows_plan
       [(OpResolve, full_path path); (OpResolve, CONFIG_BASE);
        (OpMkdir, path_parent (full_path path));
        (OpWriteText, full_path path)]) /\
  performs (list_directory path)
    (follows_plan_then_looks
       [(OpResolve, full_path path); (OpResolve, CONFIG_BASE);
        (OpExists, full_path path); (OpIsDir, full_path path);
        (OpIterdir, full_path path)]).
Proof.
  split_and!.
  - unfold read_file. fold (clean_path path). fold (full_path path).
    apply performs_try_except.
    + cbv zeta. repeat plan_step. all: plan_done.
    + intros e new msg [Hp _]. split; [done|].
      intros H. by apply failure_not_succeeded in H.
  - unfold write_file. fold (clean_path path). fold (full_path path).
    apply performs_try_except.
    + cbv zeta. repeat plan_step. all: plan_done.
    + intros e new msg [Hp _]. split; [done|].
      intros H. by apply failure_not_succeeded in H.
  - unfold list_directory. rewrite list_clean. fold (full_path path).
    apply performs_try_except.
    + cbv zeta. repeat plan_step.
      all: try (left; split; [eexists; reflexivity|];
                first [exact I|apply failure_not_succeeded]).
      eapply performs_bind; [apply performs_list_entries| |].
      * intros e new H. right. exists new. by split.
      * intros es new1 H1. apply performs_bind_log, performs_ret.
        right. exists new1. rewrite app_nil_r. by split.
    + intros e new msg [[Hp _]|Hmore]; [left|by right].
      split; [done|apply failure_not_succeeded].
Qed.

(** ** Spellings of one request *)

Lemma split_slash_cat (a b : str) :
  split_slash (a ++ slash :: b) = split_slash a ++ split_slash b.
Proof.
  induction a as [|c a IH]; cbn [app split_slash].
  { by rewrite decide_True. }
  case_decide; [by rewrite IH|]. rewrite IH.
  pose proof (split_slash_nonempty a) as Hne.
  by destruct (split_slash a).
Qed.

Lemma parts_lstrip (s : str) :
  List.filter is_part (split_slash (lstrip_slash s))
  = List.filter is_part (split_slash s).
Proof.
  induction s as [|c s IH]; [done|]. cbn [lstrip_slash].
  destruct (decide (c = slash)) as [->|Hc]; [|done].
  rewrite IH. cbn [split_slash]. by rewrite decide_True.
Qed.

Lemma clean_path_parts (s : str) :
  clean_path s
  = {| absolute := false; parts := List.filter is_part (split_slash s) |}.
Proof.
  unfold clean_path, mkPath. by rewrite lstrip_not_abs, parts_lstrip.
Qed.

Lemma clean_path_cat (a b : str) :
  parts (clean_path (a ++ slash :: b))
  = parts (clean_path a) ++ parts (clean_path b).
Proof.
  rewrite !clean_path_parts. cbn [parts].
  by rewrite split_slash_cat, List.filter_app.
Qed.

(** X21. Spellings of one request. Empty segments and ["."] segments do
    not count, wherever they stand, nor does a slash at the end: requests
    that differ in these have the same cleaned path, and requests with the
    same cleaned path get the same successful results from every tool
    (and the same tree from [write_file]). *)
Theorem spellings_of_one_request :
  (forall a b, clean_path (a ++ u "//" ++ b) = clean_path (a ++ u "/" ++ b)) /\
  (forall a b, clean_path (a ++ u "/./" ++ b) = clean_path (a ++ u "/" ++ b)) /\
  (forall a, clean_path (a ++ u "/") = clean_path a) /\
  (forall a, clean_path (u "./" ++ a) = clean_path a) /\
  (forall (fs : filesystem) (p q content : str) (d : dict),
     clean_path p = clean_path q -> succeeded d ->
     ((read_file p (quiet fs)).1 = inr d ->
      (read_file q (quiet fs)).1 = inr d) /\
     ((write_file p content (quiet fs)).1 = inr d ->
      (write_file q content (quiet fs)).1 = inr d /\
      files (write_file q content (quiet fs)).2
      = files (write_file p content (quiet fs)).2) /\
     ((list_directory p (quiet fs)).1 = inr d ->
      (list_directory q (quiet fs)).1 = inr d)).
Proof.
  assert (Hparts : forall p q, parts (clean_path p) = parts (clean_path q)
                               -> clean_path p = clean_path q).
  { intros p q. rewrite !clean_path_parts. cbn [parts]. by intros ->. }
  split_and!.
  - intros a b. apply Hparts.
    change (u "//" ++ b) with (slash :: slash :: b).
    change (u "/" ++ b) with (slash :: b).
    by rewrite !clean_path_cat.
  - intros a b. apply Hparts.
    change (u "/./" ++ b) with (slash :: [46] ++ slash :: b).
    change (u "/" ++ b) with (slash :: b).
    by rewrite !clean_path_cat.
  - intros a. apply Hparts. change (u "/") with (slash :: []).
    rewrite clean_path_cat. apply app_nil_r.
  - intros a. apply Hparts. change (u "./" ++ a) with ([46] ++ slash :: a).
    by rewrite clean_path_cat.
  - intros fs p q content d Heq Hok. split_and!.
    + intros Hrun. by apply (same_clean_read fs p q d).
    + intros Hrun. by apply (same_clean_write fs p q content d).
    + intros Hrun. by apply (same_clean_list fs p q d).
Qed.

(** ** One call after another *)

Lemma after_reading {A B : Type} (m : M A) (k : M B) (fs : filesystem) :
  preserves same_files m -> preserves still_calm m -> journal_blind k ->
  (k (m (quiet fs)).2).1 = (k (quiet fs)).1 /\
  files (k (m (quiet fs)).2).2 = files (k (quiet fs)).2.
Proof.
  intros Hf Hc Hk.
  destruct (run_as_quiet k (m (quiet fs)).2 Hk (Hc (quiet fs) eq_refl))
    as [-> ->].
  by rewrite (Hf (quiet fs)).
Qed.

(** X22. Reading does not disturb what comes next: after a [read_file] or
    a [list_directory], whatever its outcome, each tool returns what it
    would have returned without that call, and [write_file] leaves the
    same tree. *)
Theorem reading_does_not_interfere (fs : filesystem)
    (p q content : str) :
  let after (w1 : world) :=
    (read_file q w1).1 = (read_file q (quiet fs)).1 /\
    (list_directory q w1).1 = (list_directory q (quiet fs)).1 /\
    (write_file q content w1).1 = (write_file q content (quiet fs)).1 /\
    files (write_file q content w1).2
    = files (write_file q content (quiet fs)).2 in
  after (read_file p (quiet fs)).2 /\
  after (list_directory p (quiet fs)).2.
Proof.
  destruct (reading_tools_preserve p) as [Hr Hl].
  destruct (tools_stay_calm p []) as (Cr & _ & Cl).
  cbv zeta. split; split_and!.
  - apply (after_reading _ _ fs Hr Cr (blind_read_file q)).
  - apply (after_reading _ _ fs Hr Cr (blind_list_directory q)).
  - apply (after_reading _ _ fs Hr Cr (blind_write_file q content)).
  - apply (after_reading _ _ fs Hr Cr (blind_write_file q content)).
  - apply (after_reading _ _ fs Hl Cl (blind_read_file q)).
  - apply (after_reading _ _ fs Hl Cl (blind_list_directory q)).
  - apply (after_reading _ _ fs Hl Cl (blind_write_file q content)).
  - apply (after_reading _ _ fs Hl Cl (blind_write_file q content)).
Qed.

(** ** Reading back, newlines and all *)

Lemma read_after_write (fs : filesystem) (path content : str) (d : dict)
    (w1 : world) :
  wf fs ->
  write_file path content (quiet fs) = (inr d, w1) -> succeeded d ->
  (read_file path w1).1
  = inr (was_read path (universal_newlines content)).
Proof.
  intros Hwf Hrun Hok.
  assert (Hcalm : faults w1 = []).
  { pose proof (write_file_calm fs path content) as H.
    by rewrite Hrun in H. }
  destruct (run_as_quiet (read_file path) w1 (blind_read_file path) Hcalm)
    as [-> _].
  destruct (write_file_success fs path content d w1 Hrun Hok)
    as (l & b0 & r & j & Hchk & Henc & Hw & Hr & -> & ->).
  cbn [files].
  set (fs1 := (mkdir_parents (path_parent (full_path path)) fs).2) in *.
  assert (He1 : extends fs fs1) by (by apply mkdir_parents_rev_extends).
  pose proof He1 as (Hwf1 & _).
  assert (Hl : fs1 !! l = None /\ (exists k c, l = k ++ [c] /\ good_dir fs1 k)
               \/ exists d0 d', fs1 !! l = Some (File d0) /\ File b0 = File d').
  { destruct Hr as [->|[d0 ->]].
    - left. eapply walk_absent; [done| |exact Hw]. by left.
    - right. exists d0, b0. split; [|done].
      by eapply (walk_at fs1 true l (File d0)). }
  assert (He2 : extends fs1 (<[l := File b0]> fs1))
    by (by apply extends_insert).
  pose proof (extends_trans _ _ _ He1 He2) as He.
  set (fs2 := <[l := File b0]> fs1) in *.
  assert (Hw2 : walk MAXSYMLINKS fs2 true [] (names (full_path path))
                = inr (At l (File b0))).
  { apply (walk_after_write fs1 l b0) with (r := r); [|done|done].
    destruct Hl as [[? _]|(d0 & _ & ? & _)]; eauto. }
  assert (Hc2 : containment_check fs2 (full_path path) = Some true).
  { unfold containment_check in *.
    destruct (realpath fs (names (full_path path))) as [rp|] eqn:Hrp;
      [|done].
    destruct (realpath fs (names CONFIG_BASE)) as [rb|] eqn:Hrb; [|done].
    apply (realpath_extends fs fs2) in Hrp, Hrb; try done.
    by rewrite Hrp, Hrb. }
  destruct (read_file_checked fs2 path Hc2) as [_ ->].
  unfold k_stat. rewrite Hw2. by rewrite (decode_encode content b0 Henc).
Qed.

(** X23. What [read_file] returns after a successful [write_file] of
    [content] to the same path, on a tree without orphans: the content
    with every ["\r\n"] and every lone ["\r"] turned into ["\n"], and its
    length as the size. The text comes back unchanged exactly when the
    translation leaves it alone. *)
Theorem read_back_translates_newlines (fs : filesystem)
    (path content : str) (d : dict) (w1 : world) :
  wf fs ->
  write_file path content (quiet fs) = (inr d, w1) -> succeeded d ->
  (read_file path w1).1
  = inr (was_read path (universal_newlines content)) /\
  len (universal_newlines content) <= len content /\
  ((read_file path w1).1 = inr (was_read path content)
   <-> universal_newlines content = content).
Proof.
  intros Hwf Hrun Hok.
  rewrite (read_after_write fs path content d w1 Hwf Hrun Hok).
  split_and!; [done| |].
  - pose proof (universal_newlines_length (length content) content
                  ltac:(lia)).
    unfold len. lia.
  - split; [|by intros ->].
    intros H. apply (inj inr) in H. by injection H.
Qed.

Lemma read_back_translates_newlines_witness :
  wf fs0 /\
  (write_file (u "a.txt") [97; 13; 10; 98; 13] (quiet fs0)).1
    = inr (written (u "a.txt") [97; 13; 10; 98; 13]) /\
  (read_file (u "a.txt")
     (write_file (u "a.txt") [97; 13; 10; 98; 13] (quiet fs0)).2).1
    = inr (was_read (u "a.txt") [97; 10; 98; 10]).
Proof.
  assert (Hwf : wf fs0) by (apply wfb_wf; vm_compute; reflexivity).
  assert (Hrun : (write_file (u "a.txt") [97; 13; 10; 98; 13] (quiet fs0)).1
                 = inr (written (u "a.txt") [97; 13; 10; 98; 13]))
    by (vm_compute; reflexivity).
  split; [exact Hwf|]. split; [exact Hrun|].
  apply (read_back_translates_newlines fs0 (u "a.txt") [97; 13; 10; 98; 13]
           (written (u "a.txt") [97; 13; 10; 98; 13])
           (write_file (u "a.txt") [97; 13; 10; 98; 13] (quiet fs0)).2 Hwf).
  - apply run_pair. exact Hrun.
  - reflexivity.
Defined.

(** ** After [mkdir] the directory is there *)

(** A walk that ends at a free name did not stop at a link, so it goes
    the same way when a link in last position is followed. *)
Lemma walk_absent_follow (fs : filesystem) (l : list str) (fuel : nat) :
  forall (ns : list str) (cur : list str),
    walk fuel fs false cur ns = inr (Absent l) ->
    walk fuel fs true cur ns = inr (Absent l).
Proof.
  induction fuel as [|fuel IHf]; intros ns;
    (induction ns as [|c rest IH]; intros cur; [by rewrite !walk_nil|]).
  all: rewrite !walk_cons; repeat case_decide; [by apply IH|by apply IH|].
  all: destruct (fs !! (cur ++ [c])) as [[d| |t|]|]; try done.
  all: try (by apply IH).
  all: cbn [negb andb]; destruct (no_more rest); try done.
  by apply IHf.
Qed.

(** A directory made where the walk ended is found there by the same
    walk. *)
Lemma walk_after_mkdir (fs : filesystem) (l : list str) :
  fs !! l = None ->
  forall (fuel : nat) (ns : list str) (cur : list str),
    walk fuel fs true cur ns = inr (Absent l) ->
    walk fuel (<[l := Dir]> fs) true cur ns = inr (At l Dir).
Proof.
  intros Hl. induction fuel as [|fuel IHf];
    (induction ns as [|c rest IH]; intros cur; [by rewrite walk_nil|]).
  all: rewrite !walk_cons; repeat case_decide; [by apply IH|by apply IH|].
  all: destruct (decide (l = cur ++ [c])) as [->|Hne].
  all: try (rewrite lookup_insert_eq, Hl;
            destruct rest; [by rewrite walk_nil|done]).
  all: rewrite lookup_insert_ne by done.
  all: destruct (fs !! (cur ++ [c])) as [[d| |t|]|] eqn:Hc.
  all: try (by apply IH).
  all: cbn [negb andb]; try done.
  all: try (by apply IHf).
  all: destruct (no_more rest); try done.
  all: intros [= <-]; congruence.
Qed.

Lemma is_dir_after_k_mkdir (fs fs' : filesystem) (p : Path) :
  k_mkdir fs (names p) = inr fs' -> is_dir p fs' = (inr true, fs').
Proof.
  unfold k_mkdir.
  destruct (walk MAXSYMLINKS fs false [] (names p)) as [e|[l n|l]] eqn:Hw;
    try done.
  intros [= <-]. unfold is_dir. rewrite stat_test_quiet. unfold k_stat.
  pose proof (walk_absent_free fs false l _ _ _ Hw) as Hl.
  apply walk_absent_follow in Hw.
  pose proof (walk_after_mkdir fs l Hl _ _ _ Hw) as Hw2.
  match goal with
  | |- (inr (match match ?x with _ => _ end with _ => _ end), _) = _ =>
      change x with (walk MAXSYMLINKS (<[l := Dir]> fs) true [] (names p));
      replace (walk MAXSYMLINKS (<[l := Dir]> fs) true [] (names p))
        with (@inr errno walked (At l Dir)) by (symmetry; exact Hw2)
  end.
  done.
Qed.

Lemma is_dir_after_exist_ok (fs fs' : filesystem) (p : Path) (e : errno) :
  mkdir_exist_ok p e fs = (inr (), fs') -> is_dir p fs' = (inr true, fs').
Proof.
  unfold mkdir_exist_ok.
  destruct (is_dir p fs) as [[x|[]] fs1] eqn:Hd; try done.
  intros [= <-]. unfold is_dir in *. rewrite stat_test_quiet in Hd.
  injection Hd as Hd <-. by rewrite stat_test_quiet, Hd.
Qed.

(** X24. When [Path.mkdir(parents=True, exist_ok=True)] returns without an
    exception, the path is a directory: [is_dir()] answers true on the
    tree it leaves, whether the directory was made, its parents with it,
    or it was there already. So [write_file] opens its file in a
    directory that exists. *)
Theorem mkdir_leaves_directory (fs fs' : filesystem) (p : Path) :
  mkdir_parents p fs = (inr (), fs') -> is_dir p fs' = (inr true, fs').
Proof.
  unfold mkdir_parents. destruct p as [a ps].
  cbn [absolute parts]. rewrite <- (rev_involutive ps) at 2.
  generalize (rev ps) as rp. clear ps. intros rp.
  rewrite mkdir_parents_rev_unfold. cbn zeta.
  destruct (k_mkdir fs _) as [e|fs1] eqn:Hk.
  2:{ intros [= <-]. exact (is_dir_after_k_mkdir fs fs1 _ Hk). }
  destruct e;
    try (intros H; exact (is_dir_after_exist_ok _ _ _ _ H)).
  destruct rp as [|c rparent]; [done|].
  destruct (mkdir_parents_rev a rparent fs) as [[x|[]] fs1]; [done|].
  destruct (k_mkdir fs1 _) as [e|fs2] eqn:Hk2.
  2:{ intros [= <-]. exact (is_dir_after_k_mkdir fs1 fs2 _ Hk2). }
  destruct e; try done;
    intros H; exact (is_dir_after_exist_ok _ _ _ _ H).
Qed.

Lemma mkdir_leaves_directory_witness :
  mkdir_parents (full_path (u "a/b")) fs0
    = (inr (), (mkdir_parents (full_path (u "a/b")) fs0).2) /\
  is_dir (full_path (u "a/b")) (mkdir_parents (full_path (u "a/b")) fs0).2
    = (inr true, (mkdir_parents (full_path (u "a/b")) fs0).2).
Proof.
  assert (H : mkdir_parents (full_path (u "a/b")) fs0
              = (inr (), (mkdir_parents (full_path (u "a/b")) fs0).2)).
    by (vm_compute; reflexivity).
  split; [exact H|].
  exact (mkdir_leaves_directory fs0 _ (full_path (u "a/b")) H).
Defined.
